(** * Adolphus coverage model: scene grid, occlusion, camera, network

    Shallow embedding of [src/coverage/camera.py].

    Numbers.  The Python code computes on binary64 floats.  The
    embedding reads the code twice.

    The first reading keeps the values as exact rationals ([Q]): the
    comparisons, the [int( )] truncation and the [%] remainder are the
    Python ones, the four arithmetic operations are exact (no rounding).
    Division is only ever used under the guard that Python's
    [ZeroDivisionError] puts on it.  It carries the properties that the
    rounding of a float does not touch.

    The second reading, module [Num], has the arithmetic as a parameter
    and the binary64 floats of the machine as the instance
    [Binary64.arith]; the exact reading is its instance [exact_arith]
    ([num_occluded_fuel], [num_generate_points], [num_make_opaque]).  It
    carries the properties of the scene that rounding decides: the cells
    that [occluded] tests, whether its loop leaves, the samples of
    [generate_points].

    Coordinates and steps are floats: [/] is the true division (on two
    Python 2 integers it would floor).

    Exceptions.  A function that can raise returns [res A]; a
    [try ... except ZeroDivisionError] block is a test of the divisor. *)

From stdpp Require Import gmap strings.
From Stdlib Require Import QArith Qround Qabs Qminmax Lqa Lia.
From Stdlib Require Import Floats.

Local Open Scope Q_scope.

(** ** Exceptions *)

(** The exceptions that the code raises or lets through: those of its
    [raise] statements ([ValueError], [TypeError]), of a division or
    remainder by zero, of a missing key, and of [int( )] on a float that
    is a NaN ([ValueError]) or an infinity ([OverflowError]). *)
Inductive exn : Set :=
| ValueError
| ZeroDivisionError
| KeyError
| TypeError
| OverflowError.

Inductive res (A : Type) : Type :=
| Ok (a : A)
| Raise (e : exn).
Arguments Ok {A} a.
Arguments Raise {A} e.

Definition bind {A B : Type} (m : res A) (k : A -> res B) : res B :=
  match m with
  | Ok a => k a
  | Raise e => Raise e
  end.

Notation "'let!' x ':=' m 'in' k" := (bind m (fun x => k))
  (at level 10, x name, m at level 100, k at level 200).

(** ** Python arithmetic on rationals *)

(** [a < b] as a boolean. *)
Definition Qlt_bool (a b : Q) : bool := negb (Qle_bool b a).

(** Python truth value of a number: non-zero. *)
Definition truthy (a : Q) : bool := negb (Qeq_bool a 0).

(** [int( a )]: truncation toward zero. *)
Definition py_int (a : Q) : Z := Z.quot (Qnum a) (Zpos (Qden a)).

(** [a / b], raising on a zero divisor. *)
Definition py_div (a b : Q) : res Q :=
  if Qeq_bool b 0 then Raise ZeroDivisionError else Ok (a / b).

(** [a % b]: the remainder has the sign of the divisor; raises on a
    zero divisor. *)
Definition py_mod (a b : Q) : res Q :=
  if Qeq_bool b 0 then Raise ZeroDivisionError
  else Ok (a - inject_Z (Qfloor (a / b)) * b).

(** [b and v or 0], the conditional idiom of the traversal. *)
Definition and_or (b : bool) (v : Q) : Q :=
  if b then (if truthy v then v else 0) else 0.

(** ** Points *)

(** Modelled from the spec: [geometry.Point] is not under src/.  A point
    is a 3-tuple of coordinates, indexable by 0, 1, 2; two points are the
    same element of a set when their coordinates are equal. *)
Record Point : Type := mkPoint { px : Q; py : Q; pz : Q }.

Inductive axis : Set := A0 | A1 | A2.

Definition axis_eqb (a b : axis) : bool :=
  match a, b with
  | A0, A0 | A1, A1 | A2, A2 => true
  | _, _ => false
  end.

(** [p[ i ]] *)
Definition getitem (p : Point) (i : axis) : Q :=
  match i with A0 => px p | A1 => py p | A2 => pz p end.

(** [P[ i ] = v] on a 3-element list. *)
Definition setitem (p : Point) (i : axis) (v : Q) : Point :=
  match i with
  | A0 => mkPoint v (py p) (pz p)
  | A1 => mkPoint (px p) v (pz p)
  | A2 => mkPoint (px p) (py p) v
  end.

Definition Point_eqb (p q : Point) : bool :=
  Qeq_bool (px p) (px q) && Qeq_bool (py p) (py q) && Qeq_bool (pz p) (pz q).

(** ** Scene *)

Record Scene : Type := mkScene {
  xr : Q * Q;
  yr : Q * Q;
  zr : Q * Q;
  pstep : Q;
  dstep : Q;
  opaque : list Point
}.

(** [Scene.__init__]: the opaque set starts empty. *)
Definition Scene_init (x y z : Q * Q) (ps ds : Q) : Scene :=
  mkScene x y z ps ds [].

(** [q in self.opaque] *)
Definition is_opaque (sc : Scene) (q : Point) : bool :=
  existsb (Point_eqb q) (opaque sc).

(** [self.opaque.add( p )]: a set keeps one copy of an element. *)
Definition opaque_add (sc : Scene) (p : Point) : Scene :=
  if is_opaque sc p then sc
  else mkScene (xr sc) (yr sc) (zr sc) (pstep sc) (dstep sc) (p :: opaque sc).

(** [Scene.make_opaque] *)
Definition make_opaque (sc : Scene) (p : Point) : res Scene :=
  let! mx := py_mod (px p) (pstep sc) in
  if truthy mx then Raise ValueError else
  let! my := py_mod (py p) (pstep sc) in
  if truthy my then Raise ValueError else
  let! mz := py_mod (pz p) (pstep sc) in
  if truthy mz then Raise ValueError else
  Ok (opaque_add sc p).

(** A coordinate is on the lattice when it is an integer multiple of the
    step. *)
Definition multiple_of (step a : Q) : Prop := exists k : Z, a == inject_Z k * step.

Definition on_lattice (step : Q) (p : Point) : Prop :=
  multiple_of step (px p) /\ multiple_of step (py p) /\ multiple_of step (pz p).

(** Scenes that the program can build: the constructor followed by
    successful [make_opaque] calls. *)
Inductive reachable : Scene -> Prop :=
| reach_init x y z ps ds : reachable (Scene_init x y z ps ds)
| reach_opaque sc p sc' :
    reachable sc -> make_opaque sc p = Ok sc' -> reachable sc'.

(** ** Occlusion: voxel traversal *)

(** The values that [Scene.occluded] fixes before its loop. *)
Record Setup : Type := mkSetup {
  d : Point;            (* d[ i ] = abs( p[ i ] - cam[ i ] ) *)
  s : Point;            (* signed step per axis *)
  ax : axis;            (* driving axis x *)
  ay : axis;
  az : axis;
  P2 : Q;               (* last driving coordinate *)
  dxy : Q;
  d1xy : Q;
  dxz : Q;
  d1xz : Q
}.

(** The variables that the loop updates. *)
Record Walk : Type := mkWalk { P : Point; exy : Q; exz : Q }.

(** [int( a / step ) * step], the lattice coordinate of the voxel of [a],
    in exact arithmetic: the quotient is not rounded before [int( )]
    ([Num.snap] rounds it). *)
Definition snap (step a : Q) : Q := inject_Z (py_int (a / step)) * step.

(** [Point( [ int( q[ i ] / pstep ) * pstep ] )], the voxel holding [q]. *)
Definition voxel (step : Q) (q : Point) : Point :=
  mkPoint (snap step (px q)) (snap step (py q)) (snap step (pz q)).

(** [s[ i ]]: [pstep * ( p[ i ] - cam[ i ] ) / d[ i ]], and [pstep] when
    the division raises. *)
Definition sign_step (step pi ci : Q) : Q :=
  match py_div (step * (pi - ci)) (Qabs (pi - ci)) with
  | Ok v => v
  | Raise _ => step
  end.

(** The three-way choice of the driving axis. *)
Definition driving (d : Point) : axis * axis * axis :=
  if Qlt_bool (py d) (px d) && Qlt_bool (pz d) (px d) then (A0, A1, A2)
  else if Qlt_bool (px d) (py d) && Qlt_bool (pz d) (py d) then (A1, A2, A0)
  else (A2, A0, A1).

(** [Point( P[ i ] + ( a == i and s[ i ] or 0 ) )]: one step along [a]. *)
Definition beside (su : Setup) (P : Point) (a : axis) : Point :=
  mkPoint (px P + and_or (axis_eqb a A0) (px (s su)))
          (py P + and_or (axis_eqb a A1) (py (s su)))
          (pz P + and_or (axis_eqb a A2) (pz (s su))).

(** [Point( P[ i ] + ( a == i and s[ 0 ] or 0 ) + ( b == i and s[ 0 ] or 0 ) )]:
    the corner test; the source reads [s[ 0 ]] on every axis. *)
Definition corner (su : Setup) (P : Point) (a b : axis) : Point :=
  mkPoint (px P + and_or (axis_eqb a A0) (px (s su)) + and_or (axis_eqb b A0) (px (s su)))
          (py P + and_or (axis_eqb a A1) (px (s su)) + and_or (axis_eqb b A1) (px (s su)))
          (pz P + and_or (axis_eqb a A2) (px (s su)) + and_or (axis_eqb b A2) (px (s su))).

(** [P = [ P[ i ] + s[ i ] for i in range( 3 ) ]] *)
Definition advance_all (su : Setup) (P : Point) : Point :=
  mkPoint (px P + px (s su)) (py P + py (s su)) (pz P + pz (s su)).

(** [P[ a ] += s[ a ]] *)
Definition advance (su : Setup) (P : Point) (a : axis) : Point :=
  setitem P a (getitem P a + getitem (s su) a).

Inductive outcome : Type :=
| Return (b : bool)
| Continue (w : Walk).

(** One pass through the body of the [while] loop. *)
Definition body (sc : Scene) (su : Setup) (w : Walk) : outcome :=
  let x := ax su in let y := ay su in let z := az su in
  if Qlt_bool 0 (exy w) then
    if Qlt_bool 0 (exz w) then
      if (if Qlt_bool (exz w * getitem (d su) y) (exy w * getitem (d su) z)
          then is_opaque sc (beside su (P w) y)
          else is_opaque sc (beside su (P w) z))
      then Return true
      else if is_opaque sc (corner su (P w) y z) then Return true
      else
        let P' := advance_all su (P w) in
        if is_opaque sc P' then Return true
        else Continue (mkWalk P' (exy w + d1xy su) (exz w + d1xz su))
    else
      if is_opaque sc (beside su (P w) y) then Return true
      else if is_opaque sc (corner su (P w) x y) then Return true
      else Continue (mkWalk (advance su (advance su (P w) x) y)
                            (exy w + d1xy su) (exz w + dxz su))
  else if Qlt_bool 0 (exz w) then
    if is_opaque sc (beside su (P w) z) then Return true
    else if is_opaque sc (corner su (P w) x z) then Return true
    else Continue (mkWalk (advance su (advance su (P w) x) z)
                          (exy w + dxy su) (exz w + d1xz su))
  else
    if is_opaque sc (beside su (P w) x) then Return true
    else Continue (mkWalk (advance su (P w) x)
                          (exy w + dxy su) (exz w + dxz su)).

(** [s[ x ] * P[ x ] < s[ x ] * P2] *)
Definition loop_test (su : Setup) (w : Walk) : bool :=
  Qlt_bool (getitem (s su) (ax su) * getitem (P w) (ax su))
           (getitem (s su) (ax su) * P2 su).

(** The [while] loop, with a bound on the number of passes; [None] when
    the bound is used up before the loop has left.  The sums of the
    body are exact here ([Num.traverse] has them in any arithmetic). *)
Fixpoint traverse (fuel : nat) (sc : Scene) (su : Setup) (w : Walk) : option bool :=
  if loop_test su w then
    match fuel with
    | O => None
    | S n =>
        match body sc su w with
        | Return b => Some b
        | Continue w' => traverse n sc su w'
        end
    end
  else Some false.

(** The setup part of [Scene.occluded], up to the start of the loop. *)
Definition setup (sc : Scene) (p cam : Point) : Setup * Walk :=
  let st := pstep sc in
  let d := mkPoint (Qabs (px p - px cam)) (Qabs (py p - py cam)) (Qabs (pz p - pz cam)) in
  let u := mkPoint (px cam - snap st (px cam)) (py cam - snap st (py cam))
                   (pz cam - snap st (pz cam)) in
  let s := mkPoint (sign_step st (px p) (px cam)) (sign_step st (py p) (py cam))
                   (sign_step st (pz p) (pz cam)) in
  let '(x, y, z) := driving d in
  let P := voxel st cam in
  let P2 := snap st (getitem p x) in
  let exy := (getitem u y - st) * getitem d x + (st - getitem u x) * getitem d y in
  let exz := (getitem u z - st) * getitem d x + (st - getitem u x) * getitem d z in
  let dxy := st * getitem d y in
  let d1xy := dxy - st * getitem d x in
  let dxz := st * getitem d z in
  let d1xz := dxz - st * getitem d x in
  (mkSetup d s x y z P2 dxy d1xy dxz d1xz, mkWalk P exy exz).

(** [Scene.occluded( p, cam )] with a bound on the passes of its loop.
    The division [cam[ i ] / self.pstep] of the setup raises when the
    step is zero. *)
Definition occluded_fuel (fuel : nat) (sc : Scene) (p cam : Point)
  : option (res bool) :=
  if Qeq_bool (pstep sc) 0 then Some (Raise ZeroDivisionError)
  else
    let '(su, w) := setup sc p cam in
    if is_opaque sc (P w) then Some (Ok true)
    else option_map Ok (traverse fuel sc su w).

(** A number of passes that the loop never exceeds: the distance, in
    voxels, between the two ends along the driving axis. *)
Definition passes (sc : Scene) (p cam : Point) : nat :=
  let '(su, w) := setup sc p cam in
  Z.to_nat (Z.abs (py_int (getitem p (ax su) / pstep sc)
                   - py_int (getitem cam (ax su) / pstep sc))).

(** [Scene.occluded( p, cam )]: the loop run to its end.  The bound
    [passes] is never used up, whatever the scene and the points. *)
Definition occluded (sc : Scene) (p cam : Point) : res bool :=
  match occluded_fuel (passes sc p cam) sc p cam with
  | Some r => r
  | None => Raise KeyError   (* not reached: see [occluded_fuel_passes] *)
  end.

(** ** Directional points and their generator *)

(** [math.pi]: the double nearest to the number pi, as a fraction. *)
Definition pi : Q := 884279719003555 # 281474976710656.

(** Modelled from the spec: [geometry.DirectionalPoint] is not under
    src/.  A Point augmented with two angles, polar [rho] and azimuthal
    [eta]. *)
Record DirectionalPoint : Type := mkDP { pos : Point; rho : Q; eta : Q }.

Definition DirectionalPoint_eqb (a b : DirectionalPoint) : bool :=
  Point_eqb (pos a) (pos b) && Qeq_bool (rho a) (rho b) && Qeq_bool (eta a) (eta b).

(** [numpy.arange( start, stop, step )] in exact arithmetic: the values
    [start + i * step] for [i] from 0 below
    [ceil( ( stop - start ) / step )]; a zero step raises.
    [Binary64.arange] is the same function on floats. *)
Definition arange_len (start stop step : Q) : nat :=
  Z.to_nat (Qceiling ((stop - start) / step)).

Definition samples (start stop step : Q) : list Q :=
  map (fun i : nat => start + inject_Z (Z.of_nat i) * step)
      (seq 0 (arange_len start stop step)).

Definition arange (start stop step : Q) : res (list Q) :=
  if Qeq_bool step 0 then Raise ZeroDivisionError
  else Ok (samples start stop step).

(** A [for] loop whose body yields a run of values; the runs are chained
    in order and the first exception ends the loop. *)
Fixpoint for_yield {A B : Type} (l : list A) (f : A -> res (list B))
  : res (list B) :=
  match l with
  | [] => Ok []
  | a :: l' =>
      let! ys := f a in
      let! rest := for_yield l' f in
      Ok (ys ++ rest)
  end.

(** [rho in [ 0, pi ]], on exact values. *)
Definition is_pole (r : Q) : bool := Qeq_bool r 0 || Qeq_bool r pi.

(** The two inner loops of [generate_points]: the directions sampled at
    one grid cell. *)
Definition directions_at (sc : Scene) (c : Point) : res (list DirectionalPoint) :=
  let! rhos := arange 0 (pi + dstep sc) (dstep sc) in
  for_yield rhos (fun r =>
    if is_pole r then Ok [mkDP c r 0]
    else
      let! etas := arange 0 (2 * pi) (dstep sc) in
      for_yield etas (fun e => Ok [mkDP c r e])).

(** [Scene.generate_points].  The generator raises, if at all, before
    its first [yield] (a zero step), so the sequence it produces is
    modelled as the list of all its values. *)
Definition generate_points (sc : Scene) : res (list DirectionalPoint) :=
  let! xs := arange (fst (xr sc)) (snd (xr sc)) (pstep sc) in
  for_yield xs (fun x =>
    let! ys := arange (fst (yr sc)) (snd (yr sc)) (pstep sc) in
    for_yield ys (fun y =>
      let! zs := arange (fst (zr sc)) (snd (zr sc)) (pstep sc) in
      for_yield zs (fun z =>
        if is_opaque sc (mkPoint x y z) then Ok []
        else directions_at sc (mkPoint x y z)))).

(** ** Camera *)

(** Modelled from the spec: [fuzz.TrapezoidalFuzzyNumber] is not under
    src/.  A membership function that is 0 outside an outer interval
    (the support), 1 inside an inner interval (the kernel), and linearly
    interpolated on the two ramps between. *)
Record TrapezoidalFuzzyNumber : Type := mkTFN {
  kernel : Q * Q;
  support : Q * Q
}.

Definition tfn_mu (t : TrapezoidalFuzzyNumber) (v : Q) : Q :=
  let k0 := fst (kernel t) in let k1 := snd (kernel t) in
  let s0 := fst (support t) in let s1 := snd (support t) in
  if Qle_bool k0 v && Qle_bool v k1 then 1
  else if Qlt_bool s0 v && Qlt_bool v k0 then (v - s0) / (k0 - s0)
  else if Qlt_bool v s1 && Qlt_bool k1 v then (s1 - v) / (s1 - k1)
  else 0.

(** The argument of [Camera.mu]: a Point, or its subclass
    DirectionalPoint. *)
Inductive Target : Type :=
| Plain (p : Point)
| Directed (dp : DirectionalPoint).

Definition position (t : Target) : Point :=
  match t with Plain p => p | Directed dp => pos dp end.

(** [isinstance( t, DirectionalPoint )] *)
Definition is_directed (t : Target) : bool :=
  match t with Plain _ => false | Directed _ => true end.

(** Modelled from the spec: [geometry.Pose] is not under src/.  A rigid
    transform with a translation [T], an inverse [-pose] and a mapping of
    a Point or DirectionalPoint into the transformed frame. *)
Class Geometry (Pose : Type) : Type := {
  pose_T : Pose -> Point;
  pose_neg : Pose -> Pose;
  pose_map : Pose -> Target -> Target
}.

(** The functions of Python's [math] module that [Camera.mu] calls, on
    the rationals that stand for floats. *)
Class MathLib : Type := {
  m_sqrt : Q -> Q;
  m_sin : Q -> Q;
  m_cos : Q -> Q;
  m_atan : Q -> Q
}.

(** [try: m  except ZeroDivisionError: fallback] *)
Definition except_zero {A : Type} (m : res A) (fallback : A) : res A :=
  match m with
  | Raise ZeroDivisionError => Ok fallback
  | r => r
  end.

(** A camera after [Camera.__init__]: its name, the four fuzzy numbers
    that the constructor derives from the intrinsics, the fuzzifier of
    the direction and the pose. *)
Record Camera (Pose : Type) : Type := mkCamera {
  name : string;
  Cvh : TrapezoidalFuzzyNumber;
  Cvv : TrapezoidalFuzzyNumber;
  Cr : TrapezoidalFuzzyNumber;
  Cf : TrapezoidalFuzzyNumber;
  zeta : Q;
  pose : Pose
}.
Arguments mkCamera {Pose}.
Arguments name {Pose}.
Arguments Cvh {Pose}.
Arguments Cvv {Pose}.
Arguments Cr {Pose}.
Arguments Cf {Pose}.
Arguments zeta {Pose}.
Arguments pose {Pose}.

Section CameraModel.
Context {Pose : Type} {G : Geometry Pose} {M : MathLib}.

(** [campoint = ( -self.pose ).map( dpoint )] *)
Definition campoint (cam : Camera Pose) (dpoint : Target) : Target :=
  pose_map (pose_neg (pose cam)) dpoint.

(** The visibility membership of [Camera.mu]. *)
Definition mu_v (cam : Camera Pose) (c : Point) : res Q :=
  except_zero
    (let! h := py_div (px c) (pz c) in
     let! v := py_div (py c) (pz c) in
     Ok (Qmin (tfn_mu (Cvh cam) h) (tfn_mu (Cvv cam) v)))
    0.

(** The direction membership of [Camera.mu]. *)
Definition mu_d (cam : Camera Pose) (t : Target) : res Q :=
  match t with
  | Directed dp =>
      let c := pos dp in
      let r := m_sqrt (px c * px c + py c * py c) in
      let! terma :=
        except_zero
          (let! a := py_div (py c) r in
           let! b := py_div (px c) r in
           Ok (a * m_sin (eta dp) + b * m_cos (eta dp)))
          1 in
      let! termb :=
        except_zero (let! q := py_div r (pz c) in Ok (m_atan q)) (pi / 2) in
      let! q := py_div (rho dp - (pi / 2 + terma * termb)) (zeta cam) in
      Ok (Qmin (Qmax q 0) 1)
  | Plain _ => Ok 1
  end.

(** [Camera.mu] on a Point, from its second statement on; the test of
    the argument that raises [TypeError] is in [Camera_mu].  The
    arithmetic is exact: [campoint.x ** 2] does not overflow. *)
Definition mu (cam : Camera Pose) (dpoint : Target) : res Q :=
  let cp := campoint cam dpoint in
  let! v := mu_v cam (position cp) in
  let r := tfn_mu (Cr cam) (pz (position cp)) in
  let f := tfn_mu (Cf cam) (pz (position cp)) in
  let! dd := mu_d cam cp in
  Ok (v * r * f * dd).

(** The argument of [Camera.mu] as Python passes it: a Point, plain or
    directional, or any other object. *)
Inductive Argument : Type :=
| IsPoint (t : Target)
| NotPoint.

(** [Camera.mu] from its first line: an argument that is not a Point
    raises [TypeError]. *)
Definition Camera_mu (cam : Camera Pose) (dpoint : Argument) : res Q :=
  match dpoint with
  | NotPoint => Raise TypeError
  | IsPoint t => mu cam t
  end.
End CameraModel.

(** [Camera.__init__]: the four fuzzy numbers from the intrinsic and
    application parameters.  Every division raises on a zero divisor, in
    the order of the source.  The constructor of
    [fuzz.TrapezoidalFuzzyNumber] is taken to store the kernel and the
    support that it is given. *)
Section CameraInit.
Context {Pose : Type} {M : MathLib}.

Definition Camera_init (name : string)
    (A f su sv ou ov w h zS gamma r1 r2 cmax zeta : Q) (pose : Pose)
  : res (Camera Pose) :=
  (* fuzzy sets for visibility *)
  let! qhl := py_div (ou * su) (2 * f) in
  let ahl := 2 * m_atan qhl in
  let! qhr := py_div ((w - ou) * su) (2 * f) in
  let ahr := 2 * m_atan qhr in
  let! qvl := py_div (ov * sv) (2 * f) in
  let avl := 2 * m_atan qvl in
  let! qvr := py_div ((h - ov) * sv) (2 * f) in
  let avr := 2 * m_atan qvr in
  let! gw := py_div gamma w in
  let gamma_h := gw * 2 * m_sin ((ahl + ahr) / 2) in
  let! gh := py_div gamma h in
  let gamma_v := gh * 2 * m_sin ((avl + avr) / 2) in
  let Cvh := mkTFN (- m_sin ahl + gamma_h, m_sin ahr - gamma_h)
                   (- m_sin ahl, m_sin ahr) in
  let Cvv := mkTFN (- m_sin avl + gamma_v, m_sin avr - gamma_v)
                   (- m_sin avl, m_sin avr) in
  (* fuzzy set for resolution *)
  let! mrh := py_div w (2 * m_sin ((ahl + ahr) / 2)) in
  let! mrv := py_div h (2 * m_sin ((avl + avr) / 2)) in
  let mr := Qmin mrh mrv in
  let! i1 := py_div 1 r1 in
  let zr1 := i1 * mr in
  let! i2 := py_div 1 r2 in
  let zr2 := i2 * mr in
  let Cr := mkTFN (0, zr1) (0, zr2) in
  (* fuzzy set for focus *)
  let! zl := py_div (A * f * zS) (A * f + Qmin su sv * (zS - f)) in
  let! zr := py_div (A * f * zS) (A * f - Qmin su sv * (zS - f)) in
  let! zn := py_div (A * f * zS) (A * f + cmax * (zS - f)) in
  let! zf := py_div (A * f * zS) (A * f - cmax * (zS - f)) in
  let Cf := mkTFN (zl, zr) (zn, zf) in
  Ok (mkCamera name Cvh Cvv Cr Cf zeta pose).
End CameraInit.

(** ** Fuzzy sets *)

(** Modelled from the spec: [fuzz.FuzzyElement] and [fuzz.FuzzySet] are
    not under src/.  A fuzzy set is an enumerable mapping from
    directional points to membership degrees, keyed by point identity; a
    point that is not an element has membership 0.  Union is the
    pointwise maximum and intersection the pointwise minimum of the
    memberships. *)
Record FuzzyElement : Type := mkFE { obj : DirectionalPoint; fmu : Q }.

Definition FuzzySet : Type := list FuzzyElement.

Definition has_key (k : DirectionalPoint) (e : FuzzyElement) : bool :=
  DirectionalPoint_eqb (obj e) k.

(** [k in fs] *)
Definition fs_mem (fs : FuzzySet) (k : DirectionalPoint) : bool :=
  existsb (has_key k) fs.

(** [fs.mu( k )] *)
Definition fs_mu (fs : FuzzySet) (k : DirectionalPoint) : Q :=
  match find (has_key k) fs with
  | Some e => fmu e
  | None => 0
  end.

(** [fs.add( e )]: a set keeps the element it already has under a key. *)
Definition fs_add (fs : FuzzySet) (e : FuzzyElement) : FuzzySet :=
  if fs_mem fs (obj e) then fs else fs ++ [e].

(** [FuzzySet( iterable )] *)
Definition FuzzySet_of (l : list FuzzyElement) : FuzzySet :=
  fold_left fs_add l [].

(** [a | b] *)
Definition fs_union (a b : FuzzySet) : FuzzySet :=
  map (fun e => mkFE (obj e) (Qmax (fmu e) (fs_mu b (obj e)))) a
  ++ List.filter (fun e => negb (fs_mem a (obj e))) b.

(** [a & b] *)
Definition fs_inter (a b : FuzzySet) : FuzzySet :=
  map (fun e => mkFE (obj e) (Qmin (fmu e) (fs_mu b (obj e))))
      (List.filter (fun e => fs_mem b (obj e)) a).

(** A fuzzy membership degree is a value in [[0, 1]]. *)
Definition fs_valid (fs : FuzzySet) : Prop :=
  forall k, 0 <= fs_mu fs k <= 1.

(** ** Multi-camera network *)

Record MultiCamera (Pose : Type) : Type := mkMultiCamera {
  cameras : list (Camera Pose);       (* the IndexedSet, keyed by name *)
  scene : Scene;
  inscene : gmap string FuzzySet;
  model : FuzzySet
}.
Arguments mkMultiCamera {Pose}.
Arguments cameras {Pose}.
Arguments scene {Pose}.
Arguments inscene {Pose}.
Arguments model {Pose}.

(** [itertools.combinations( l, 2 )] *)
Fixpoint combinations2 {A : Type} (l : list A) : list (A * A) :=
  match l with
  | [] => []
  | a :: l' => map (pair a) l' ++ combinations2 l'
  end.

Section Network.
Context {Pose : Type} {G : Geometry Pose} {M : MathLib}.

(** [self[ key ]] on the indexed set of cameras. *)
Definition net_getitem (net : MultiCamera Pose) (key : string)
  : res (Camera Pose) :=
  match find (fun c => String.eqb (name c) key) (cameras net) with
  | Some c => Ok c
  | None => Raise KeyError
  end.

(** [self.inscene[ key ]] *)
Definition inscene_getitem (net : MultiCamera Pose) (key : string)
  : res FuzzySet :=
  match inscene net !! key with
  | Some fs => Ok fs
  | None => Raise KeyError
  end.

(** Modelled from the spec: [fuzz.IndexedSet] is not under src/.  A
    name-keyed collection: cameras are equal when their names are, and
    [IndexedSet.add( self, item )] keeps the element that the set
    already has under the name. *)
Definition IndexedSet_add (net : MultiCamera Pose) (item : Camera Pose)
  : MultiCamera Pose :=
  if existsb (fun c => String.eqb (name c) (name item)) (cameras net)
  then net
  else mkMultiCamera (cameras net ++ [item]) (scene net) (inscene net)
                     (model net).

(** The loop of [_update_inscene] over the generated points. *)
Fixpoint inscene_loop (net : MultiCamera Pose) (key : string)
    (pts : list DirectionalPoint) (dpoints : list FuzzyElement)
  : res (list FuzzyElement) :=
  match pts with
  | [] => Ok dpoints
  | dpoint :: rest =>
      let! cam := net_getitem net key in
      let! m := mu cam (Directed dpoint) in
      if Qlt_bool 0 m then
        let! cam' := net_getitem net key in
        let! o := occluded (scene net) (pos dpoint) (pose_T (pose cam')) in
        if negb o
        then inscene_loop net key rest (dpoints ++ [mkFE dpoint m])
        else inscene_loop net key rest dpoints
      else inscene_loop net key rest dpoints
  end.

(** [MultiCamera._update_inscene] *)
Definition _update_inscene (net : MultiCamera Pose) (key : string)
  : res (MultiCamera Pose) :=
  let! pts := generate_points (scene net) in
  let! dpoints := inscene_loop net key pts [] in
  Ok (mkMultiCamera (cameras net) (scene net)
                    (<[key := FuzzySet_of dpoints]> (inscene net))
                    (model net)).

(** [MultiCamera.add] of an item that is a Camera; the test of the item
    is in [add_item]. *)
Definition add (net : MultiCamera Pose) (item : Camera Pose)
  : res (MultiCamera Pose) :=
  _update_inscene (IndexedSet_add net item) (name item).

(** The item of [MultiCamera.add] as Python passes it: a Camera, or any
    other object with a [name]. *)
Inductive Item : Type :=
| CameraItem (c : Camera Pose)
| OtherItem (n : string).

(** [MultiCamera.add] from its first line: only an item that is a
    Camera is put into the set; the in-scene set under the name of the
    item is updated in both cases. *)
Definition add_item (net : MultiCamera Pose) (item : Item)
  : res (MultiCamera Pose) :=
  match item with
  | CameraItem c => add net c
  | OtherItem n => _update_inscene net n
  end.
End Network.

(** [MultiCameraSimple] *)
Module MultiCameraSimple.
Section Update.
Context {Pose : Type}.

(** The loop [for camera in self: self.model |= self.inscene[ camera.name ]]. *)
Fixpoint union_cameras (net : MultiCamera Pose) (cs : list (Camera Pose))
    (m : FuzzySet) : res FuzzySet :=
  match cs with
  | [] => Ok m
  | c :: cs' =>
      let! fs := inscene_getitem net (name c) in
      union_cameras net cs' (fs_union m fs)
  end.

(** [MultiCameraSimple.update]: the model starts as the empty fuzzy
    set. *)
Definition update (net : MultiCamera Pose) : res (MultiCamera Pose) :=
  let! m := union_cameras net (cameras net) [] in
  Ok (mkMultiCamera (cameras net) (scene net) (inscene net) m).
End Update.
End MultiCameraSimple.

(** [MultiCamera3D] *)
Module MultiCamera3D.
Section Update.
Context {Pose : Type}.

(** The list comprehension over [combinations( self, 2 )]. *)
Fixpoint pair_intersections (net : MultiCamera Pose)
    (ps : list (Camera Pose * Camera Pose)) : res (list FuzzySet) :=
  match ps with
  | [] => Ok []
  | (a, b) :: ps' =>
      let! fa := inscene_getitem net (name a) in
      let! fb := inscene_getitem net (name b) in
      let! rest := pair_intersections net ps' in
      Ok (fs_inter fa fb :: rest)
  end.

(** The loop [for pair in pairs: self.model |= pair]. *)
Definition union_all (m : FuzzySet) (pairs : list FuzzySet) : FuzzySet :=
  fold_left fs_union pairs m.

(** [MultiCamera3D.update].  The model starts with every generated
    point at degree 0.  The [set( )] around the list of pairwise
    intersections drops repeated sets only; the union over them is
    taken over the list. *)
Definition update (net : MultiCamera Pose) : res (MultiCamera Pose) :=
  let! pts := generate_points (scene net) in
  let m0 := FuzzySet_of (map (fun dpoint => mkFE dpoint 0) pts) in
  let! pairs := pair_intersections net (combinations2 (cameras net)) in
  Ok (mkMultiCamera (cameras net) (scene net) (inscene net)
                    (union_all m0 pairs)).
End Update.
End MultiCamera3D.

(** Networks that the program can build: the constructor on an empty
    set of cameras, followed by [add] and [update] calls that return. *)
Section Built.
Context {Pose : Type} {G : Geometry Pose} {M : MathLib}.

Inductive built : MultiCamera Pose -> Prop :=
| built_init sc : built (mkMultiCamera [] sc ∅ [])
| built_add net item net' :
    built net -> add net item = Ok net' -> built net'
| built_update_simple net net' :
    built net -> MultiCameraSimple.update net = Ok net' -> built net'
| built_update_3d net net' :
    built net -> MultiCamera3D.update net = Ok net' -> built net'.
End Built.

(** ** The aggregation policies, as the specification words them *)

Section NetworkSpec.
Context {Pose : Type}.

(** The membership of [k] in the in-scene set of camera [c]. *)
Definition inscene_mu (net : MultiCamera Pose) (c : Camera Pose)
    (k : DirectionalPoint) : Q :=
  match inscene net !! name c with
  | Some fs => fs_mu fs k
  | None => 0
  end.

(** Fuzzy union of the in-scene sets of the cameras [cs]: the pointwise
    maximum. *)
Definition union_mu (net : MultiCamera Pose) (cs : list (Camera Pose))
    (k : DirectionalPoint) : Q :=
  fold_right (fun c acc => Qmax (inscene_mu net c k) acc) 0 cs.

(** Fuzzy union, over the pairs [ps], of the fuzzy intersection of the
    two in-scene sets: the maximum of the pairwise minima. *)
Definition pairwise_mu (net : MultiCamera Pose)
    (ps : list (Camera Pose * Camera Pose)) (k : DirectionalPoint) : Q :=
  fold_right
    (fun ab acc =>
       Qmax (Qmin (inscene_mu net (fst ab) k) (inscene_mu net (snd ab) k)) acc)
    0 ps.

(** Every camera of the network has an in-scene set, with degrees in
    [[0, 1]]. *)
Definition inscene_valid (net : MultiCamera Pose) : Prop :=
  forall c, In c (cameras net) ->
    exists fs, inscene net !! name c = Some fs /\ fs_valid fs.
End NetworkSpec.

(** ** The generated sequence, as the specification words it *)

(** The grid cells of the region, in generation order. *)
Definition spec_grid (sc : Scene) : list Point :=
  flat_map (fun x =>
    flat_map (fun y =>
      map (fun z => mkPoint x y z)
          (samples (fst (zr sc)) (snd (zr sc)) (pstep sc)))
      (samples (fst (yr sc)) (snd (yr sc)) (pstep sc)))
    (samples (fst (xr sc)) (snd (xr sc)) (pstep sc)).

(** The sampled polar angles. *)
Definition spec_rhos (sc : Scene) : list Q :=
  samples 0 (pi + dstep sc) (dstep sc).

(** The azimuth range [[0, 2 pi)] stepped at [dstep]. *)
Definition spec_etas (sc : Scene) : list Q :=
  samples 0 (2 * pi) (dstep sc).

(** The directions at a cell: a pole once, with azimuth 0; any other
    polar angle crossed with the azimuth range. *)
Definition spec_directions (sc : Scene) (c : Point) : list DirectionalPoint :=
  flat_map (fun r =>
    if is_pole r then [mkDP c r 0] else map (mkDP c r) (spec_etas sc))
    (spec_rhos sc).

(** Every cell that is not opaque, crossed with its directions. *)
Definition spec_points (sc : Scene) : list DirectionalPoint :=
  flat_map (fun c => if is_opaque sc c then [] else spec_directions sc c)
           (spec_grid sc).

(** ** Points of a segment *)

(** The point at parameter [t] of the straight segment from [a] to [b]. *)
Definition segment_point (a b : Point) (t : Q) : Point :=
  mkPoint (px a + t * (px b - px a)) (py a + t * (py b - py a))
          (pz a + t * (pz b - pz a)).

(** ** A scene, cameras and a network for the examples *)

(** Poses without rotation: a pose is its translation, the inverse pose
    is the opposite translation, and mapping adds the translation. *)
Definition translate (t q : Point) : Point :=
  mkPoint (px q + px t) (py q + py t) (pz q + pz t).

Definition translation_geometry : Geometry Point := {|
  pose_T := fun t => t;
  pose_neg := fun t => mkPoint (- px t) (- py t) (- pz t);
  pose_map := fun t q =>
    match q with
    | Plain p => Plain (translate t p)
    | Directed dp => Directed (mkDP (translate t (pos dp)) (rho dp) (eta dp))
    end
|}.

(** Low-order rational approximations of the [math] functions, exact at
    0. *)
Definition rational_math : MathLib := {|
  m_sqrt := fun a => if Qeq_bool a 0 then 0 else (a + 1) / 2;
  m_sin := fun a => a - a * a * a / 6;
  m_cos := fun a => 1 - a * a / 2;
  m_atan := fun a => a - a * a * a / 3
|}.

Definition ex_scene : Scene := Scene_init (0, 2) (0, 1) (0, 1) 1 1.

Definition ex_camera (n : string) (t : Point) : Camera Point :=
  mkCamera n
    (mkTFN (- (1 # 2), 1 # 2) (- 1, 1))
    (mkTFN (- (1 # 2), 1 # 2) (- 1, 1))
    (mkTFN (0, 2) (0, 4))
    (mkTFN (1, 2) (1 # 2, 3))
    1 t.

Definition ex_A : Camera Point := ex_camera "A" (mkPoint 0 0 (- 1)).
Definition ex_B : Camera Point := ex_camera "B" (mkPoint 1 0 (- 1)).

Definition ex_dp : DirectionalPoint := mkDP (mkPoint 0 0 0) 0 0.

(** A network of two cameras; the point [ex_dp] is fully covered by "A"
    and not covered by "B". *)
Definition ex_net : MultiCamera Point :=
  mkMultiCamera [ex_A; ex_B] ex_scene
    (<["A" := [mkFE ex_dp 1]]> (<["B" := []]> ∅)) [].





(** The same two cameras, both covering the point [ex_dp]: "A" fully,
    "B" with degree 1/2. *)
Definition ex_net_both : MultiCamera Point :=
  mkMultiCamera [ex_A; ex_B] ex_scene
    (<["A" := [mkFE ex_dp 1]]> (<["B" := [mkFE ex_dp (1 # 2)]]> ∅)) [].

(** ** The cells of the traversal, apart from their opacity *)

(** The cells that one pass of the loop tests, in the order of the
    tests. *)
Definition tests (su : Setup) (w : Walk) : list Point :=
  let x := ax su in let y := ay su in let z := az su in
  if Qlt_bool 0 (exy w) then
    if Qlt_bool 0 (exz w) then
      [ (if Qlt_bool (exz w * getitem (d su) y) (exy w * getitem (d su) z)
         then beside su (P w) y else beside su (P w) z);
        corner su (P w) y z;
        advance_all su (P w) ]
    else [ beside su (P w) y; corner su (P w) x y ]
  else if Qlt_bool 0 (exz w) then [ beside su (P w) z; corner su (P w) x z ]
  else [ beside su (P w) x ].

(** The loop variables after a pass that does not return. *)
Definition next (su : Setup) (w : Walk) : Walk :=
  let x := ax su in let y := ay su in let z := az su in
  if Qlt_bool 0 (exy w) then
    if Qlt_bool 0 (exz w) then
      mkWalk (advance_all su (P w)) (exy w + d1xy su) (exz w + d1xz su)
    else
      mkWalk (advance su (advance su (P w) x) y)
             (exy w + d1xy su) (exz w + dxz su)
  else if Qlt_bool 0 (exz w) then
    mkWalk (advance su (advance su (P w) x) z)
           (exy w + dxy su) (exz w + d1xz su)
  else
    mkWalk (advance su (P w) x) (exy w + dxy su) (exz w + dxz su).

(** The cells tested by at most [n] passes of the loop. *)
Fixpoint trace (n : nat) (su : Setup) (w : Walk) : list Point :=
  if loop_test su w then
    match n with
    | O => []
    | S n' => tests su w ++ trace n' su (next su w)
    end
  else [].

(** All the cells that [occluded( p, cam )] can test: the voxel of the
    origin, then the cells of the loop. *)
Definition visited (sc : Scene) (p cam : Point) : list Point :=
  P (snd (setup sc p cam))
  :: trace (passes sc p cam) (fst (setup sc p cam)) (snd (setup sc p cam)).

(** ** The constructor of the network *)

Section NetworkInit.
Context {Pose : Type} {G : Geometry Pose} {M : MathLib}.

(** The loop [for camera in self: self._update_inscene( camera.name )]
    of [MultiCamera.__init__], over the names of the cameras. *)
Fixpoint update_all (net : MultiCamera Pose) (keys : list string)
  : res (MultiCamera Pose) :=
  match keys with
  | [] => Ok net
  | key :: rest =>
      let! net' := _update_inscene net key in
      update_all net' rest
  end.

(** [MultiCamera.__init__] of a subclass (the [NotImplementedError] of
    the abstract class does not arise): the indexed set of the given
    cameras, an empty model, no in-scene set, then one [_update_inscene]
    for each camera of the set.  [IndexedSet.__init__] is taken to add
    the cameras one by one, as [IndexedSet_add] does; the cameras are
    iterated in the order of the list. *)
Definition MultiCamera_init (sc : Scene) (cams : list (Camera Pose))
  : res (MultiCamera Pose) :=
  let net := fold_left IndexedSet_add cams (mkMultiCamera [] sc ∅ []) in
  update_all net (map name (cameras net)).

(** A sequence of [add] calls, stopped by the first that raises. *)
Definition add_all (net : MultiCamera Pose) (cams : list (Camera Pose))
  : res (MultiCamera Pose) :=
  fold_left (fun r item => let! n := r in add n item) cams (Ok net).
End NetworkInit.

(** ** Range camera *)

Section RangeCamera.
Context {M : MathLib}.

(** The function [cdval] that [RangeCamera._generate_cd] (laser.py)
    defines from the parameters [angle_max_ideal] and
    [angle_max_acceptable], here two arguments: a step at [aa] when the
    two angles are equal, otherwise a ramp from [aa] to [ai], clipped to
    [[0, 1]].  The closure [Cd] around it needs the angle between
    vectors of the geometry module and is not modelled. *)
Definition cdval (angle_max_ideal angle_max_acceptable sigma : Q) : res Q :=
  let aa := m_cos angle_max_acceptable in
  if Qeq_bool angle_max_ideal angle_max_acceptable then
    Ok (if Qlt_bool aa sigma then 1 else 0)
  else
    let ai := m_cos angle_max_ideal in
    let! q := py_div (sigma - aa) (ai - aa) in
    Ok (Qmin (Qmax q 0) 1).
End RangeCamera.

(** * The scene over the arithmetic of the machine *)

(** The functions of [Scene] once more, from the same source lines, with
    the arithmetic as a parameter: the operations on numbers are the
    fields of [Arith].  What is proved of these definitions holds for
    every arithmetic, rounded or not.  The instance [exact_arith]
    computes on the rationals; the instance [Binary64.arith] computes on
    the binary64 floats of the machine, as Python does. *)
Module Num.

(** The numbers of the program.  [f_div] and [f_mod] are the quotient
    and the remainder by a divisor that is not zero; [f_nan] and [f_inf]
    recognise the values on which [int( )] raises; [f_trunc a] is
    [int( a )] taken back to a float, as the product [int( a ) * pstep]
    does; [f_arange] is [numpy.arange]. *)
Class Arith (F : Type) : Type := {
  f_zero : F;
  f_two : F;
  f_pi : F;
  f_add : F -> F -> F;
  f_sub : F -> F -> F;
  f_mul : F -> F -> F;
  f_div : F -> F -> F;
  f_mod : F -> F -> F;
  f_abs : F -> F;
  f_eqb : F -> F -> bool;
  f_ltb : F -> F -> bool;
  f_nan : F -> bool;
  f_inf : F -> bool;
  f_trunc : F -> F;
  f_arange : F -> F -> F -> res (list F)
}.

Record Point (F : Type) : Type := mkPoint { px : F; py : F; pz : F }.
Arguments mkPoint {F} _ _ _.
Arguments px {F} _.
Arguments py {F} _.
Arguments pz {F} _.

Record DirectionalPoint (F : Type) : Type :=
  mkDP { pos : Point F; rho : F; eta : F }.
Arguments mkDP {F} _ _ _.
Arguments pos {F} _.
Arguments rho {F} _.
Arguments eta {F} _.

Record Scene (F : Type) : Type := mkScene {
  xr : F * F;
  yr : F * F;
  zr : F * F;
  pstep : F;
  dstep : F;
  opaque : list (Point F)
}.
Arguments mkScene {F} _ _ _ _ _ _.
Arguments xr {F} _.
Arguments yr {F} _.
Arguments zr {F} _.
Arguments pstep {F} _.
Arguments dstep {F} _.
Arguments opaque {F} _.

(** The values that [Scene.occluded] fixes before it tests the voxel of
    the origin. *)
Record Frame (F : Type) : Type := mkFrame {
  d : Point F;          (* d[ i ] = abs( p[ i ] - cam[ i ] ) *)
  u : Point F;          (* offset of the origin in its voxel *)
  s : Point F;          (* signed step per axis *)
  ax : axis;            (* driving axis x *)
  ay : axis;
  az : axis;
  P0 : Point F          (* the voxel of the origin *)
}.
Arguments mkFrame {F} _ _ _ _ _ _ _.
Arguments d {F} _.
Arguments u {F} _.
Arguments s {F} _.
Arguments ax {F} _.
Arguments ay {F} _.
Arguments az {F} _.
Arguments P0 {F} _.

(** The values fixed between that test and the loop. *)
Record Setup (F : Type) : Type := mkSetup {
  fr : Frame F;
  P2 : F;               (* last driving coordinate *)
  dxy : F;
  d1xy : F;
  dxz : F;
  d1xz : F
}.
Arguments mkSetup {F} _ _ _ _ _ _.
Arguments fr {F} _.
Arguments P2 {F} _.
Arguments dxy {F} _.
Arguments d1xy {F} _.
Arguments dxz {F} _.
Arguments d1xz {F} _.

(** The variables that the loop updates. *)
Record Walk (F : Type) : Type := mkWalk { P : Point F; exy : F; exz : F }.
Arguments mkWalk {F} _ _ _.
Arguments P {F} _.
Arguments exy {F} _.
Arguments exz {F} _.

Inductive outcome (F : Type) : Type :=
| Return (b : bool)
| Continue (w : Walk F).
Arguments Return {F} _.
Arguments Continue {F} _.

(** How the traversal stands after a number of passes: the loop has
    left, it is still running, or an exception was raised. *)
Inductive ending : Set :=
| Exits
| Running
| Fails (e : exn).

Section Scene.
Context {F : Type} {A : Arith F}.

(** Python truth value of a number: not equal to zero. *)
Definition truthy (a : F) : bool := negb (f_eqb a f_zero).

(** [a / b], raising on a zero divisor. *)
Definition py_div (a b : F) : res F :=
  if f_eqb b f_zero then Raise ZeroDivisionError else Ok (f_div a b).

(** [a % b], raising on a zero divisor. *)
Definition py_mod (a b : F) : res F :=
  if f_eqb b f_zero then Raise ZeroDivisionError else Ok (f_mod a b).

(** [int( a )]: a NaN raises [ValueError], an infinity
    [OverflowError]. *)
Definition py_int (a : F) : res F :=
  if f_nan a then Raise ValueError
  else if f_inf a then Raise OverflowError
  else Ok (f_trunc a).

(** [b and v or 0], the conditional idiom of the traversal. *)
Definition and_or (b : bool) (v : F) : F :=
  if b then (if truthy v then v else f_zero) else f_zero.

(** [p[ i ]] *)
Definition getitem (p : Point F) (i : axis) : F :=
  match i with A0 => px p | A1 => py p | A2 => pz p end.

(** [P[ i ] = v] on a 3-element list. *)
Definition setitem (p : Point F) (i : axis) (v : F) : Point F :=
  match i with
  | A0 => mkPoint v (py p) (pz p)
  | A1 => mkPoint (px p) v (pz p)
  | A2 => mkPoint (px p) (py p) v
  end.

(** Two points are the same element of a set when their coordinates
    compare equal. *)
Definition Point_eqb (p q : Point F) : bool :=
  f_eqb (px p) (px q) && f_eqb (py p) (py q) && f_eqb (pz p) (pz q).

(** [Scene.__init__]: the opaque set starts empty. *)
Definition Scene_init (x y z : F * F) (ps ds : F) : Scene F :=
  mkScene x y z ps ds [].

(** [q in self.opaque] *)
Definition is_opaque (sc : Scene F) (q : Point F) : bool :=
  existsb (Point_eqb q) (opaque sc).

(** [self.opaque.add( p )]: a set keeps one copy of an element. *)
Definition opaque_add (sc : Scene F) (p : Point F) : Scene F :=
  if is_opaque sc p then sc
  else mkScene (xr sc) (yr sc) (zr sc) (pstep sc) (dstep sc) (p :: opaque sc).

(** [Scene.make_opaque] *)
Definition make_opaque (sc : Scene F) (p : Point F) : res (Scene F) :=
  let! mx := py_mod (px p) (pstep sc) in
  if truthy mx then Raise ValueError else
  let! my := py_mod (py p) (pstep sc) in
  if truthy my then Raise ValueError else
  let! mz := py_mod (pz p) (pstep sc) in
  if truthy mz then Raise ValueError else
  Ok (opaque_add sc p).

(** [int( a / step ) * step], the lattice coordinate of the voxel of
    [a]: the quotient is rounded before [int( )] truncates it. *)
Definition snap (step a : F) : res F :=
  let! q := py_div a step in
  let! n := py_int q in
  Ok (f_mul n step).

(** [[ int( q[ i ] / pstep ) * pstep for i in range( 3 ) ]] *)
Definition voxel (step : F) (q : Point F) : res (Point F) :=
  let! x := snap step (px q) in
  let! y := snap step (py q) in
  let! z := snap step (pz q) in
  Ok (mkPoint x y z).

(** [s[ i ]]: [pstep * ( p[ i ] - cam[ i ] ) / d[ i ]], and [pstep] when
    the division raises. *)
Definition sign_step (step pi ci : F) : F :=
  match py_div (f_mul step (f_sub pi ci)) (f_abs (f_sub pi ci)) with
  | Ok v => v
  | Raise _ => step
  end.

(** The three-way choice of the driving axis. *)
Definition driving (d : Point F) : axis * axis * axis :=
  if f_ltb (py d) (px d) && f_ltb (pz d) (px d) then (A0, A1, A2)
  else if f_ltb (px d) (py d) && f_ltb (pz d) (py d) then (A1, A2, A0)
  else (A2, A0, A1).

(** The setup of [Scene.occluded] down to the voxel [P] of the origin.
    The list [u] and the list [P] take the same three products
    [int( cam[ i ] / pstep ) * pstep]. *)
Definition frame (step : F) (p cam : Point F) : res (Frame F) :=
  let d := mkPoint (f_abs (f_sub (px p) (px cam)))
                   (f_abs (f_sub (py p) (py cam)))
                   (f_abs (f_sub (pz p) (pz cam))) in
  let! v := voxel step cam in
  let u := mkPoint (f_sub (px cam) (px v)) (f_sub (py cam) (py v))
                   (f_sub (pz cam) (pz v)) in
  let s := mkPoint (sign_step step (px p) (px cam))
                   (sign_step step (py p) (py cam))
                   (sign_step step (pz p) (pz cam)) in
  let '(x, y, z) := driving d in
  Ok (mkFrame d u s x y z v).

(** The setup from [P2] to the start of the loop. *)
Definition setup (step : F) (f : Frame F) (p : Point F)
  : res (Setup F * Walk F) :=
  let x := ax f in let y := ay f in let z := az f in
  let! P2 := snap step (getitem p x) in
  let exy := f_add (f_mul (f_sub (getitem (u f) y) step) (getitem (d f) x))
                   (f_mul (f_sub step (getitem (u f) x)) (getitem (d f) y)) in
  let exz := f_add (f_mul (f_sub (getitem (u f) z) step) (getitem (d f) x))
                   (f_mul (f_sub step (getitem (u f) x)) (getitem (d f) z)) in
  let dxy := f_mul step (getitem (d f) y) in
  let d1xy := f_sub dxy (f_mul step (getitem (d f) x)) in
  let dxz := f_mul step (getitem (d f) z) in
  let d1xz := f_sub dxz (f_mul step (getitem (d f) x)) in
  Ok (mkSetup f P2 dxy d1xy dxz d1xz, mkWalk (P0 f) exy exz).

(** [Point( P[ i ] + ( a == i and s[ i ] or 0 ) )]: one step along [a]. *)
Definition beside (su : Setup F) (P : Point F) (a : axis) : Point F :=
  let s := s (fr su) in
  mkPoint (f_add (px P) (and_or (axis_eqb a A0) (px s)))
          (f_add (py P) (and_or (axis_eqb a A1) (py s)))
          (f_add (pz P) (and_or (axis_eqb a A2) (pz s))).

(** [Point( P[ i ] + ( a == i and s[ 0 ] or 0 ) + ( b == i and s[ 0 ] or 0 ) )]:
    the corner test; the source reads [s[ 0 ]] on every axis. *)
Definition corner (su : Setup F) (P : Point F) (a b : axis) : Point F :=
  let s := s (fr su) in
  mkPoint (f_add (f_add (px P) (and_or (axis_eqb a A0) (px s)))
                 (and_or (axis_eqb b A0) (px s)))
          (f_add (f_add (py P) (and_or (axis_eqb a A1) (px s)))
                 (and_or (axis_eqb b A1) (px s)))
          (f_add (f_add (pz P) (and_or (axis_eqb a A2) (px s)))
                 (and_or (axis_eqb b A2) (px s))).

(** [P = [ P[ i ] + s[ i ] for i in range( 3 ) ]] *)
Definition advance_all (su : Setup F) (P : Point F) : Point F :=
  let s := s (fr su) in
  mkPoint (f_add (px P) (px s)) (f_add (py P) (py s)) (f_add (pz P) (pz s)).

(** [P[ a ] += s[ a ]] *)
Definition advance (su : Setup F) (P : Point F) (a : axis) : Point F :=
  setitem P a (f_add (getitem P a) (getitem (s (fr su)) a)).

(** The cells that one pass of the loop tests when none is opaque, in
    the order of the tests. *)
Definition tests (su : Setup F) (w : Walk F) : list (Point F) :=
  let x := ax (fr su) in let y := ay (fr su) in let z := az (fr su) in
  let d := d (fr su) in
  if f_ltb f_zero (exy w) then
    if f_ltb f_zero (exz w) then
      [ (if f_ltb (f_mul (exz w) (getitem d y)) (f_mul (exy w) (getitem d z))
         then beside su (P w) y else beside su (P w) z);
        corner su (P w) y z;
        advance_all su (P w) ]
    else [ beside su (P w) y; corner su (P w) x y ]
  else if f_ltb f_zero (exz w) then [ beside su (P w) z; corner su (P w) x z ]
  else [ beside su (P w) x ].

(** The loop variables after a pass that does not return. *)
Definition next (su : Setup F) (w : Walk F) : Walk F :=
  let x := ax (fr su) in let y := ay (fr su) in let z := az (fr su) in
  if f_ltb f_zero (exy w) then
    if f_ltb f_zero (exz w) then
      mkWalk (advance_all su (P w))
             (f_add (exy w) (d1xy su)) (f_add (exz w) (d1xz su))
    else
      mkWalk (advance su (advance su (P w) x) y)
             (f_add (exy w) (d1xy su)) (f_add (exz w) (dxz su))
  else if f_ltb f_zero (exz w) then
    mkWalk (advance su (advance su (P w) x) z)
           (f_add (exy w) (dxy su)) (f_add (exz w) (d1xz su))
  else
    mkWalk (advance su (P w) x)
           (f_add (exy w) (dxy su)) (f_add (exz w) (dxz su)).

(** One pass through the body of the [while] loop. *)
Definition body (sc : Scene F) (su : Setup F) (w : Walk F) : outcome F :=
  let x := ax (fr su) in let y := ay (fr su) in let z := az (fr su) in
  let d := d (fr su) in
  if f_ltb f_zero (exy w) then
    if f_ltb f_zero (exz w) then
      if (if f_ltb (f_mul (exz w) (getitem d y)) (f_mul (exy w) (getitem d z))
          then is_opaque sc (beside su (P w) y)
          else is_opaque sc (beside su (P w) z))
      then Return true
      else if is_opaque sc (corner su (P w) y z) then Return true
      else
        let P' := advance_all su (P w) in
        if is_opaque sc P' then Return true
        else Continue (mkWalk P' (f_add (exy w) (d1xy su))
                                 (f_add (exz w) (d1xz su)))
    else
      if is_opaque sc (beside su (P w) y) then Return true
      else if is_opaque sc (corner su (P w) x y) then Return true
      else Continue (mkWalk (advance su (advance su (P w) x) y)
                            (f_add (exy w) (d1xy su))
                            (f_add (exz w) (dxz su)))
  else if f_ltb f_zero (exz w) then
    if is_opaque sc (beside su (P w) z) then Return true
    else if is_opaque sc (corner su (P w) x z) then Return true
    else Continue (mkWalk (advance su (advance su (P w) x) z)
                          (f_add (exy w) (dxy su))
                          (f_add (exz w) (d1xz su)))
  else
    if is_opaque sc (beside su (P w) x) then Return true
    else Continue (mkWalk (advance su (P w) x)
                          (f_add (exy w) (dxy su))
                          (f_add (exz w) (dxz su))).

(** [s[ x ] * P[ x ] < s[ x ] * P2] *)
Definition loop_test (su : Setup F) (w : Walk F) : bool :=
  let x := ax (fr su) in
  f_ltb (f_mul (getitem (s (fr su)) x) (getitem (P w) x))
        (f_mul (getitem (s (fr su)) x) (P2 su)).

(** The [while] loop, with a bound on the number of passes; [None] when
    the bound is used up before the loop has left. *)
Fixpoint traverse (fuel : nat) (sc : Scene F) (su : Setup F) (w : Walk F)
  : option bool :=
  if loop_test su w then
    match fuel with
    | O => None
    | S n =>
        match body sc su w with
        | Return b => Some b
        | Continue w' => traverse n sc su w'
        end
    end
  else Some false.

(** [Scene.occluded( p, cam )] with at most [fuel] passes of its loop:
    [None] when the loop is still running after them. *)
Definition occluded_fuel (fuel : nat) (sc : Scene F) (p cam : Point F)
  : option (res bool) :=
  match frame (pstep sc) p cam with
  | Raise e => Some (Raise e)
  | Ok f =>
      if is_opaque sc (P0 f) then Some (Ok true)
      else
        match setup (pstep sc) f p with
        | Raise e => Some (Raise e)
        | Ok (su, w) => option_map Ok (traverse fuel sc su w)
        end
  end.

(** The cells tested by at most [n] passes of the loop when none is
    opaque, and how the loop stands after them. *)
Fixpoint trace (n : nat) (su : Setup F) (w : Walk F)
  : list (Point F) * ending :=
  if loop_test su w then
    match n with
    | O => ([], Running)
    | S n' =>
        let '(l, e) := trace n' su (next su w) in
        (tests su w ++ l, e)
    end
  else ([], Exits).

(** All the cells that [occluded( p, cam )] can test in [n] passes: the
    voxel of the origin, then the cells of the loop.  The scene enters
    through its grid step only. *)
Definition path (n : nat) (step : F) (p cam : Point F)
  : list (Point F) * ending :=
  match frame step p cam with
  | Raise e => ([], Fails e)
  | Ok f =>
      match setup step f p with
      | Raise e => ([P0 f], Fails e)
      | Ok (su, w) =>
          let '(l, e) := trace n su w in
          (P0 f :: l, e)
      end
  end.

(** [rho in [ 0, pi ]] *)
Definition is_pole (r : F) : bool := f_eqb r f_zero || f_eqb r f_pi.

(** The two inner loops of [generate_points]: the directions sampled at
    one grid cell. *)
Definition directions_at (sc : Scene F) (c : Point F)
  : res (list (DirectionalPoint F)) :=
  let! rhos := f_arange f_zero (f_add f_pi (dstep sc)) (dstep sc) in
  for_yield rhos (fun r =>
    if is_pole r then Ok [mkDP c r f_zero]
    else
      let! etas := f_arange f_zero (f_mul f_two f_pi) (dstep sc) in
      for_yield etas (fun e => Ok [mkDP c r e])).

(** [Scene.generate_points], as the list of all the values of the
    generator; an exception of [arange] ends it. *)
Definition generate_points (sc : Scene F) : res (list (DirectionalPoint F)) :=
  let! xs := f_arange (fst (xr sc)) (snd (xr sc)) (pstep sc) in
  for_yield xs (fun x =>
    let! ys := f_arange (fst (yr sc)) (snd (yr sc)) (pstep sc) in
    for_yield ys (fun y =>
      let! zs := f_arange (fst (zr sc)) (snd (zr sc)) (pstep sc) in
      for_yield zs (fun z =>
        if is_opaque sc (mkPoint x y z) then Ok []
        else directions_at sc (mkPoint x y z)))).


End Scene.
End Num.

(** The exact arithmetic of the rationals: nothing is rounded, no value
    is a NaN or an infinity. *)
Definition exact_arith : Num.Arith Q := {|
  Num.f_zero := 0;
  Num.f_two := 2;
  Num.f_pi := pi;
  Num.f_add := Qplus;
  Num.f_sub := Qminus;
  Num.f_mul := Qmult;
  Num.f_div := Qdiv;
  Num.f_mod := fun a b => a - inject_Z (Qfloor (a / b)) * b;
  Num.f_abs := Qabs;
  Num.f_eqb := Qeq_bool;
  Num.f_ltb := Qlt_bool;
  Num.f_nan := fun _ => false;
  Num.f_inf := fun _ => false;
  Num.f_trunc := fun a => inject_Z (py_int a);
  Num.f_arange := arange
|}.

(** The binary64 floats of the machine, with the rounding to nearest
    that Python's float operations have. *)
Module Binary64.

(** [math.pi] *)
Definition pi : float := 0x1.921fb54442d18p+1%float.

(** [float( n )] for a natural number below [2 ^ 53]. *)
Definition of_nat (n : nat) : float :=
  PrimFloat.of_uint63 (Uint63.of_Z (Z.of_nat n)).

(** [int( x )] of a finite [x], taken back to a float: the digits
    below the unit are dropped.  A float whose exponent is not negative
    is an integer already. *)
Definition trunc (x : float) : float :=
  match Prim2SF x with
  | S754_finite sg m e =>
      if (0 <=? e)%Z then x
      else
        let n := Z.shiftr (Zpos m) (- e) in
        if (n =? 0)%Z then PrimFloat.zero
        else
          let t := PrimFloat.of_uint63 (Uint63.of_Z n) in
          if sg then PrimFloat.opp t else t
  | S754_zero _ => PrimFloat.zero
  | _ => x
  end.

(** [ceil( x )] as an integer, for a finite [x]; 0 stands for every
    value that is not positive. *)
Definition ceiling (x : float) : Z :=
  match Prim2SF x with
  | S754_finite false m e =>
      if (0 <=? e)%Z then Z.shiftl (Zpos m) e
      else Z.shiftr (Zpos m + (Z.shiftl 1 (- e) - 1)) (- e)
  | _ => 0%Z
  end.

(** The float of the integer [m] scaled by [2 ^ e]; used where the
    value is a float, so that nothing is rounded. *)
Definition of_scaled (m e : Z) : float :=
  SF2Prim (binary_normalize prec emax m e false).

(** C's [fmod( x, y )] for a divisor that is not zero: the remainder of
    the division truncated toward zero, computed without rounding; it
    has the sign of [x]. *)
Definition fmod (x y : float) : float :=
  match Prim2SF x, Prim2SF y with
  | S754_finite sx mx ex, S754_finite _ my ey =>
      let e0 := Z.min ex ey in
      let r := Z.rem (Z.shiftl (Zpos mx) (ex - e0))
                     (Z.shiftl (Zpos my) (ey - e0)) in
      if (r =? 0)%Z then (if sx then PrimFloat.neg_zero else PrimFloat.zero)
      else if sx then PrimFloat.opp (of_scaled r e0) else of_scaled r e0
  | S754_zero _, S754_finite _ _ _ => x
  | S754_zero _, S754_infinity _ => x
  | S754_finite _ _ _, S754_infinity _ => x
  | _, _ => PrimFloat.nan
  end.

(** Python's [x % y] on floats, for a divisor that is not zero: [fmod],
    moved by [y] when its sign differs from the sign of [y]; a zero
    remainder takes the sign of [y]. *)
Definition py_rem (x y : float) : float :=
  let m := fmod x y in
  if PrimFloat.eqb m PrimFloat.zero then
    (if PrimFloat.ltb y PrimFloat.zero then PrimFloat.neg_zero
     else PrimFloat.zero)
  else if Bool.eqb (PrimFloat.ltb y PrimFloat.zero)
                   (PrimFloat.ltb m PrimFloat.zero)
       then m else PrimFloat.add m y.

(** Modelled from the spec: [numpy.arange] is not under src/.  For
    floats its length is [ceil( ( stop - start ) / step )], computed in
    floats; its values are [start], [start + step] and then
    [start + i * delta] with [delta = ( start + step ) - start].  A zero
    step raises in the division; a length that is not a number raises
    [ValueError]. *)
Definition arange (start stop step : float) : res (list float) :=
  if PrimFloat.eqb step PrimFloat.zero then Raise ZeroDivisionError
  else
    let q := PrimFloat.div (PrimFloat.sub stop start) step in
    if PrimFloat.is_nan q || PrimFloat.eqb q PrimFloat.infinity
    then Raise ValueError
    else
      let len := Z.to_nat (ceiling q) in
      let next := PrimFloat.add start step in
      let delta := PrimFloat.sub next start in
      Ok (firstn len
            (start :: next
             :: map (fun i => PrimFloat.add start (PrimFloat.mul (of_nat i) delta))
                    (seq 2 (len - 2)))).

Definition arith : Num.Arith float := {|
  Num.f_zero := PrimFloat.zero;
  Num.f_two := PrimFloat.two;
  Num.f_pi := pi;
  Num.f_add := PrimFloat.add;
  Num.f_sub := PrimFloat.sub;
  Num.f_mul := PrimFloat.mul;
  Num.f_div := PrimFloat.div;
  Num.f_mod := py_rem;
  Num.f_abs := PrimFloat.abs;
  Num.f_eqb := PrimFloat.eqb;
  Num.f_ltb := PrimFloat.ltb;
  Num.f_nan := PrimFloat.is_nan;
  Num.f_inf := PrimFloat.is_infinity;
  Num.f_trunc := trunc;
  Num.f_arange := arange
|}.
End Binary64.

(** ** The exact model inside the parametric one *)

(** The points, scenes and loop variables of the exact model, as values
    of the parametric model at [exact_arith]. *)
Definition num_point (p : Point) : Num.Point Q :=
  Num.mkPoint (px p) (py p) (pz p).

Definition num_dp (dp : DirectionalPoint) : Num.DirectionalPoint Q :=
  Num.mkDP (num_point (pos dp)) (rho dp) (eta dp).

Definition num_scene (sc : Scene) : Num.Scene Q :=
  Num.mkScene (xr sc) (yr sc) (zr sc) (pstep sc) (dstep sc)
              (map num_point (opaque sc)).

Definition num_walk (w : Walk) : Num.Walk Q :=
  Num.mkWalk (num_point (P w)) (exy w) (exz w).

Definition num_setup (sc : Scene) (cam : Point) (su : Setup) : Num.Setup Q :=
  let st := pstep sc in
  Num.mkSetup
    (Num.mkFrame (num_point (d su))
                 (Num.mkPoint (px cam - snap st (px cam))
                              (py cam - snap st (py cam))
                              (pz cam - snap st (pz cam)))
                 (num_point (s su)) (ax su) (ay su) (az su)
                 (num_point (voxel st cam)))
    (P2 su) (dxy su) (d1xy su) (dxz su) (d1xz su).

(** A run of values mapped, an exception kept. *)
Definition map_res {A B : Type} (h : A -> B) (r : res (list A))
  : res (list B) :=
  match r with
  | Ok l => Ok (map h l)
  | Raise e => Raise e
  end.

(** ** Scenes in binary64 for the examples *)

(** One cell, grid step 1.0, angle step 1.0, nothing opaque. *)
Definition ex_fscene : Num.Scene float :=
  Num.Scene_init (0, 1)%float (0, 1)%float (0, 1)%float 1%float 1%float.

(** [2 ^ 53], from where on adding 1.0 to a float changes nothing. *)
Definition two53 : float := 9007199254740992%float.


(** Grid step 0.1, rounded, and nothing opaque. *)
Definition ex_fscene_tenth : Num.Scene float :=
  Num.Scene_init (0, 1)%float (0, 1)%float (0, 1)%float (1 / 10)%float
                 1%float.

(** * Properties *)

(** ** Booleans of the rational tests *)

Lemma Qlt_bool_iff (a b : Q) : Qlt_bool a b = true <-> a < b.
Proof.
  unfold Qlt_bool. rewrite negb_true_iff.
  destruct (Qle_bool b a) eqn:E.
  - apply Qle_bool_iff in E. split; [discriminate | intros H; lra].
  - split; [intros _ | reflexivity].
    apply Qnot_le_lt. intros H. apply Qle_bool_iff in H. congruence.
Qed.

Lemma Qlt_bool_false (a b : Q) : Qlt_bool a b = false <-> b <= a.
Proof.
  unfold Qlt_bool. rewrite negb_false_iff. apply Qle_bool_iff.
Qed.

Lemma truthy_false (a : Q) : truthy a = false <-> a == 0.
Proof.
  unfold truthy. rewrite negb_false_iff. apply Qeq_bool_iff.
Qed.

Lemma truthy_true (a : Q) : truthy a = true <-> ~ a == 0.
Proof.
  unfold truthy. rewrite negb_true_iff. split.
  - intros H E. apply Qeq_bool_iff in E. congruence.
  - intros H. destruct (Qeq_bool a 0) eqn:E; [|reflexivity].
    apply Qeq_bool_iff in E. contradiction.
Qed.

Lemma Qeq_bool_false (a b : Q) : ~ a == b -> Qeq_bool a b = false.
Proof.
  intros H. destruct (Qeq_bool a b) eqn:E; [|reflexivity].
  apply Qeq_bool_iff in E. contradiction.
Qed.

Lemma Point_eqb_refl (p : Point) : Point_eqb p p = true.
Proof.
  unfold Point_eqb. rewrite !(proj2 (Qeq_bool_iff _ _)); reflexivity.
Qed.

(** ** make_opaque *)

(** The remainder of [a % step] is zero exactly for the multiples of the
    step. *)
Lemma py_mod_multiple (step a : Q) :
  ~ step == 0 ->
  exists m, py_mod a step = Ok m /\ (m == 0 <-> multiple_of step a).
Proof.
  intros Hs. unfold py_mod. rewrite (Qeq_bool_false _ _ Hs).
  eexists; split; [reflexivity|]. split.
  - intros H. exists (Qfloor (a / step)). lra.
  - intros [k Hk].
    assert (E : a / step == inject_Z k)
      by (rewrite Hk; apply Qdiv_mult_l; exact Hs).
    rewrite (Qfloor_comp _ _ E), Qfloor_Z. lra.
Qed.

Lemma is_opaque_add (sc : Scene) (p : Point) :
  is_opaque (opaque_add sc p) p = true.
Proof.
  unfold opaque_add. destruct (is_opaque sc p) eqn:E; [exact E|].
  unfold is_opaque; simpl. rewrite Point_eqb_refl. reflexivity.
Qed.

Lemma make_opaque_aligned (sc : Scene) (p : Point) :
  ~ pstep sc == 0 -> on_lattice (pstep sc) p ->
  make_opaque sc p = Ok (opaque_add sc p).
Proof.
  intros Hs (Hx & Hy & Hz). unfold make_opaque.
  destruct (py_mod_multiple _ (px p) Hs) as (mx & -> & Ex).
  destruct (py_mod_multiple _ (py p) Hs) as (my & -> & Ey).
  destruct (py_mod_multiple _ (pz p) Hs) as (mz & -> & Ez).
  simpl.
  rewrite (proj2 (truthy_false mx) (proj2 Ex Hx)).
  rewrite (proj2 (truthy_false my) (proj2 Ey Hy)).
  rewrite (proj2 (truthy_false mz) (proj2 Ez Hz)).
  reflexivity.
Qed.

Lemma make_opaque_inv (sc sc' : Scene) (p : Point) :
  make_opaque sc p = Ok sc' ->
  sc' = opaque_add sc p /\ on_lattice (pstep sc) p.
Proof.
  unfold make_opaque, on_lattice. intros H.
  destruct (Qeq_bool (pstep sc) 0) eqn:E0.
  { unfold py_mod in H. rewrite E0 in H. discriminate. }
  assert (Hs : ~ pstep sc == 0)
    by (intros E; apply Qeq_bool_iff in E; congruence).
  destruct (py_mod_multiple _ (px p) Hs) as (mx & Mx & Ex).
  destruct (py_mod_multiple _ (py p) Hs) as (my & My & Ey).
  destruct (py_mod_multiple _ (pz p) Hs) as (mz & Mz & Ez).
  rewrite Mx, My, Mz in H. simpl in H.
  destruct (truthy mx) eqn:Tx; [discriminate|].
  destruct (truthy my) eqn:Ty; [discriminate|].
  destruct (truthy mz) eqn:Tz; [discriminate|].
  apply truthy_false in Tx, Ty, Tz.
  split; [congruence|]. tauto.
Qed.

Lemma make_opaque_off (sc : Scene) (p : Point) :
  ~ pstep sc == 0 -> ~ on_lattice (pstep sc) p ->
  make_opaque sc p = Raise ValueError.
Proof.
  intros Hs Hn. unfold make_opaque.
  destruct (py_mod_multiple _ (px p) Hs) as (mx & -> & Ex).
  destruct (py_mod_multiple _ (py p) Hs) as (my & -> & Ey).
  destruct (py_mod_multiple _ (pz p) Hs) as (mz & -> & Ez).
  simpl.
  destruct (truthy mx) eqn:Tx; [reflexivity|].
  destruct (truthy my) eqn:Ty; [reflexivity|].
  destruct (truthy mz) eqn:Tz; [reflexivity|].
  apply truthy_false in Tx, Ty, Tz.
  exfalso. apply Hn. unfold on_lattice. tauto.
Qed.

Lemma pstep_opaque_add (sc : Scene) (p : Point) :
  pstep (opaque_add sc p) = pstep sc.
Proof. unfold opaque_add. destruct (is_opaque sc p); reflexivity. Qed.

Lemma reachable_on_lattice (sc : Scene) :
  reachable sc -> Forall (on_lattice (pstep sc)) (opaque sc).
Proof.
  induction 1 as [x y z ps ds | sc p sc' Hr IH Hm].
  - constructor.
  - apply make_opaque_inv in Hm as [-> Hp].
    rewrite pstep_opaque_add. unfold opaque_add.
    destruct (is_opaque sc p); [exact IH|]. simpl.
    constructor; assumption.
Qed.

(** C7: with a grid step [pstep <> 0], [make_opaque] raises
    [ValueError] (no scene is produced, the opaque set stays as it was)
    for every point with a coordinate that is not an integer multiple of
    [pstep]; it succeeds for every point on the lattice and the point is
    then in the opaque set; and in every scene built by the constructor
    and successful [make_opaque] calls all opaque cells are on the
    lattice. *)
Theorem make_opaque_lattice (sc : Scene) (p : Point) :
  ~ pstep sc == 0 ->
  (~ on_lattice (pstep sc) p -> make_opaque sc p = Raise ValueError)
  /\ (on_lattice (pstep sc) p ->
      make_opaque sc p = Ok (opaque_add sc p)
      /\ is_opaque (opaque_add sc p) p = true)
  /\ (reachable sc -> Forall (on_lattice (pstep sc)) (opaque sc)).
Proof.
  intros Hs. split; [|split].
  - apply make_opaque_off; assumption.
  - intros Hp. split; [apply make_opaque_aligned; assumption|].
    apply is_opaque_add.
  - apply reachable_on_lattice.
Qed.

(** ** occluded: the origin voxel *)




(** ** occluded: termination *)

Lemma driving_distinct (dd : Point) (x y z : axis) :
  driving dd = (x, y, z) -> x <> y /\ x <> z.
Proof.
  unfold driving. intros H.
  destruct (_ && _) in H; [inversion H; subst; split; discriminate|].
  destruct (_ && _) in H; inversion H; subst; split; discriminate.
Qed.

Lemma setup_axes (sc : Scene) (p cam : Point) :
  ax (fst (setup sc p cam)) <> ay (fst (setup sc p cam))
  /\ ax (fst (setup sc p cam)) <> az (fst (setup sc p cam)).
Proof.
  unfold setup. destruct (driving _) as [[x y] z] eqn:E. simpl.
  exact (driving_distinct _ _ _ _ E).
Qed.

(** Every pass that does not return moves the driving coordinate by the
    signed step. *)
Lemma body_advance (sc : Scene) (su : Setup) (w w' : Walk) :
  ax su <> ay su -> ax su <> az su ->
  body sc su w = Continue w' ->
  getitem (P w') (ax su) = getitem (P w) (ax su) + getitem (s su) (ax su).
Proof.
  intros Hy Hz. unfold body.
  repeat match goal with
         | |- context [if ?b then _ else _] => destruct b
         end; intros H; inversion H; subst; clear H; simpl;
    destruct (ax su), (ay su), (az su), (P w); simpl; congruence.
Qed.

(** The signed step is the grid step up to its sign. *)
Lemma sign_step_cases (st a b : Q) :
  sign_step st a b == st \/ sign_step st a b == - st.
Proof.
  unfold sign_step, py_div.
  destruct (Qeq_bool (Qabs (a - b)) 0) eqn:E; [left; reflexivity|].
  assert (Hn : ~ Qabs (a - b) == 0)
    by (intros H; apply Qeq_bool_iff in H; congruence).
  destruct (Qlt_le_dec (a - b) 0) as [Hlt | Hge].
  - right. rewrite (Qabs_neg (a - b)) in * by lra. field. lra.
  - left. rewrite (Qabs_pos (a - b)) in * by lra. field. lra.
Qed.

Lemma sign_step_square (st a b : Q) :
  sign_step st a b * sign_step st a b == st * st.
Proof.
  destruct (sign_step_cases st a b) as [-> | ->]; ring.
Qed.

Lemma traverse_exit (sc : Scene) (su : Setup) (w : Walk) (n : nat) :
  loop_test su w = false -> traverse n sc su w = Some false.
Proof. intros H. destruct n; simpl; rewrite H; reflexivity. Qed.

(** The loop leaves within [fuel] passes when the distance left along
    the driving axis is at most [fuel] squared steps. *)
Lemma traverse_total (sc : Scene) (su : Setup) :
  ax su <> ay su -> ax su <> az su ->
  let sx := getitem (s su) (ax su) in
  0 < sx * sx ->
  forall (fuel : nat) (w : Walk),
    sx * P2 su - sx * getitem (P w) (ax su)
      <= inject_Z (Z.of_nat fuel) * (sx * sx) ->
    exists b, forall n, (fuel <= n)%nat -> traverse n sc su w = Some b.
Proof.
  intros Hy Hz sx Hsx fuel. induction fuel as [|k IH]; intros w Hgap.
  - exists false. intros n _. apply traverse_exit.
    apply Qlt_bool_false. fold sx.
    change (inject_Z (Z.of_nat 0)) with 0 in Hgap. lra.
  - destruct (loop_test su w) eqn:Ht.
    2:{ exists false. intros n _. apply traverse_exit, Ht. }
    destruct (body sc su w) as [b | w'] eqn:Hb.
    + exists b. intros n Hn. destruct n as [|n]; [lia|].
      simpl. rewrite Ht, Hb. reflexivity.
    + pose proof (body_advance sc su w w' Hy Hz Hb) as Hadv. fold sx in Hadv.
      destruct (IH w') as [b Hb'].
      { rewrite Hadv. rewrite Nat2Z.inj_succ, <- Z.add_1_r, inject_Z_plus in Hgap.
        change (inject_Z 1) with 1 in Hgap. lra. }
      exists b. intros n Hn. destruct n as [|n]; [lia|].
      simpl. rewrite Ht, Hb. apply Hb'. lia.
Qed.

Lemma setup_driving (sc : Scene) (p cam : Point) :
  let su := fst (setup sc p cam) in
  let w := snd (setup sc p cam) in
  getitem (s su) (ax su)
    = sign_step (pstep sc) (getitem p (ax su)) (getitem cam (ax su))
  /\ P2 su = snap (pstep sc) (getitem p (ax su))
  /\ getitem (P w) (ax su) = snap (pstep sc) (getitem cam (ax su))
  /\ passes sc p cam
     = Z.to_nat (Z.abs (py_int (getitem p (ax su) / pstep sc)
                        - py_int (getitem cam (ax su) / pstep sc))).
Proof.
  unfold passes, setup. destruct (driving _) as [[x y] z]. simpl.
  destruct x; repeat split; reflexivity.
Qed.

(** At the start of the loop the distance left is within [passes]. *)
Lemma setup_gap (sc : Scene) (p cam : Point) :
  let su := fst (setup sc p cam) in
  let w := snd (setup sc p cam) in
  let sx := getitem (s su) (ax su) in
  sx * P2 su - sx * getitem (P w) (ax su)
    <= inject_Z (Z.of_nat (passes sc p cam)) * (sx * sx).
Proof.
  intros su w sx.
  destruct (setup_driving sc p cam) as (Es & E2 & EP & Ep).
  fold su in Es, E2, EP, Ep. fold w in EP. fold sx in Es.
  rewrite E2, EP, Ep. unfold snap.
  set (n2 := py_int (getitem p (ax su) / pstep sc)).
  set (n1 := py_int (getitem cam (ax su) / pstep sc)).
  rewrite Z2Nat.id by apply Z.abs_nonneg.
  assert (Ha : inject_Z n2 - inject_Z n1 <= inject_Z (Z.abs (n2 - n1))).
  { unfold Qminus. rewrite <- inject_Z_opp, <- inject_Z_plus, <- Zle_Qle. lia. }
  assert (Hb : inject_Z n1 - inject_Z n2 <= inject_Z (Z.abs (n2 - n1))).
  { unfold Qminus. rewrite <- inject_Z_opp, <- inject_Z_plus, <- Zle_Qle. lia. }
  assert (Hq : 0 <= pstep sc * pstep sc) by nra.
  destruct (sign_step_cases (pstep sc) (getitem p (ax su)) (getitem cam (ax su)))
    as [E | E]; rewrite <- Es in E; rewrite E; nra.
Qed.

Lemma occluded_fuel_total (sc : Scene) (p cam : Point) :
  exists r, forall fuel, (passes sc p cam <= fuel)%nat ->
    occluded_fuel fuel sc p cam = Some r.
Proof.
  unfold occluded_fuel. destruct (Qeq_bool (pstep sc) 0) eqn:E0.
  { eexists. reflexivity. }
  assert (Hs : ~ pstep sc == 0)
    by (intros E; apply Qeq_bool_iff in E; congruence).
  pose proof (setup_axes sc p cam) as [Hy Hz].
  pose proof (setup_gap sc p cam) as Hgap.
  destruct (setup_driving sc p cam) as (Es & _).
  destruct (setup sc p cam) as [su w]. simpl in *.
  destruct (is_opaque sc (P w)); [eexists; reflexivity|].
  destruct (traverse_total sc su Hy Hz) with (fuel := passes sc p cam) (w := w)
    as [b Hb].
  - rewrite Es, sign_step_square. nra.
  - exact Hgap.
  - exists (Ok b). intros fuel Hf. rewrite (Hb fuel Hf). reflexivity.
Qed.

(** The bound of [occluded] is never used up: the function is the loop
    run to its end. *)
Lemma occluded_fuel_passes (sc : Scene) (p cam : Point) (fuel : nat) :
  (passes sc p cam <= fuel)%nat ->
  occluded_fuel fuel sc p cam = Some (occluded sc p cam).
Proof.
  intros Hf. destruct (occluded_fuel_total sc p cam) as [r Hr].
  unfold occluded. rewrite (Hr fuel Hf), (Hr _ (Nat.le_refl _)). reflexivity.
Qed.

Lemma occluded_Ok (sc : Scene) (p cam : Point) :
  ~ pstep sc == 0 -> exists b, occluded sc p cam = Ok b.
Proof.
  intros Hs. pose proof (occluded_fuel_passes sc p cam _ (Nat.le_refl _)) as H.
  unfold occluded_fuel in H. rewrite (Qeq_bool_false _ _ Hs) in H.
  destruct (setup sc p cam) as [su w].
  destruct (is_opaque sc (P w)).
  - exists true. congruence.
  - destruct (traverse _ sc su w) as [b|]; simpl in H; [|discriminate].
    exists b. congruence.
Qed.

(** In exact arithmetic, with [pstep > 0], [occluded] terminates on
    every input.  Each pass of the loop that does not return is entered
    with [s[x] * P[x] < s[x] * P2], moves [P[x]] by [s[x]] and so raises
    [s[x] * P[x]] by [pstep * pstep]; and a bound on the passes exists,
    the voxel distance [passes] between the ends along the driving axis,
    within which the loop has left and the function has returned a
    Boolean.  The floats of the machine round the sum [P[x] + s[x]]:
    see [occluded_never_exits]. *)
Theorem occluded_terminates (sc : Scene) (p cam : Point) :
  0 < pstep sc ->
  let su := fst (setup sc p cam) in
  let sx := getitem (s su) (ax su) in
  (forall w w' : Walk,
      loop_test su w = true -> body sc su w = Continue w' ->
      sx * getitem (P w) (ax su) < sx * P2 su
      /\ getitem (P w') (ax su) = getitem (P w) (ax su) + sx
      /\ sx * getitem (P w') (ax su)
         == sx * getitem (P w) (ax su) + pstep sc * pstep sc)
  /\ exists b : bool,
      occluded sc p cam = Ok b
      /\ forall fuel, (passes sc p cam <= fuel)%nat ->
           occluded_fuel fuel sc p cam = Some (Ok b).
Proof.
  intros Hs su sx. split.
  - intros w w' Ht Hb.
    destruct (setup_axes sc p cam) as [Hy Hz]. fold su in Hy, Hz.
    pose proof (body_advance sc su w w' Hy Hz Hb) as Hadv. fold sx in Hadv.
    split; [apply Qlt_bool_iff; exact Ht|]. split; [exact Hadv|].
    rewrite Hadv.
    destruct (setup_driving sc p cam) as (Es & _). fold su in Es. fold sx in Es.
    pose proof (sign_step_square (pstep sc) (getitem p (ax su))
                  (getitem cam (ax su))) as Hsq.
    rewrite <- Es in Hsq. lra.
  - destruct (occluded_Ok sc p cam) as [b Hb]; [lra|].
    exists b. split; [exact Hb|]. intros fuel Hf.
    rewrite occluded_fuel_passes by exact Hf. rewrite Hb. reflexivity.
Qed.

(** ** occluded: the traversal against the segment *)

Lemma py_int_le (q : Q) : 0 <= q -> inject_Z (py_int q) <= q.
Proof.
  intros Hq. unfold py_int.
  assert (Hn : (0 <= Qnum q)%Z).
  { unfold Qle in Hq. simpl in Hq. lia. }
  rewrite Z.quot_div_nonneg by lia.
  pose proof (Qfloor_le q) as H. destruct q as [n dn]. exact H.
Qed.

(** C1 (the code at two failing inputs), grid step 1.

    First: origin [(0,0,0)], target [(2,2,0)].  The cell [(1,1,0)] is on
    the lattice, holds the midpoint of the segment, and is made opaque by
    [make_opaque]; the two ends are in cells that are not opaque.  The
    deltas along the first two axes tie, the driving axis falls to the
    third one, whose delta is 0, the loop is not entered and [occluded]
    returns false.

    Second: origin [(0,3,0)], target [(3,1,0)].  The only opaque cell is
    [(2,4,0)]; no point of the segment is in it (the segment stays at
    [y <= 3]).  The corner test adds [s[ 0 ]] on the second axis, tests
    that cell, and [occluded] returns true. *)
Theorem occluded_against_segment :
  (let sc := Scene_init (0, 3) (0, 3) (0, 1) 1 1 in
   let cam := mkPoint 0 0 0 in
   let p := mkPoint 2 2 0 in
   let cell := mkPoint 1 1 0 in
   exists sc',
     make_opaque sc cell = Ok sc'
     /\ opaque sc' = [cell]
     /\ Point_eqb (voxel (pstep sc') (segment_point cam p (1 # 2))) cell = true
     /\ is_opaque sc' (voxel (pstep sc') cam) = false
     /\ is_opaque sc' (voxel (pstep sc') p) = false
     /\ driving (d (fst (setup sc' p cam))) = (A2, A0, A1)
     /\ occluded sc' p cam = Ok false)
  /\
  (let sc := Scene_init (0, 4) (0, 5) (0, 1) 1 1 in
   let cam := mkPoint 0 3 0 in
   let p := mkPoint 3 1 0 in
   let cell := mkPoint 2 4 0 in
   exists sc',
     make_opaque sc cell = Ok sc'
     /\ opaque sc' = [cell]
     /\ (forall t, 0 <= t <= 1 ->
          Point_eqb (voxel (pstep sc') (segment_point cam p t)) cell = false)
     /\ occluded sc' p cam = Ok true).
Proof.
  split.
  - eexists. split; [vm_compute; reflexivity|].
    repeat split; vm_compute; reflexivity.
  - eexists. split; [vm_compute; reflexivity|].
    split; [reflexivity|]. split; [|vm_compute; reflexivity].
    intros t Ht. unfold Point_eqb.
    apply andb_false_iff. left. apply andb_false_iff. right.
    apply Qeq_bool_false. cbn [voxel segment_point py pstep opaque_add].
    unfold snap.
    set (y := 3 + t * (1 - 3)).
    assert (Hy : 0 <= y / 1 <= 3).
    { unfold y. split.
      - apply Qle_shift_div_l; lra.
      - apply Qle_shift_div_r; lra. }
    pose proof (py_int_le (y / 1) (proj1 Hy)) as Hle.
    intros E. simpl in E. lra.
Qed.

(** ** generate_points *)

Lemma for_yield_pure {A B : Type} (l : list A) (f : A -> res (list B))
    (g : A -> list B) :
  (forall a, In a l -> f a = Ok (g a)) -> for_yield l f = Ok (flat_map g l).
Proof.
  induction l as [|a l IH]; intros H; simpl; [reflexivity|].
  rewrite (H a) by (left; reflexivity). simpl.
  rewrite IH by (intros b Hb; apply H; right; exact Hb). reflexivity.
Qed.

Lemma flat_map_single {A B : Type} (h : A -> B) (l : list A) :
  flat_map (fun a => [h a]) l = map h l.
Proof. induction l as [|a l IH]; simpl; congruence. Qed.

Lemma flat_map_flat_map {A B C : Type} (f : A -> list B) (g : B -> list C)
    (l : list A) :
  flat_map g (flat_map f l) = flat_map (fun a => flat_map g (f a)) l.
Proof.
  induction l as [|a l IH]; simpl; [reflexivity|].
  rewrite flat_map_app, IH. reflexivity.
Qed.

Lemma flat_map_map {A B C : Type} (f : A -> B) (g : B -> list C) (l : list A) :
  flat_map g (map f l) = flat_map (fun a => g (f a)) l.
Proof. induction l as [|a l IH]; simpl; congruence. Qed.

Lemma filter_flat_map {A B : Type} (q : B -> bool) (f : A -> list B)
    (l : list A) :
  List.filter q (flat_map f l) = flat_map (fun a => List.filter q (f a)) l.
Proof.
  induction l as [|a l IH]; simpl; [reflexivity|].
  rewrite List.filter_app, IH. reflexivity.
Qed.

Lemma arange_samples (start stop step : Q) :
  ~ step == 0 -> arange start stop step = Ok (samples start stop step).
Proof. intros H. unfold arange. rewrite (Qeq_bool_false _ _ H). reflexivity. Qed.

Lemma directions_at_spec (sc : Scene) (c : Point) :
  ~ dstep sc == 0 -> directions_at sc c = Ok (spec_directions sc c).
Proof.
  intros Hd. unfold directions_at, spec_directions, spec_rhos, spec_etas.
  rewrite (arange_samples _ _ _ Hd). simpl.
  apply for_yield_pure. intros r _. destruct (is_pole r); [reflexivity|].
  rewrite (arange_samples _ _ _ Hd). simpl.
  rewrite (for_yield_pure _ _ (fun e => [mkDP c r e])) by reflexivity.
  rewrite flat_map_single. reflexivity.
Qed.

(** The generator produces the sequence that the specification words. *)
Lemma generate_points_spec (sc : Scene) :
  ~ pstep sc == 0 -> ~ dstep sc == 0 ->
  generate_points sc = Ok (spec_points sc).
Proof.
  intros Hp Hd. unfold generate_points, spec_points, spec_grid.
  rewrite (arange_samples _ _ _ Hp). simpl.
  rewrite flat_map_flat_map.
  apply for_yield_pure. intros x _.
  rewrite (arange_samples _ _ _ Hp). simpl.
  rewrite flat_map_flat_map.
  apply for_yield_pure. intros y _.
  rewrite (arange_samples _ _ _ Hp). simpl.
  rewrite flat_map_map.
  apply for_yield_pure. intros z _.
  destruct (is_opaque sc (mkPoint x y z)); [reflexivity|].
  apply directions_at_spec, Hd.
Qed.

Lemma pi_pos : 0 < pi.
Proof. reflexivity. Qed.

Lemma spec_directions_pos (sc : Scene) (c : Point) (dp : DirectionalPoint) :
  In dp (spec_directions sc c) -> pos dp = c.
Proof.
  unfold spec_directions. rewrite in_flat_map. intros (r & _ & H).
  destruct (is_pole r).
  - destruct H as [<- | []]. reflexivity.
  - apply in_map_iff in H as (e & <- & _). reflexivity.
Qed.

Lemma spec_points_In (sc : Scene) (dp : DirectionalPoint) :
  In dp (spec_points sc)
  <-> In (pos dp) (spec_grid sc) /\ is_opaque sc (pos dp) = false
      /\ In dp (spec_directions sc (pos dp)).
Proof.
  unfold spec_points. rewrite in_flat_map. split.
  - intros (c & Hc & H). destruct (is_opaque sc c) eqn:E; [destruct H|].
    pose proof (spec_directions_pos sc c dp H) as <-. tauto.
  - intros (Hg & Ho & Hd). exists (pos dp). rewrite Ho. tauto.
Qed.

Lemma filter_const {A : Type} (f : A -> bool) (b : bool) (l : list A) :
  (forall a, In a l -> f a = b) -> List.filter f l = if b then l else [].
Proof.
  induction l as [|a l IH]; intros H; simpl; [destruct b; reflexivity|].
  rewrite (H a (or_introl eq_refl)), IH by (intros x Hx; apply H; right; exact Hx).
  destruct b; reflexivity.
Qed.

(** ** Camera.mu *)

(** A trapezoidal membership is a degree in [[0, 1]]. *)
Lemma tfn_mu_range (t : TrapezoidalFuzzyNumber) (v : Q) :
  0 <= tfn_mu t v <= 1.
Proof.
  unfold tfn_mu.
  destruct (Qle_bool _ _ && Qle_bool _ _); [lra|].
  destruct (Qlt_bool _ _ && Qlt_bool _ _) eqn:E1.
  { apply andb_true_iff in E1 as [H1 H2].
    apply Qlt_bool_iff in H1, H2. split.
    - apply Qle_shift_div_l; lra.
    - apply Qle_shift_div_r; lra. }
  clear E1. destruct (Qlt_bool _ _ && Qlt_bool _ _) eqn:E2.
  { apply andb_true_iff in E2 as [H1 H2].
    apply Qlt_bool_iff in H1, H2. split.
    - apply Qle_shift_div_l; lra.
    - apply Qle_shift_div_r; lra. }
  lra.
Qed.

Lemma clamp_range (q : Q) : 0 <= Qmin (Qmax q 0) 1 <= 1.
Proof.
  split.
  - apply Q.min_glb; [apply Q.le_max_r | lra].
  - apply Q.le_min_r.
Qed.

Lemma Qmin_range (a b : Q) : 0 <= a <= 1 -> 0 <= b <= 1 -> 0 <= Qmin a b <= 1.
Proof.
  intros Ha Hb. split.
  - apply Q.min_glb; lra.
  - pose proof (Q.le_min_l a b). lra.
Qed.

Lemma product_range (a b c e : Q) :
  0 <= a <= 1 -> 0 <= b <= 1 -> 0 <= c <= 1 -> 0 <= e <= 1 ->
  0 <= a * b * c * e <= 1.
Proof.
  intros Ha Hb Hc He.
  assert (Hab : 0 <= a * b <= 1) by nra.
  assert (Habc : 0 <= a * b * c <= 1) by nra.
  nra.
Qed.

Section CameraProperties.
Context {Pose : Type} {G : Geometry Pose} {M : MathLib}.

(** The visibility membership never raises: a zero depth gives 0. *)
Lemma mu_v_cases (cam : Camera Pose) (c : Point) :
  mu_v cam c
  = Ok (if Qeq_bool (pz c) 0 then 0
        else Qmin (tfn_mu (Cvh cam) (px c / pz c))
                  (tfn_mu (Cvv cam) (py c / pz c))).
Proof.
  unfold mu_v, py_div. destruct (Qeq_bool (pz c) 0); reflexivity.
Qed.

Lemma mu_v_range (cam : Camera Pose) (c : Point) :
  exists v, mu_v cam c = Ok v /\ 0 <= v <= 1.
Proof.
  rewrite mu_v_cases. eexists; split; [reflexivity|].
  destruct (Qeq_bool (pz c) 0); [lra|].
  apply Qmin_range; apply tfn_mu_range.
Qed.

(** The direction membership raises only through the division by
    [zeta]. *)
Lemma mu_d_range (cam : Camera Pose) (t : Target) :
  (is_directed t = true -> ~ zeta cam == 0) ->
  exists dd, mu_d cam t = Ok dd /\ 0 <= dd <= 1
             /\ (is_directed t = false -> dd = 1).
Proof.
  intros Hz. destruct t as [p | dp]; simpl.
  - exists 1. repeat split; lra.
  - specialize (Hz eq_refl). unfold py_div.
    rewrite (Qeq_bool_false _ _ Hz).
    destruct (Qeq_bool (m_sqrt _) 0), (Qeq_bool (pz (pos dp)) 0); simpl;
      eexists; (split; [reflexivity|]);
      (split; [apply clamp_range | discriminate]).
Qed.


End CameraProperties.

(** ** Fuzzy sets: keys, union, intersection *)

Lemma Qeq_bool_sym' (a b : Q) : Qeq_bool a b = Qeq_bool b a.
Proof.
  destruct (Qeq_bool a b) eqn:E; symmetry.
  - apply Qeq_bool_iff. symmetry. apply Qeq_bool_iff, E.
  - apply Qeq_bool_false. intros H. symmetry in H.
    apply Qeq_bool_iff in H. congruence.
Qed.

Lemma Qeq_bool_trans' (a b c : Q) :
  Qeq_bool a b = true -> Qeq_bool a c = Qeq_bool b c.
Proof.
  intros H. apply Qeq_bool_iff in H.
  destruct (Qeq_bool b c) eqn:E.
  - apply Qeq_bool_iff. apply Qeq_bool_iff in E. rewrite H. exact E.
  - apply Qeq_bool_false. intros H'. rewrite H in H'.
    apply Qeq_bool_iff in H'. congruence.
Qed.

Lemma Point_eqb_trans (a b c : Point) :
  Point_eqb a b = true -> Point_eqb a c = Point_eqb b c.
Proof.
  unfold Point_eqb. rewrite !andb_true_iff. intros [[Hx Hy] Hz].
  rewrite (Qeq_bool_trans' _ _ (px c) Hx), (Qeq_bool_trans' _ _ (py c) Hy),
    (Qeq_bool_trans' _ _ (pz c) Hz). reflexivity.
Qed.

Lemma Point_eqb_sym (a b : Point) : Point_eqb a b = Point_eqb b a.
Proof.
  unfold Point_eqb.
  rewrite (Qeq_bool_sym' (px a)), (Qeq_bool_sym' (py a)), (Qeq_bool_sym' (pz a)).
  reflexivity.
Qed.


Lemma DirectionalPoint_eqb_sym (a b : DirectionalPoint) :
  DirectionalPoint_eqb a b = DirectionalPoint_eqb b a.
Proof.
  unfold DirectionalPoint_eqb.
  rewrite (Point_eqb_sym (pos a)), (Qeq_bool_sym' (rho a)), (Qeq_bool_sym' (eta a)).
  reflexivity.
Qed.

Lemma DirectionalPoint_eqb_trans (a b c : DirectionalPoint) :
  DirectionalPoint_eqb a b = true ->
  DirectionalPoint_eqb a c = DirectionalPoint_eqb b c.
Proof.
  unfold DirectionalPoint_eqb. rewrite !andb_true_iff. intros [[Hp Hr] He].
  rewrite (Point_eqb_trans _ _ (pos c) Hp), (Qeq_bool_trans' _ _ (rho c) Hr),
    (Qeq_bool_trans' _ _ (eta c) He). reflexivity.
Qed.

(** Two names of one key select the same elements. *)
Lemma has_key_same (k k' : DirectionalPoint) (e : FuzzyElement) :
  DirectionalPoint_eqb k k' = true -> has_key k e = has_key k' e.
Proof.
  intros H. unfold has_key.
  rewrite (DirectionalPoint_eqb_sym (obj e) k), (DirectionalPoint_eqb_sym (obj e) k').
  apply DirectionalPoint_eqb_trans, H.
Qed.

Lemma fs_mu_same (fs : FuzzySet) (k k' : DirectionalPoint) :
  DirectionalPoint_eqb k k' = true -> fs_mu fs k = fs_mu fs k'.
Proof.
  intros H. unfold fs_mu.
  induction fs as [|e fs IH]; simpl; [reflexivity|].
  rewrite <- (has_key_same k k' e H). destruct (has_key k e); [reflexivity|].
  exact IH.
Qed.

Lemma fs_mem_same (fs : FuzzySet) (k k' : DirectionalPoint) :
  DirectionalPoint_eqb k k' = true -> fs_mem fs k = fs_mem fs k'.
Proof.
  intros H. unfold fs_mem.
  induction fs as [|e fs IH]; simpl; [reflexivity|].
  rewrite IH, (has_key_same k k' e H). reflexivity.
Qed.

Lemma fs_mu_absent (fs : FuzzySet) (k : DirectionalPoint) :
  fs_mem fs k = false -> fs_mu fs k = 0.
Proof.
  unfold fs_mem, fs_mu. induction fs as [|e fs IH]; simpl; [reflexivity|].
  destruct (has_key k e); simpl; [discriminate | exact IH].
Qed.

Lemma fs_mu_cons (e : FuzzyElement) (fs : FuzzySet) (k : DirectionalPoint) :
  fs_mu (e :: fs) k = if has_key k e then fmu e else fs_mu fs k.
Proof. unfold fs_mu. simpl. destruct (has_key k e); reflexivity. Qed.

Lemma fs_mem_cons (e : FuzzyElement) (fs : FuzzySet) (k : DirectionalPoint) :
  fs_mem (e :: fs) k = has_key k e || fs_mem fs k.
Proof. reflexivity. Qed.

Lemma has_key_obj (k : DirectionalPoint) (e : FuzzyElement) :
  has_key k e = true -> DirectionalPoint_eqb (obj e) k = true.
Proof. intros H. exact H. Qed.

Lemma fs_mu_app (l1 l2 : FuzzySet) (k : DirectionalPoint) :
  fs_mu (l1 ++ l2) k = if fs_mem l1 k then fs_mu l1 k else fs_mu l2 k.
Proof.
  induction l1 as [|e l1 IH]; [reflexivity|].
  simpl app. rewrite !fs_mu_cons, fs_mem_cons.
  destruct (has_key k e); [reflexivity | exact IH].
Qed.


(** The part of a union that comes from the left operand. *)
Lemma union_left (a b : FuzzySet) (k : DirectionalPoint) :
  let U := fun e => mkFE (obj e) (Qmax (fmu e) (fs_mu b (obj e))) in
  fs_mem (map U a) k = fs_mem a k
  /\ (fs_mem a k = true ->
      fs_mu (map U a) k = Qmax (fs_mu a k) (fs_mu b k)).
Proof.
  intros U. induction a as [|e a [IH1 IH2]]; [split; [reflexivity | discriminate]|].
  simpl map. rewrite !fs_mem_cons, !fs_mu_cons.
  change (has_key k (U e)) with (has_key k e).
  split; [rewrite IH1; reflexivity|].
  destruct (has_key k e) eqn:E; simpl.
  - intros _. rewrite (fs_mu_same b (obj e) k (has_key_obj k e E)). reflexivity.
  - exact IH2.
Qed.

(** The part of a union that comes from the right operand alone. *)
Lemma union_right (a b : FuzzySet) (k : DirectionalPoint) :
  fs_mem a k = false ->
  fs_mu (List.filter (fun e => negb (fs_mem a (obj e))) b) k = fs_mu b k.
Proof.
  intros Ha. induction b as [|e b IH]; [reflexivity|].
  simpl List.filter. rewrite fs_mu_cons.
  destruct (has_key k e) eqn:E.
  - rewrite (fs_mem_same a (obj e) k (has_key_obj k e E)), Ha. simpl.
    rewrite fs_mu_cons, E. reflexivity.
  - destruct (negb _); [rewrite fs_mu_cons, E|]; exact IH.
Qed.

(** Union is the pointwise maximum. *)
Lemma fs_mu_union (a b : FuzzySet) (k : DirectionalPoint) :
  0 <= fs_mu b k ->
  fs_mu (fs_union a b) k == Qmax (fs_mu a k) (fs_mu b k).
Proof.
  intros Hb. unfold fs_union. rewrite fs_mu_app.
  destruct (union_left a b k) as [-> H].
  destruct (fs_mem a k) eqn:E.
  - rewrite H by reflexivity. reflexivity.
  - rewrite (union_right a b k E), (fs_mu_absent a k E).
    symmetry. apply Q.max_r. exact Hb.
Qed.

Lemma fs_mu_inter_cases (a b : FuzzySet) (k : DirectionalPoint) :
  fs_mu (fs_inter a b) k
  = if fs_mem a k && fs_mem b k then Qmin (fs_mu a k) (fs_mu b k) else 0.
Proof.
  unfold fs_inter. induction a as [|e a IH]; [reflexivity|].
  simpl List.filter. rewrite fs_mem_cons, (fs_mu_cons e a).
  destruct (has_key k e) eqn:E; simpl.
  - pose proof (has_key_obj k e E) as Hk.
    rewrite (fs_mem_same b (obj e) k Hk).
    destruct (fs_mem b k) eqn:Eb; simpl.
    + rewrite fs_mu_cons. change (has_key k _) with (has_key k e).
      rewrite E. simpl. rewrite (fs_mu_same b (obj e) k Hk). reflexivity.
    + rewrite IH, andb_false_r. reflexivity.
  - destruct (fs_mem b (obj e)); simpl.
    + rewrite fs_mu_cons. change (has_key k _) with (has_key k e).
      rewrite E. exact IH.
    + exact IH.
Qed.

(** Intersection is the pointwise minimum. *)
Lemma fs_mu_inter (a b : FuzzySet) (k : DirectionalPoint) :
  0 <= fs_mu a k -> 0 <= fs_mu b k ->
  fs_mu (fs_inter a b) k == Qmin (fs_mu a k) (fs_mu b k).
Proof.
  intros Ha Hb. rewrite fs_mu_inter_cases.
  destruct (fs_mem a k) eqn:Ea; simpl.
  - destruct (fs_mem b k) eqn:Eb; [reflexivity|].
    rewrite (fs_mu_absent b k Eb) in *. symmetry. apply Q.min_r. exact Ha.
  - rewrite (fs_mu_absent a k Ea) in *. symmetry. apply Q.min_l. exact Hb.
Qed.

Lemma fs_valid_union (a b : FuzzySet) :
  fs_valid a -> fs_valid b -> fs_valid (fs_union a b).
Proof.
  intros Ha Hb k. rewrite (fs_mu_union a b k) by apply Hb.
  destruct (Ha k), (Hb k). split.
  - pose proof (Q.le_max_l (fs_mu a k) (fs_mu b k)). lra.
  - apply Q.max_lub; assumption.
Qed.

Lemma fs_valid_inter (a b : FuzzySet) :
  fs_valid a -> fs_valid b -> fs_valid (fs_inter a b).
Proof.
  intros Ha Hb k. rewrite (fs_mu_inter a b k) by (apply Ha || apply Hb).
  apply Qmin_range; [apply Ha | apply Hb].
Qed.

Lemma fs_valid_nil : fs_valid [].
Proof. intros k. unfold fs_mu. simpl. lra. Qed.

Lemma FuzzySet_of_In (l : list FuzzyElement) (e : FuzzyElement) :
  In e (FuzzySet_of l) -> In e l.
Proof.
  unfold FuzzySet_of.
  assert (H : forall acc, In e (fold_left fs_add l acc) -> In e acc \/ In e l).
  { induction l as [|x l IH]; intros acc Hin; simpl in *; [left; exact Hin|].
    destruct (IH _ Hin) as [Ha | Hl]; [|tauto].
    unfold fs_add in Ha. destruct (fs_mem acc (obj x)); [tauto|].
    apply in_app_iff in Ha as [Ha | [<- | []]]; tauto. }
  intros Hin. destruct (H [] Hin) as [[] | Hl]. exact Hl.
Qed.

(** The initial model of the pairwise policy: every degree is 0. *)
Lemma fs_mu_zeros (pts : list DirectionalPoint) (k : DirectionalPoint) :
  fs_mu (FuzzySet_of (map (fun dpoint => mkFE dpoint 0) pts)) k = 0.
Proof.
  unfold fs_mu. destruct (find _ _) as [e|] eqn:E; [|reflexivity].
  apply find_some in E as [Hin _]. apply FuzzySet_of_In in Hin.
  apply in_map_iff in Hin as (dp & <- & _). reflexivity.
Qed.

(** ** Aggregation policies *)

Section NetworkProperties.
Context {Pose : Type} {G : Geometry Pose} {M : MathLib}.

Lemma inscene_getitem_valid (net : MultiCamera Pose) (c : Camera Pose) :
  inscene_valid net -> In c (cameras net) ->
  exists fs, inscene_getitem net (name c) = Ok fs /\ fs_valid fs
             /\ forall k, inscene_mu net c k = fs_mu fs k.
Proof.
  intros Hv Hc. destruct (Hv c Hc) as (fs & E & Hfs).
  exists fs. unfold inscene_getitem, inscene_mu. rewrite E. auto.
Qed.

Lemma inscene_mu_range (net : MultiCamera Pose) (c : Camera Pose)
    (k : DirectionalPoint) :
  inscene_valid net -> In c (cameras net) -> 0 <= inscene_mu net c k <= 1.
Proof.
  intros Hv Hc.
  destruct (inscene_getitem_valid net c Hv Hc) as (fs & _ & Hfs & ->).
  apply Hfs.
Qed.

Lemma union_mu_range (net : MultiCamera Pose) (cs : list (Camera Pose))
    (k : DirectionalPoint) :
  inscene_valid net -> incl cs (cameras net) -> 0 <= union_mu net cs k <= 1.
Proof.
  intros Hv. induction cs as [|c cs IH]; intros Hi; simpl; [lra|].
  pose proof (inscene_mu_range net c k Hv (Hi c (or_introl eq_refl))) as Hc.
  specialize (IH (fun x Hx => Hi x (or_intror Hx))). split.
  - pose proof (Q.le_max_r (inscene_mu net c k) (union_mu net cs k)). lra.
  - apply Q.max_lub; lra.
Qed.

(** The loop of the simple policy accumulates the pointwise maximum. *)
Lemma union_cameras_mu (net : MultiCamera Pose) (cs : list (Camera Pose)) :
  inscene_valid net -> incl cs (cameras net) ->
  forall m, fs_valid m ->
    exists m', MultiCameraSimple.union_cameras net cs m = Ok m' /\ fs_valid m'
      /\ forall k, fs_mu m' k == Qmax (fs_mu m k) (union_mu net cs k).
Proof.
  intros Hv. induction cs as [|c cs IH]; intros Hi m Hm.
  - exists m. split; [reflexivity|]. split; [exact Hm|].
    intros k. simpl. symmetry. apply Q.max_l. apply Hm.
  - destruct (inscene_getitem_valid net c Hv (Hi c (or_introl eq_refl)))
      as (fs & E & Hfs & Emu).
    destruct (IH (fun x Hx => Hi x (or_intror Hx)) (fs_union m fs)
                 (fs_valid_union m fs Hm Hfs)) as (m' & E' & Hm' & Hmu).
    exists m'. simpl. rewrite E. simpl. split; [exact E'|].
    split; [exact Hm'|]. intros k.
    rewrite Hmu, (fs_mu_union m fs k) by apply Hfs.
    rewrite Emu. symmetry. apply Q.max_assoc.
Qed.

Lemma union_mu_lower (net : MultiCamera Pose) (cs : list (Camera Pose))
    (A : Camera Pose) (k : DirectionalPoint) :
  In A cs -> inscene_mu net A k <= union_mu net cs k.
Proof.
  induction cs as [|c cs IH]; intros Hin; [destruct Hin|]. simpl.
  destruct Hin as [-> | Hin].
  - apply Q.le_max_l.
  - pose proof (Q.le_max_r (inscene_mu net c k) (union_mu net cs k)).
    specialize (IH Hin). lra.
Qed.

Lemma union_mu_upper (net : MultiCamera Pose) (cs : list (Camera Pose))
    (a : Q) (k : DirectionalPoint) :
  0 <= a -> (forall c, In c cs -> inscene_mu net c k <= a) ->
  union_mu net cs k <= a.
Proof.
  intros Ha. induction cs as [|c cs IH]; intros H; simpl; [exact Ha|].
  apply Q.max_lub.
  - apply H. left. reflexivity.
  - apply IH. intros x Hx. apply H. right. exact Hx.
Qed.

Lemma inscene_mu_name (net : MultiCamera Pose) (c c' : Camera Pose)
    (k : DirectionalPoint) :
  name c = name c' -> inscene_mu net c k = inscene_mu net c' k.
Proof. unfold inscene_mu. intros ->. reflexivity. Qed.

(** C4: the simple policy sets the network coverage to the fuzzy union
    of the in-scene sets of all cameras, the pointwise maximum of the
    memberships; hence a point that only camera [A] covers (membership
    0 under every camera with another name) has network membership
    equal to its membership under [A].  The network has an in-scene set
    for every camera, with degrees in [[0, 1]], as every network built
    by [add] has. *)
Theorem update_simple_union (net : MultiCamera Pose) :
  inscene_valid net ->
  exists net',
    MultiCameraSimple.update net = Ok net'
    /\ cameras net' = cameras net /\ inscene net' = inscene net
    /\ (forall k, fs_mu (model net') k == union_mu net (cameras net) k)
    /\ (forall A k,
          In A (cameras net) ->
          (forall c, In c (cameras net) -> name c <> name A ->
                     inscene_mu net c k == 0) ->
          fs_mu (model net') k == inscene_mu net A k).
Proof.
  intros Hv.
  destruct (union_cameras_mu net (cameras net) Hv (incl_refl _) []
              fs_valid_nil) as (m' & E & Hm' & Hmu).
  assert (Hall : forall k, fs_mu m' k == union_mu net (cameras net) k).
  { intros k. rewrite Hmu. apply Q.max_r.
    apply (union_mu_range net (cameras net) k Hv (incl_refl _)). }
  eexists. unfold MultiCameraSimple.update. rewrite E. simpl.
  split; [reflexivity|]. split; [reflexivity|]. split; [reflexivity|].
  split; [exact Hall|]. intros A k HA Hothers. simpl. rewrite Hall.
  pose proof (inscene_mu_range net A k Hv HA) as HrA.
  apply Qle_antisym.
  - apply union_mu_upper; [lra|]. intros c Hc.
    destruct (decide (name c = name A)) as [En | Hn].
    + rewrite (inscene_mu_name net c A k En). lra.
    + rewrite (Hothers c Hc Hn). lra.
  - apply union_mu_lower, HA.
Qed.

Lemma combinations2_In {A : Type} (l : list A) (a b : A) :
  In (a, b) (combinations2 l) -> In a l /\ In b l.
Proof.
  induction l as [|x l IH]; simpl; [tauto|].
  rewrite in_app_iff, in_map_iff.
  intros [(y & E & Hy) | H]; [inversion E; subst; tauto|].
  destruct (IH H). tauto.
Qed.

(** The pairs of [combinations] are pairs of distinct cameras. *)
Lemma combinations2_distinct (l : list (Camera Pose)) (a b : Camera Pose) :
  List.NoDup (map name l) -> In (a, b) (combinations2 l) -> name a <> name b.
Proof.
  induction l as [|x l IH]; simpl; [tauto|].
  intros Hnd. inversion Hnd as [|? ? Hx Hl]; subst.
  rewrite in_app_iff, in_map_iff.
  intros [(y & E & Hy) | H]; [|apply IH; assumption].
  inversion E; subst. intros En. apply Hx. rewrite En.
  apply in_map, Hy.
Qed.

Lemma pairwise_mu_range (net : MultiCamera Pose)
    (ps : list (Camera Pose * Camera Pose)) (k : DirectionalPoint) :
  inscene_valid net ->
  (forall ab, In ab ps -> In (fst ab) (cameras net) /\ In (snd ab) (cameras net)) ->
  0 <= pairwise_mu net ps k <= 1.
Proof.
  intros Hv. induction ps as [|ab ps IH]; intros Hi; simpl; [lra|].
  destruct (Hi ab (or_introl eq_refl)) as [Ha Hb].
  pose proof (Qmin_range _ _ (inscene_mu_range net _ k Hv Ha)
                (inscene_mu_range net _ k Hv Hb)) as Hm.
  specialize (IH (fun x Hx => Hi x (or_intror Hx))). split.
  - pose proof (Q.le_max_r (Qmin (inscene_mu net (fst ab) k)
                                 (inscene_mu net (snd ab) k))
                           (pairwise_mu net ps k)). lra.
  - apply Q.max_lub; lra.
Qed.

(** The pairwise intersections and the loop that unites them. *)
Lemma pair_intersections_mu (net : MultiCamera Pose)
    (ps : list (Camera Pose * Camera Pose)) :
  inscene_valid net ->
  (forall ab, In ab ps -> In (fst ab) (cameras net) /\ In (snd ab) (cameras net)) ->
  exists l, MultiCamera3D.pair_intersections net ps = Ok l
    /\ forall m, fs_valid m ->
         forall k, fs_mu (MultiCamera3D.union_all m l) k
                   == Qmax (fs_mu m k) (pairwise_mu net ps k).
Proof.
  intros Hv. induction ps as [|[a b] ps IH]; intros Hi.
  - exists []. split; [reflexivity|]. intros m Hm k. simpl.
    symmetry. apply Q.max_l. apply Hm.
  - destruct (Hi (a, b) (or_introl eq_refl)) as [Ha Hb]. simpl in Ha, Hb.
    destruct (inscene_getitem_valid net a Hv Ha) as (fa & Ea & Hfa & Emua).
    destruct (inscene_getitem_valid net b Hv Hb) as (fb & Eb & Hfb & Emub).
    destruct (IH (fun x Hx => Hi x (or_intror Hx))) as (l & El & Hl).
    exists (fs_inter fa fb :: l). simpl. rewrite Ea, Eb. simpl.
    rewrite El. simpl. split; [reflexivity|]. intros m Hm k.
    unfold MultiCamera3D.union_all in *. simpl.
    rewrite (Hl (fs_union m (fs_inter fa fb))
                (fs_valid_union _ _ Hm (fs_valid_inter _ _ Hfa Hfb))).
    rewrite (fs_mu_union m (fs_inter fa fb) k)
      by apply (fs_valid_inter _ _ Hfa Hfb).
    rewrite (fs_mu_inter fa fb k) by (apply Hfa || apply Hfb).
    rewrite Emua, Emub. symmetry. apply Q.max_assoc.
Qed.

Lemma pairwise_mu_zero (net : MultiCamera Pose)
    (ps : list (Camera Pose * Camera Pose)) (k : DirectionalPoint) :
  (forall ab, In ab ps ->
     Qmin (inscene_mu net (fst ab) k) (inscene_mu net (snd ab) k) == 0) ->
  pairwise_mu net ps k == 0.
Proof.
  induction ps as [|ab ps IH]; intros H; simpl; [reflexivity|].
  rewrite (H ab (or_introl eq_refl)), (IH (fun x Hx => H x (or_intror Hx))).
  reflexivity.
Qed.

Lemma pairwise_mu_lower (net : MultiCamera Pose)
    (ps : list (Camera Pose * Camera Pose)) (ab : Camera Pose * Camera Pose)
    (k : DirectionalPoint) :
  In ab ps ->
  Qmin (inscene_mu net (fst ab) k) (inscene_mu net (snd ab) k)
  <= pairwise_mu net ps k.
Proof.
  induction ps as [|x ps IH]; intros Hin; [destruct Hin|]. simpl.
  destruct Hin as [-> | Hin].
  - apply Q.le_max_l.
  - specialize (IH Hin).
    pose proof (Q.le_max_r
                  (Qmin (inscene_mu net (fst x) k) (inscene_mu net (snd x) k))
                  (pairwise_mu net ps k)).
    lra.
Qed.

(** [combinations( l, 2 )] holds every two distinct elements of [l], in
    one order or the other. *)
Lemma combinations2_complete {A : Type} (l : list A) (a b : A) :
  In a l -> In b l -> a <> b ->
  In (a, b) (combinations2 l) \/ In (b, a) (combinations2 l).
Proof.
  induction l as [|x l IH]; intros Ha Hb Hne; [destruct Ha|].
  cbn [combinations2]. rewrite !in_app_iff, !in_map_iff.
  destruct Ha as [-> | Ha], Hb as [-> | Hb].
  - destruct (Hne eq_refl).
  - left. left. exists b. auto.
  - right. left. exists a. auto.
  - destruct (IH Ha Hb Hne) as [H | H]; [left | right]; right; exact H.
Qed.

(** The maximum of the pairwise minima is 0 or the minimum of a pair. *)
Lemma pairwise_mu_attained (net : MultiCamera Pose)
    (ps : list (Camera Pose * Camera Pose)) (k : DirectionalPoint) :
  pairwise_mu net ps k == 0
  \/ exists ab, In ab ps
       /\ pairwise_mu net ps k
          == Qmin (inscene_mu net (fst ab) k) (inscene_mu net (snd ab) k).
Proof.
  induction ps as [|x ps IH]; [left; reflexivity|]. cbn [pairwise_mu fold_right].
  fold (pairwise_mu net ps k).
  destruct (Q.max_dec (Qmin (inscene_mu net (fst x) k)
                            (inscene_mu net (snd x) k))
                      (pairwise_mu net ps k)) as [E | E].
  - right. exists x. split; [left; reflexivity | exact E].
  - destruct IH as [H0 | (ab & Hin & H)].
    + left. exact (Qeq_trans _ _ _ E H0).
    + right. exists ab. split; [right; exact Hin|].
      exact (Qeq_trans _ _ _ E H).
Qed.

(** C3: the pairwise policy sets the network coverage to the fuzzy
    union, over all unordered pairs of distinct cameras, of the fuzzy
    intersection of the two in-scene sets: the maximum of the pairwise
    minima.  The degree of a point in the model is at least the minimum
    of its two degrees for every two cameras with different names, and
    it is 0 or the minimum for two such cameras: no pair is left out and
    nothing else enters.  In particular a point with full membership
    under camera [A] and membership 0 under every camera with another
    name has network membership 0.  The network has an in-scene set for
    every camera, with degrees in [[0, 1]], and one camera per name, as
    every network built by [add] has; the steps of the scene are
    positive. *)
Theorem update_3d_pairs (net : MultiCamera Pose) :
  0 < pstep (scene net) -> 0 < dstep (scene net) ->
  inscene_valid net ->
  exists net',
    MultiCamera3D.update net = Ok net'
    /\ cameras net' = cameras net /\ inscene net' = inscene net
    /\ (forall k, fs_mu (model net') k
                  == pairwise_mu net (combinations2 (cameras net)) k)
    /\ (forall a b k,
          In a (cameras net) -> In b (cameras net) -> name a <> name b ->
          Qmin (inscene_mu net a k) (inscene_mu net b k)
          <= fs_mu (model net') k)
    /\ (forall k,
          List.NoDup (map name (cameras net)) ->
          fs_mu (model net') k == 0
          \/ exists a b,
               In a (cameras net) /\ In b (cameras net) /\ name a <> name b
               /\ fs_mu (model net') k
                  == Qmin (inscene_mu net a k) (inscene_mu net b k))
    /\ (forall A k,
          List.NoDup (map name (cameras net)) ->
          In A (cameras net) ->
          inscene_mu net A k == 1 ->
          (forall c, In c (cameras net) -> name c <> name A ->
                     inscene_mu net c k == 0) ->
          fs_mu (model net') k == 0).
Proof.
  intros Hp Hd Hv.
  assert (Hps : forall ab, In ab (combinations2 (cameras net)) ->
                  In (fst ab) (cameras net) /\ In (snd ab) (cameras net))
    by (intros [a b]; apply combinations2_In).
  destruct (pair_intersections_mu net _ Hv Hps) as (l & El & Hl).
  set (m0 := FuzzySet_of (map (fun dpoint => mkFE dpoint 0)
                              (spec_points (scene net)))).
  assert (Hm0 : forall k, fs_mu m0 k = 0) by (intros k; apply fs_mu_zeros).
  assert (Hv0 : fs_valid m0) by (intros k; rewrite Hm0; lra).
  assert (Hall : forall k, fs_mu (MultiCamera3D.union_all m0 l) k
                   == pairwise_mu net (combinations2 (cameras net)) k).
  { intros k. rewrite (Hl m0 Hv0 k), Hm0. apply Q.max_r.
    apply (pairwise_mu_range net _ k Hv Hps). }
  eexists. unfold MultiCamera3D.update.
  rewrite generate_points_spec by lra. simpl. rewrite El. simpl.
  split; [reflexivity|]. split; [reflexivity|]. split; [reflexivity|].
  split; [exact Hall|]. split; [|split].
  - intros a b k Ha Hb Hne. fold m0. rewrite Hall.
    assert (Hab : a <> b) by congruence.
    destruct (combinations2_complete (cameras net) a b Ha Hb Hab) as [H | H].
    + apply (pairwise_mu_lower net _ (a, b) k H).
    + rewrite Q.min_comm. apply (pairwise_mu_lower net _ (b, a) k H).
  - intros k Hnd. fold m0.
    destruct (pairwise_mu_attained net (combinations2 (cameras net)) k)
      as [H0 | ([a b] & Hin & H)].
    + left. rewrite Hall. exact H0.
    + right. exists a, b. destruct (Hps _ Hin) as [Ha Hb].
      split; [exact Ha|]. split; [exact Hb|].
      split; [exact (combinations2_distinct _ a b Hnd Hin)|].
      rewrite Hall. exact H.
  - intros A k Hnd HA _ Hothers. cbn [model].
    fold m0. rewrite Hall.
    apply pairwise_mu_zero. intros [a b] Hab. simpl.
    pose proof (combinations2_distinct _ a b Hnd Hab) as Hne.
    destruct (Hps _ Hab) as [Ha Hb]. simpl in Ha, Hb.
    pose proof (inscene_mu_range net a k Hv Ha) as Hra.
    pose proof (inscene_mu_range net b k Hv Hb) as Hrb.
    destruct (decide (name a = name A)) as [Ea | Na].
    + assert (Nb : name b <> name A) by congruence.
      rewrite (Hothers b Hb Nb). apply Q.min_r. lra.
    + rewrite (Hothers a Ha Na). apply Q.min_l. lra.
Qed.

(** ** Adding a camera *)

Lemma existsb_find {A : Type} (f : A -> bool) (l : list A) :
  existsb f l = true -> exists x, find f l = Some x /\ f x = true /\ In x l.
Proof.
  induction l as [|a l IH]; simpl; [discriminate|].
  destruct (f a) eqn:E; simpl.
  - intros _. exists a. auto.
  - intros H. destruct (IH H) as (x & Hx & Hf & Hin). exists x. auto.
Qed.

Lemma find_app_last {A : Type} (f : A -> bool) (l : list A) (x : A) :
  existsb f l = false -> f x = true -> find f (l ++ [x]) = Some x.
Proof.
  induction l as [|a l IH]; simpl; intros H Hx; [rewrite Hx; reflexivity|].
  destruct (f a); [discriminate|]. apply IH; assumption.
Qed.

(** After [IndexedSet.add] the name of the item indexes a camera: the
    item, or the camera that already had that name. *)
Lemma net_getitem_added (net : MultiCamera Pose) (item : Camera Pose) :
  exists cam,
    net_getitem (IndexedSet_add net item) (name item) = Ok cam
    /\ name cam = name item
    /\ In cam (item :: cameras net)
    /\ (existsb (fun c => String.eqb (name c) (name item)) (cameras net) = false
        -> cam = item).
Proof.
  unfold IndexedSet_add, net_getitem.
  destruct (existsb _ (cameras net)) eqn:E.
  - destruct (existsb_find _ _ E) as (x & Hf & Hx & Hin).
    exists x. rewrite Hf. apply String.eqb_eq in Hx.
    repeat split; [exact Hx | right; exact Hin | discriminate].
  - exists item. simpl.
    rewrite (find_app_last _ _ item E) by apply String.eqb_refl.
    repeat split. left. reflexivity.
Qed.


Lemma mu_total (cam : Camera Pose) (t : Target) :
  ~ zeta cam == 0 -> exists v, mu cam t = Ok v /\ 0 <= v <= 1.
Proof.
  intros Hz.
  destruct (mu_v_range cam (position (campoint cam t))) as (v & Ev & Hv).
  destruct (mu_d_range cam (campoint cam t) (fun _ => Hz))
    as (dd & Ed & Hd & _).
  unfold mu. rewrite Ev. simpl. rewrite Ed. simpl.
  eexists. split; [reflexivity|].
  apply product_range; try assumption; apply tfn_mu_range.
Qed.





End NetworkProperties.

(** ** Invariants of the networks that the program builds *)

Section NetworkInvariant.
Context {Pose : Type} {G : Geometry Pose} {M : MathLib}.

Lemma mu_d_zero_zeta (cam : Camera Pose) (t : Target) :
  is_directed t = true -> zeta cam == 0 ->
  mu_d cam t = Raise ZeroDivisionError.
Proof.
  intros Hd Hz. destruct t as [p | dp]; [discriminate|].
  unfold mu_d, py_div. rewrite (proj2 (Qeq_bool_iff _ _) Hz).
  destruct (Qeq_bool (m_sqrt _) 0), (Qeq_bool (pz (pos dp)) 0); reflexivity.
Qed.

(** Whenever [mu] returns, the degree is in [[0, 1]]. *)
Lemma mu_Ok_range (cam : Camera Pose) (t : Target) (v : Q) :
  mu cam t = Ok v -> 0 <= v <= 1.
Proof.
  intros H. unfold mu in H.
  destruct (mu_v_range cam (position (campoint cam t))) as (v0 & Ev & Hv).
  rewrite Ev in H. simpl in H.
  destruct (is_directed (campoint cam t)) eqn:Ed.
  - destruct (Qeq_bool (zeta cam) 0) eqn:Ez.
    + apply Qeq_bool_iff in Ez.
      rewrite (mu_d_zero_zeta cam _ Ed Ez) in H. discriminate.
    + destruct (mu_d_range cam (campoint cam t)) as (dd & E & Hdd & _).
      { intros _ Hz. apply Qeq_bool_iff in Hz. congruence. }
      rewrite E in H. simpl in H. injection H as <-.
      apply product_range; try assumption; apply tfn_mu_range.
  - destruct (mu_d_range cam (campoint cam t)) as (dd & E & Hdd & _).
    { intros Hd. congruence. }
    rewrite E in H. simpl in H. injection H as <-.
    apply product_range; try assumption; apply tfn_mu_range.
Qed.

Lemma inscene_loop_range (net : MultiCamera Pose) (key : string)
    (pts : list DirectionalPoint) :
  forall acc l,
    inscene_loop net key pts acc = Ok l ->
    Forall (fun e => 0 <= fmu e <= 1) acc ->
    Forall (fun e => 0 <= fmu e <= 1) l.
Proof.
  induction pts as [|dp pts IH]; intros acc l H Hacc; simpl in H.
  - injection H as <-. exact Hacc.
  - destruct (net_getitem net key) as [cam|]; simpl in H; [|discriminate].
    destruct (mu cam (Directed dp)) as [v|] eqn:Emu; simpl in H; [|discriminate].
    destruct (Qlt_bool 0 v); [|exact (IH _ _ H Hacc)].
    destruct (occluded _ _ _) as [b|]; simpl in H; [|discriminate].
    destruct b; simpl in H; [exact (IH _ _ H Hacc)|].
    apply (IH _ _ H). apply Forall_app. split; [exact Hacc|].
    constructor; [|constructor]. simpl. exact (mu_Ok_range _ _ _ Emu).
Qed.

Lemma fs_valid_of (l : list FuzzyElement) :
  Forall (fun e => 0 <= fmu e <= 1) l -> fs_valid (FuzzySet_of l).
Proof.
  intros Hl k. unfold fs_mu.
  destruct (find _ _) as [e|] eqn:E; [|lra].
  apply find_some in E as [Hin _]. apply FuzzySet_of_In in Hin.
  rewrite List.Forall_forall in Hl. exact (Hl e Hin).
Qed.

Lemma IndexedSet_add_In (net : MultiCamera Pose) (item c : Camera Pose) :
  In c (cameras (IndexedSet_add net item)) -> In c (cameras net) \/ c = item.
Proof.
  unfold IndexedSet_add. destruct (existsb _ _); simpl; [tauto|].
  rewrite in_app_iff. simpl. intuition.
Qed.

Lemma IndexedSet_add_NoDup (net : MultiCamera Pose) (item : Camera Pose) :
  List.NoDup (map name (cameras net)) ->
  List.NoDup (map name (cameras (IndexedSet_add net item))).
Proof.
  intros Hnd. unfold IndexedSet_add.
  destruct (existsb _ _) eqn:E; simpl; [exact Hnd|].
  rewrite map_app. simpl.
  apply List.NoDup_app; [exact Hnd | repeat constructor; intros [] |].
  intros n Hn [<- | []]. apply in_map_iff in Hn as (c & Hc & Hin).
  assert (Hex : existsb (fun c => String.eqb (name c) (name item)) (cameras net)
                = true).
  { apply existsb_exists. exists c. split; [exact Hin|].
    apply String.eqb_eq. exact Hc. }
  congruence.
Qed.

(** The networks that the program builds keep one camera per name and an
    in-scene set, with degrees in [[0, 1]], for every camera. *)
Lemma built_invariant (net : MultiCamera Pose) :
  built net -> inscene_valid net /\ List.NoDup (map name (cameras net)).
Proof.
  induction 1 as [sc | net item net' Hb [IHv IHn] Hadd
                     | net net' Hb [IHv IHn] Hup | net net' Hb [IHv IHn] Hup].
  - split; [intros c [] | constructor].
  - unfold add, _update_inscene in Hadd.
    destruct (generate_points _) as [pts|]; simpl in Hadd; [|discriminate].
    destruct (inscene_loop _ _ pts []) as [dpoints|] eqn:El; simpl in Hadd;
      [|discriminate].
    injection Hadd as <-. split; cbn [inscene cameras].
    + intros c Hc. cbn [inscene cameras] in Hc |- *.
      destruct (decide (name item = name c)) as [En | Hne].
      * exists (FuzzySet_of dpoints). rewrite <- En, lookup_insert_eq.
        split; [reflexivity|].
        apply fs_valid_of. apply (inscene_loop_range _ _ _ _ _ El). constructor.
      * rewrite lookup_insert_ne by exact Hne.
        assert (Ein : inscene (IndexedSet_add net item) = inscene net)
          by (unfold IndexedSet_add; destruct (existsb _ _); reflexivity).
        rewrite Ein. apply IHv.
        destruct (IndexedSet_add_In net item c Hc) as [Hin | ->];
          [exact Hin | contradiction Hne; reflexivity].
    + apply IndexedSet_add_NoDup, IHn.
  - unfold MultiCameraSimple.update in Hup.
    destruct (MultiCameraSimple.union_cameras _ _ _); simpl in Hup; [|discriminate].
    injection Hup as <-. split; [exact IHv | exact IHn].
  - unfold MultiCamera3D.update in Hup.
    destruct (generate_points _); simpl in Hup; [|discriminate].
    destruct (MultiCamera3D.pair_intersections _ _); simpl in Hup; [|discriminate].
    injection Hup as <-. split; [exact IHv | exact IHn].
Qed.
End NetworkInvariant.

(** * Examples: the theorems at concrete inputs *)

Ltac step_nonzero := intros H; vm_compute in H; discriminate H.

Ltac ex_net_valid :=
  intros c [<- | [<- | []]]; eexists;
  (split; [vm_compute; reflexivity|]);
  intros k; unfold fs_mu; simpl; try destruct (has_key k _); simpl; lra.

(** Grid step 1 and the point [(0.5, 0, 0)]: a domain error. *)
Lemma make_opaque_lattice_witness :
  ~ pstep ex_scene == 0
  /\ make_opaque ex_scene (mkPoint (1 # 2) 0 0) = Raise ValueError.
Proof.
  assert (Hs : ~ pstep ex_scene == 0) by step_nonzero.
  split; [exact Hs|].
  apply (make_opaque_lattice ex_scene (mkPoint (1 # 2) 0 0) Hs).
  intros ([k Hk] & _). unfold Qeq in Hk. simpl in Hk. lia.
Defined.


(** A traversal of two voxels. *)
Lemma occluded_terminates_witness :
  0 < pstep ex_scene
  /\ exists b : bool,
      occluded ex_scene (mkPoint 2 1 0) (mkPoint 0 0 0) = Ok b
      /\ forall fuel, (passes ex_scene (mkPoint 2 1 0) (mkPoint 0 0 0) <= fuel)%nat ->
           occluded_fuel fuel ex_scene (mkPoint 2 1 0) (mkPoint 0 0 0)
           = Some (Ok b).
Proof.
  assert (Hs : 0 < pstep ex_scene) by reflexivity.
  split; [exact Hs|].
  exact (proj2 (occluded_terminates ex_scene (mkPoint 2 1 0) (mkPoint 0 0 0) Hs)).
Defined.



(** Simple policy: the point that "A" alone covers keeps the degree it
    has under "A". *)
Lemma update_simple_union_witness :
  inscene_valid ex_net
  /\ exists net',
      MultiCameraSimple.update ex_net = Ok net'
      /\ fs_mu (model net') ex_dp == inscene_mu ex_net ex_A ex_dp.
Proof.
  assert (Hv : inscene_valid ex_net) by ex_net_valid.
  split; [exact Hv|].
  destruct (update_simple_union ex_net Hv) as (net' & E & _ & _ & _ & Halone).
  exists net'. split; [exact E|].
  apply Halone; [left; reflexivity|].
  intros c [<- | [<- | []]] Hn; [contradiction Hn; reflexivity | reflexivity].
Defined.

(** Pairwise policy: the point that "A" covers fully and "B" does not
    cover has network degree 0; when "B" covers it with degree 1/2, the
    pair counts and the network degree is at least 1/2. *)
Lemma update_3d_pairs_witness :
  0 < pstep (scene ex_net) /\ 0 < dstep (scene ex_net)
  /\ inscene_valid ex_net /\ inscene_valid ex_net_both
  /\ (exists net',
        MultiCamera3D.update ex_net = Ok net'
        /\ fs_mu (model net') ex_dp == 0)
  /\ (exists net',
        MultiCamera3D.update ex_net_both = Ok net'
        /\ 1 # 2 <= fs_mu (model net') ex_dp).
Proof.
  assert (Hp : 0 < pstep (scene ex_net)) by reflexivity.
  assert (Hd : 0 < dstep (scene ex_net)) by reflexivity.
  assert (Hv : inscene_valid ex_net) by ex_net_valid.
  assert (Hv' : inscene_valid ex_net_both) by ex_net_valid.
  split; [exact Hp|]. split; [exact Hd|]. split; [exact Hv|].
  split; [exact Hv'|]. split.
  - destruct (update_3d_pairs ex_net Hp Hd Hv)
      as (net' & E & _ & _ & _ & _ & _ & Hzero).
    exists net'. split; [exact E|].
    apply (Hzero ex_A).
    + repeat constructor; simpl; intuition discriminate.
    + left. reflexivity.
    + reflexivity.
    + intros c [<- | [<- | []]] Hn;
        [contradiction Hn; reflexivity | reflexivity].
  - destruct (update_3d_pairs ex_net_both Hp Hd Hv')
      as (net' & E & _ & _ & _ & Hpair & _).
    exists net'. split; [exact E|].
    apply (Qle_trans _ (Qmin (inscene_mu ex_net_both ex_A ex_dp)
                             (inscene_mu ex_net_both ex_B ex_dp))).
    + vm_compute. discriminate.
    + apply Hpair; [left; reflexivity | right; left; reflexivity|].
      discriminate.
Defined.


(** * Further properties of the code *)

(** ** occluded: the cells that are tested *)

Lemma body_tests (sc : Scene) (su : Setup) (w : Walk) :
  body sc su w
  = if existsb (is_opaque sc) (tests su w) then Return true
    else Continue (next su w).
Proof.
  unfold body, tests, next.
  destruct (Qlt_bool 0 (exy w)), (Qlt_bool 0 (exz w)); simpl.
  - destruct (Qlt_bool _ _); simpl;
      repeat (destruct (is_opaque sc _); simpl; try reflexivity).
  - repeat (destruct (is_opaque sc _); simpl; try reflexivity).
  - repeat (destruct (is_opaque sc _); simpl; try reflexivity).
  - repeat (destruct (is_opaque sc _); simpl; try reflexivity).
Qed.

Lemma traverse_trace (sc : Scene) (su : Setup) (n : nat) :
  forall w b, traverse n sc su w = Some b ->
              b = existsb (is_opaque sc) (trace n su w).
Proof.
  induction n as [|n IH]; intros w b; simpl.
  - destruct (loop_test su w); [discriminate|]. intros H. injection H as <-.
    reflexivity.
  - destruct (loop_test su w); [|intros H; injection H as <-; reflexivity].
    rewrite body_tests, existsb_app.
    destruct (existsb (is_opaque sc) (tests su w)); simpl.
    + intros H. injection H as <-. reflexivity.
    + apply IH.
Qed.

Lemma setup_pstep (sc sc' : Scene) (p cam : Point) :
  pstep sc' = pstep sc -> setup sc' p cam = setup sc p cam.
Proof. intros E. unfold setup. rewrite E. reflexivity. Qed.

Lemma visited_pstep (sc sc' : Scene) (p cam : Point) :
  pstep sc' = pstep sc -> visited sc' p cam = visited sc p cam.
Proof.
  intros E. unfold visited, passes. rewrite (setup_pstep sc sc' p cam E), E.
  reflexivity.
Qed.

Lemma occluded_visited_same (sc : Scene) (p cam : Point) :
  ~ pstep sc == 0 ->
  occluded sc p cam = Ok (existsb (is_opaque sc) (visited sc p cam)).
Proof.
  intros Hs.
  pose proof (occluded_fuel_passes sc p cam _ (Nat.le_refl _)) as H.
  unfold occluded_fuel in H. rewrite (Qeq_bool_false _ _ Hs) in H.
  unfold visited. destruct (setup sc p cam) as [su w].
  cbn [fst snd existsb].
  destruct (is_opaque sc (P w)); cbn [orb]; [congruence|].
  destruct (traverse _ sc su w) as [b|] eqn:E; simpl in H; [|discriminate].
  apply traverse_trace in E. congruence.
Qed.

(** X2: marking more cells opaque never makes an occluded point visible:
    when every opaque cell of [sc] is opaque in [sc'] and the grid step
    is the same, a query that is true in [sc] is true in [sc']. *)
Theorem occluded_monotone (sc sc' : Scene) (p cam : Point) :
  ~ pstep sc == 0 -> pstep sc' = pstep sc ->
  (forall q, is_opaque sc q = true -> is_opaque sc' q = true) ->
  occluded sc p cam = Ok true -> occluded sc' p cam = Ok true.
Proof.
  intros Hs E Hsub H.
  rewrite (occluded_visited_same sc p cam Hs) in H.
  assert (Hs' : ~ pstep sc' == 0) by (rewrite E; exact Hs).
  rewrite (occluded_visited_same sc' p cam Hs'), (visited_pstep sc sc' p cam E).
  f_equal. remember (visited sc p cam) as l eqn:El. injection H as H.
  apply existsb_exists in H as (q & Hq & Ho).
  apply existsb_exists. exists q. split; [exact Hq | apply Hsub, Ho].
Qed.





(** ** Opacity of equal points *)

Lemma is_opaque_eqb (sc : Scene) (a b : Point) :
  Point_eqb a b = true -> is_opaque sc a = is_opaque sc b.
Proof.
  intros H. unfold is_opaque.
  induction (opaque sc) as [|c l IH]; simpl; [reflexivity|].
  rewrite (Point_eqb_trans a b c H), IH. reflexivity.
Qed.

(** ** generate_points: errors, opaque cells, length *)

Lemma for_yield_nil_or_raise {A B : Type} (l : list A) (f : A -> res (list B))
    (g : A -> bool) (e : exn) :
  (forall a, f a = if g a then Ok [] else Raise e) ->
  for_yield l f = if forallb g l then Ok [] else Raise e.
Proof.
  intros H. induction l as [|a l IH]; simpl; [reflexivity|].
  rewrite (H a). destruct (g a); simpl; [|reflexivity].
  rewrite IH. destruct (forallb g l); reflexivity.
Qed.

Lemma forallb_flat_map {A B : Type} (g : B -> bool) (f : A -> list B)
    (l : list A) :
  forallb g (flat_map f l) = forallb (fun a => forallb g (f a)) l.
Proof.
  induction l as [|a l IH]; simpl; [reflexivity|].
  rewrite forallb_app, IH. reflexivity.
Qed.

Lemma forallb_map {A B : Type} (g : B -> bool) (f : A -> B) (l : list A) :
  forallb g (map f l) = forallb (fun a => g (f a)) l.
Proof. induction l as [|a l IH]; simpl; congruence. Qed.

(** The outcomes of [generate_points], by the two steps and the opacity
    of the grid. *)
Lemma generate_points_outcome (sc : Scene) :
  generate_points sc
  = if Qeq_bool (pstep sc) 0 then Raise ZeroDivisionError
    else if Qeq_bool (dstep sc) 0 then
           if forallb (is_opaque sc) (spec_grid sc) then Ok []
           else Raise ZeroDivisionError
         else Ok (spec_points sc).
Proof.
  destruct (Qeq_bool (pstep sc) 0) eqn:Ep.
  { unfold generate_points, arange. rewrite Ep. reflexivity. }
  assert (Hp : ~ pstep sc == 0)
    by (intros E; apply Qeq_bool_iff in E; congruence).
  destruct (Qeq_bool (dstep sc) 0) eqn:Ed.
  2:{ apply generate_points_spec; [exact Hp|].
      intros E; apply Qeq_bool_iff in E; congruence. }
  unfold generate_points, spec_grid.
  rewrite (arange_samples _ _ _ Hp). simpl.
  rewrite forallb_flat_map.
  apply for_yield_nil_or_raise. intros x.
  rewrite (arange_samples _ _ _ Hp). simpl.
  rewrite forallb_flat_map.
  apply for_yield_nil_or_raise. intros y.
  rewrite (arange_samples _ _ _ Hp). simpl.
  rewrite forallb_map.
  apply for_yield_nil_or_raise. intros z.
  destruct (is_opaque sc (mkPoint x y z)); [reflexivity|].
  unfold directions_at, arange. rewrite Ed. reflexivity.
Qed.

(** X6: the three outcomes of [generate_points].  A zero [pstep]
    raises; with a zero [dstep] the generator raises at the first cell
    that is not opaque and yields nothing when there is none (an empty
    region, or all cells opaque); otherwise it yields the sequence
    [spec_points]. *)
Theorem generate_points_cases (sc : Scene) :
  generate_points sc
  = if Qeq_bool (pstep sc) 0 then Raise ZeroDivisionError
    else if Qeq_bool (dstep sc) 0 then
           if forallb (is_opaque sc) (spec_grid sc) then Ok []
           else Raise ZeroDivisionError
         else Ok (spec_points sc).
Proof.
  exact (generate_points_outcome sc).
Qed.

Lemma is_opaque_add_or (sc : Scene) (c q : Point) :
  is_opaque (opaque_add sc c) q = Point_eqb q c || is_opaque sc q.
Proof.
  unfold opaque_add. destruct (is_opaque sc c) eqn:E; [|reflexivity].
  destruct (Point_eqb q c) eqn:Eq; [|reflexivity]. simpl.
  rewrite (is_opaque_eqb sc q c Eq). exact E.
Qed.

Lemma opaque_add_fields (sc : Scene) (c : Point) :
  xr (opaque_add sc c) = xr sc /\ yr (opaque_add sc c) = yr sc
  /\ zr (opaque_add sc c) = zr sc /\ pstep (opaque_add sc c) = pstep sc
  /\ dstep (opaque_add sc c) = dstep sc.
Proof. unfold opaque_add. destruct (is_opaque sc c); repeat split. Qed.

(** X8: making a cell opaque removes from the generated sequence exactly
    the points at that cell; the other points stay, in their order. *)
Theorem generate_points_make_opaque (sc sc' : Scene) (c : Point) :
  ~ dstep sc == 0 ->
  make_opaque sc c = Ok sc' ->
  exists l,
    generate_points sc = Ok l
    /\ generate_points sc'
       = Ok (List.filter (fun dp => negb (Point_eqb (pos dp) c)) l).
Proof.
  intros Hd Hm.
  assert (Hp : ~ pstep sc == 0).
  { intros E. unfold make_opaque, py_mod in Hm.
    rewrite (proj2 (Qeq_bool_iff _ _) E) in Hm. discriminate. }
  apply make_opaque_inv in Hm as [-> _].
  destruct (opaque_add_fields sc c) as (Ex & Ey & Ez & Eps & Eds).
  exists (spec_points sc). split; [apply generate_points_spec; assumption|].
  rewrite generate_points_spec by (rewrite ?Eps, ?Eds; assumption). f_equal.
  unfold spec_points at 2. rewrite filter_flat_map.
  unfold spec_points, spec_grid. rewrite Ex, Ey, Ez, Eps.
  apply flat_map_ext. intros c'.
  assert (Edir : spec_directions (opaque_add sc c) c' = spec_directions sc c')
    by (unfold spec_directions, spec_rhos, spec_etas; rewrite Eds; reflexivity).
  rewrite is_opaque_add_or, Edir.
  rewrite (filter_const _ (negb (Point_eqb c' c))).
  - destruct (Point_eqb c' c); simpl; [reflexivity|].
    destruct (is_opaque sc c'); reflexivity.
  - intros dp Hdp. destruct (is_opaque sc c'); [destruct Hdp|].
    rewrite (spec_directions_pos sc c' dp Hdp). reflexivity.
Qed.

Lemma length_flat_map_const {A B : Type} (f : A -> list B) (n : nat)
    (keep : A -> bool) (l : list A) :
  (forall a, length (f a) = if keep a then n else 0%nat) ->
  length (flat_map f l) = (length (List.filter keep l) * n)%nat.
Proof.
  intros H. induction l as [|a l IH]; simpl; [reflexivity|].
  rewrite length_app, H, IH. destruct (keep a); simpl; lia.
Qed.

Lemma spec_directions_length (sc : Scene) (c c' : Point) :
  length (spec_directions sc c) = length (spec_directions sc c').
Proof.
  unfold spec_directions.
  induction (spec_rhos sc) as [|r l IH]; simpl; [reflexivity|].
  rewrite !length_app, IH. destruct (is_pole r); [reflexivity|].
  rewrite !length_map. reflexivity.
Qed.

(** X9: the length of the generated sequence is the number of grid
    cells that are not opaque times the number of directions sampled at
    one cell. *)
Theorem generate_points_length (sc : Scene) (c0 : Point) :
  ~ pstep sc == 0 -> ~ dstep sc == 0 ->
  exists l, generate_points sc = Ok l
    /\ length l
       = (length (List.filter (fun c => negb (is_opaque sc c)) (spec_grid sc))
          * length (spec_directions sc c0))%nat.
Proof.
  intros Hp Hd. exists (spec_points sc).
  split; [apply generate_points_spec; assumption|].
  unfold spec_points. apply length_flat_map_const. intros c.
  destruct (is_opaque sc c); simpl; [reflexivity|].
  apply spec_directions_length.
Qed.

(** ** Exceptions of Camera.mu *)

Section CameraEdges.
Context {Pose : Type} {G : Geometry Pose} {M : MathLib}.

(** X11: the exceptions of [Camera.mu].  An argument that is not a Point
    raises [TypeError], and only such an argument does.  A
    [ZeroDivisionError] leaves [mu] only for a point that is directional
    in the camera frame and a [zeta] that is zero: the divisions by the
    depth and by the radius are caught.  Such a point and such a [zeta]
    always make [mu] raise, and a point that is not directional in the
    camera frame never does. *)
Theorem mu_raises (cam : Camera Pose) (dpoint : Argument) :
  (Camera_mu cam dpoint = Raise TypeError <-> dpoint = NotPoint)
  /\ (Camera_mu cam dpoint = Raise ZeroDivisionError ->
      exists t, dpoint = IsPoint t
                /\ is_directed (campoint cam t) = true /\ zeta cam == 0)
  /\ (forall t, dpoint = IsPoint t ->
        is_directed (campoint cam t) = true -> zeta cam == 0 ->
        exists e, Camera_mu cam dpoint = Raise e)
  /\ (forall t, dpoint = IsPoint t ->
        is_directed (campoint cam t) = false ->
        exists v, Camera_mu cam dpoint = Ok v).
Proof.
  assert (Hmu : forall t e, mu cam t = Raise e ->
                  e = ZeroDivisionError
                  /\ is_directed (campoint cam t) = true /\ zeta cam == 0).
  { intros t e.
    destruct (mu_v_range cam (position (campoint cam t))) as (v & Ev & _).
    unfold mu. rewrite Ev. cbn [bind].
    destruct (is_directed (campoint cam t)) eqn:Ed.
    - destruct (Qeq_dec (zeta cam) 0) as [Ez | Hz].
      + rewrite (mu_d_zero_zeta cam _ Ed Ez). cbn [bind].
        intros H. injection H as <-. auto.
      + destruct (mu_d_range cam (campoint cam t) (fun _ => Hz))
          as (dd & -> & _). discriminate.
    - destruct (mu_d_range cam (campoint cam t)) as (dd & -> & _);
        [congruence | discriminate]. }
  split; [|split; [|split]].
  - destruct dpoint as [t|]; cbn [Camera_mu].
    + split; [|discriminate]. intros H.
      destruct (Hmu t _ H) as [E _]. discriminate E.
    + split; reflexivity.
  - destruct dpoint as [t|]; cbn [Camera_mu]; [|discriminate].
    intros H. exists t. destruct (Hmu t _ H) as (_ & Hd & Hz). auto.
  - intros t -> Hd Hz. cbn [Camera_mu].
    destruct (mu_v_range cam (position (campoint cam t))) as (v & Ev & _).
    exists ZeroDivisionError. unfold mu. rewrite Ev. cbn [bind].
    rewrite (mu_d_zero_zeta cam _ Hd Hz). reflexivity.
  - intros t -> Hd. cbn [Camera_mu].
    destruct (mu cam t) as [v|e] eqn:E; [exists v; reflexivity|].
    destruct (Hmu t e E) as (_ & Hd' & _). congruence.
Qed.
End CameraEdges.

(** ** Camera.__init__ *)


Section CameraInitProperties.
Context {Pose : Type} {G : Geometry Pose} {M : MathLib}.





(** X14: [Camera.__init__] raises [ZeroDivisionError] for a zero focal
    length, and also, with a non-zero focal length, for a zero sensor
    width or, with a non-zero width, for a zero sensor height: the
    divisions by [2 f], [w] and [h] come first. *)
Theorem Camera_init_zero (n : string)
    (A f su sv ou ov w h zS gamma r1 r2 cmax zt : Q) (ps : Pose) :
  f == 0 \/ (~ f == 0 /\ w == 0) \/ (~ f == 0 /\ ~ w == 0 /\ h == 0) ->
  Camera_init n A f su sv ou ov w h zS gamma r1 r2 cmax zt ps
  = Raise ZeroDivisionError.
Proof.
  intros H. unfold Camera_init.
  destruct H as [Hf | [[Hf Hw] | (Hf & Hw & Hh)]].
  - unfold py_div at 1.
    rewrite (proj2 (Qeq_bool_iff (2 * f) 0)) by (rewrite Hf; ring).
    reflexivity.
  - assert (E2 : Qeq_bool (2 * f) 0 = false)
      by (apply Qeq_bool_false; intros E; apply Hf; lra).
    unfold py_div. rewrite E2. cbn [bind].
    rewrite (proj2 (Qeq_bool_iff w 0) Hw). reflexivity.
  - assert (E2 : Qeq_bool (2 * f) 0 = false)
      by (apply Qeq_bool_false; intros E; apply Hf; lra).
    unfold py_div. rewrite E2. cbn [bind].
    rewrite (Qeq_bool_false w 0 Hw). cbn [bind].
    rewrite (proj2 (Qeq_bool_iff h 0) Hh). reflexivity.
Qed.
End CameraInitProperties.

(** ** Networks: the two policies on the networks that the program builds *)

Section NetworkMore.
Context {Pose : Type} {G : Geometry Pose} {M : MathLib}.

Lemma update_simple_mu (net : MultiCamera Pose) :
  inscene_valid net ->
  exists m,
    MultiCameraSimple.update net
    = Ok (mkMultiCamera (cameras net) (scene net) (inscene net) m)
    /\ fs_valid m
    /\ forall k, fs_mu m k == union_mu net (cameras net) k.
Proof.
  intros Hv.
  destruct (union_cameras_mu net (cameras net) Hv (incl_refl _) []
              fs_valid_nil) as (m & E & Hm & Hmu).
  exists m. unfold MultiCameraSimple.update. rewrite E.
  split; [reflexivity|]. split; [exact Hm|].
  intros k. rewrite Hmu. apply Q.max_r.
  apply (union_mu_range net (cameras net) k Hv (incl_refl _)).
Qed.

Lemma update_3d_mu (net : MultiCamera Pose) (pts : list DirectionalPoint) :
  inscene_valid net -> generate_points (scene net) = Ok pts ->
  exists m,
    MultiCamera3D.update net
    = Ok (mkMultiCamera (cameras net) (scene net) (inscene net) m)
    /\ fs_valid m
    /\ forall k, fs_mu m k == pairwise_mu net (combinations2 (cameras net)) k.
Proof.
  intros Hv Hg.
  assert (Hps : forall ab, In ab (combinations2 (cameras net)) ->
                  In (fst ab) (cameras net) /\ In (snd ab) (cameras net))
    by (intros [a b]; apply combinations2_In).
  destruct (pair_intersections_mu net _ Hv Hps) as (l & El & Hl).
  set (m0 := FuzzySet_of (map (fun dpoint => mkFE dpoint 0) pts)).
  assert (Hm0 : forall k, fs_mu m0 k = 0) by (intros k; apply fs_mu_zeros).
  assert (Hv0 : fs_valid m0) by (intros k; rewrite Hm0; lra).
  assert (Hall : forall k, fs_mu (MultiCamera3D.union_all m0 l) k
                   == pairwise_mu net (combinations2 (cameras net)) k).
  { intros k. rewrite (Hl m0 Hv0 k), Hm0. apply Q.max_r.
    apply (pairwise_mu_range net _ k Hv Hps). }
  exists (MultiCamera3D.union_all m0 l). unfold MultiCamera3D.update.
  rewrite Hg. cbn [bind]. rewrite El. cbn [bind].
  split; [reflexivity|]. split; [|exact Hall].
  intros k. rewrite Hall. apply (pairwise_mu_range net _ k Hv Hps).
Qed.

(** X15: on every network built by the constructor, [add] and [update],
    there is one camera per name and every camera has an in-scene set
    with degrees in [[0, 1]]; so [MultiCameraSimple.update] never raises
    a [KeyError], [MultiCamera3D.update] returns whenever
    [generate_points] does, and the degrees of the model that either
    computes are in [[0, 1]]. *)
Theorem built_update (net : MultiCamera Pose) :
  built net ->
  List.NoDup (map name (cameras net))
  /\ inscene_valid net
  /\ (exists net', MultiCameraSimple.update net = Ok net'
                   /\ fs_valid (model net'))
  /\ (forall pts, generate_points (scene net) = Ok pts ->
        exists net', MultiCamera3D.update net = Ok net'
                     /\ fs_valid (model net')).
Proof.
  intros Hb. destruct (built_invariant net Hb) as [Hv Hn].
  split; [exact Hn|]. split; [exact Hv|]. split.
  - destruct (update_simple_mu net Hv) as (m & E & Hm & _).
    eexists. split; [exact E | exact Hm].
  - intros pts Hg. destruct (update_3d_mu net pts Hv Hg) as (m & E & Hm & _).
    eexists. split; [exact E | exact Hm].
Qed.

Lemma pairwise_mu_upper (net : MultiCamera Pose)
    (ps : list (Camera Pose * Camera Pose)) (v : Q) (k : DirectionalPoint) :
  0 <= v ->
  (forall ab, In ab ps ->
     Qmin (inscene_mu net (fst ab) k) (inscene_mu net (snd ab) k) <= v) ->
  pairwise_mu net ps k <= v.
Proof.
  intros Hv. induction ps as [|ab ps IH]; intros H; simpl; [exact Hv|].
  apply Q.max_lub.
  - apply H. left. reflexivity.
  - apply IH. intros x Hx. apply H. right. exact Hx.
Qed.

(** X16: the coverage of the pairwise policy never exceeds the coverage
    of the simple policy: at every point the degree in the model of
    [MultiCamera3D.update] is at most the degree in the model of
    [MultiCameraSimple.update]. *)
Theorem update_3d_le_simple (net n3 ns : MultiCamera Pose) :
  inscene_valid net ->
  MultiCamera3D.update net = Ok n3 ->
  MultiCameraSimple.update net = Ok ns ->
  forall k, fs_mu (model n3) k <= fs_mu (model ns) k.
Proof.
  intros Hv H3 Hs k.
  destruct (update_simple_mu net Hv) as (ms & Es & _ & Hms).
  rewrite Es in Hs. injection Hs as <-.
  destruct (generate_points (scene net)) as [pts|] eqn:Hg.
  2:{ unfold MultiCamera3D.update in H3. rewrite Hg in H3. discriminate. }
  destruct (update_3d_mu net pts Hv Hg) as (m3 & E3 & _ & Hm3).
  rewrite E3 in H3. injection H3 as <-. cbn [model].
  rewrite Hm3, Hms.
  apply pairwise_mu_upper.
  - apply (union_mu_range net (cameras net) k Hv (incl_refl _)).
  - intros [a b] Hab. cbn [fst snd].
    destruct (combinations2_In _ a b Hab) as [Ha _].
    pose proof (Q.le_min_l (inscene_mu net a k) (inscene_mu net b k)).
    pose proof (union_mu_lower net (cameras net) a k Ha). lra.
Qed.

(** X17: with fewer than two cameras there is no pair: the pairwise
    policy gives degree 0 to every point, and no in-scene set is looked
    up. *)
Theorem update_3d_few_cameras (net : MultiCamera Pose)
    (pts : list DirectionalPoint) :
  (length (cameras net) < 2)%nat ->
  generate_points (scene net) = Ok pts ->
  exists net', MultiCamera3D.update net = Ok net'
               /\ forall k, fs_mu (model net') k = 0.
Proof.
  intros Hlen Hg. unfold MultiCamera3D.update. rewrite Hg. cbn [bind].
  assert (Ec : combinations2 (cameras net) = []).
  { destruct (cameras net) as [|a [|b l]]; simpl in *; [reflexivity..|lia]. }
  rewrite Ec. cbn [MultiCamera3D.pair_intersections bind].
  eexists. split; [reflexivity|]. intros k. cbn [model].
  unfold MultiCamera3D.union_all. cbn [fold_left]. apply fs_mu_zeros.
Qed.
End NetworkMore.

(** ** Networks: the order of the cameras *)

Section NetworkOrder.
Context {Pose : Type}.

Lemma union_mu_perm (net : MultiCamera Pose) (cs cs' : list (Camera Pose))
    (k : DirectionalPoint) :
  Permutation cs cs' -> union_mu net cs k == union_mu net cs' k.
Proof.
  induction 1 as [|c l l' Hp IH | a b l | l l' l'' H1 IH1 H2 IH2]; simpl.
  - reflexivity.
  - rewrite IH. reflexivity.
  - rewrite !Q.max_assoc.
    rewrite (Q.max_comm (inscene_mu net b k) (inscene_mu net a k)).
    reflexivity.
  - rewrite IH1. exact IH2.
Qed.

(** A permutation keeps the pairs of [combinations], up to the order
    inside a pair. *)
Lemma combinations2_perm {A : Type} (l l' : list A) (a b : A) :
  Permutation l l' ->
  In (a, b) (combinations2 l) ->
  In (a, b) (combinations2 l') \/ In (b, a) (combinations2 l').
Proof.
  intros Hp. revert a b.
  induction Hp as [|x l l' Hp IH | x y l | l l' l'' H1 IH1 H2 IH2];
    intros a b; simpl.
  - tauto.
  - rewrite !in_app_iff, !in_map_iff.
    intros [(z & E & Hz) | H].
    + injection E as <- <-. left. left. exists z. split; [reflexivity|].
      apply (Permutation_in _ Hp Hz).
    + destruct (IH a b H) as [H' | H']; tauto.
  - rewrite !in_app_iff, !in_map_iff.
    intros [E | [(z & E & Hz) | [(z & E & Hz) | H]]].
    + injection E as <- <-. right. left. reflexivity.
    + injection E as <- <-. left. right. right. left. exists z. tauto.
    + injection E as <- <-. left. right. left. exists z. tauto.
    + left. right. right. right. exact H.
  - intros H. destruct (IH1 a b H) as [H' | H'].
    + apply IH2, H'.
    + destruct (IH2 b a H') as [H'' | H'']; tauto.
Qed.

Lemma pairwise_mu_perm_le (net : MultiCamera Pose) (cs cs' : list (Camera Pose))
    (k : DirectionalPoint) :
  Permutation cs cs' ->
  0 <= pairwise_mu net (combinations2 cs') k ->
  pairwise_mu net (combinations2 cs) k <= pairwise_mu net (combinations2 cs') k.
Proof.
  intros Hp H0. apply pairwise_mu_upper; [exact H0|].
  intros [a b] Hab. cbn [fst snd].
  destruct (combinations2_perm cs cs' a b Hp Hab) as [H | H].
  - apply (pairwise_mu_lower net _ (a, b) k H).
  - rewrite Q.min_comm. apply (pairwise_mu_lower net _ (b, a) k H).
Qed.

Lemma pairwise_mu_nonneg (net : MultiCamera Pose)
    (ps : list (Camera Pose * Camera Pose)) (k : DirectionalPoint) :
  0 <= pairwise_mu net ps k.
Proof.
  induction ps as [|x l IH]; simpl; [apply Qle_refl|].
  apply (Qle_trans _ _ _ IH). apply Q.le_max_r.
Qed.

Lemma inscene_valid_perm (net : MultiCamera Pose) (cs' : list (Camera Pose)) :
  Permutation (cameras net) cs' -> inscene_valid net ->
  inscene_valid (mkMultiCamera cs' (scene net) (inscene net) (model net)).
Proof.
  intros Hp Hv c Hc. cbn [cameras inscene] in *.
  apply Hv. apply (Permutation_in _ (Permutation_sym Hp) Hc).
Qed.

(** X18: the models of the two policies do not depend on the order in
    which the set of cameras is iterated: with the cameras in another
    order both [update] functions return models with the same degree at
    every point. *)
Theorem update_order (net : MultiCamera Pose) (cs' : list (Camera Pose))
    (pts : list DirectionalPoint) :
  Permutation (cameras net) cs' ->
  inscene_valid net ->
  generate_points (scene net) = Ok pts ->
  let net' := mkMultiCamera cs' (scene net) (inscene net) (model net) in
  (exists n1 n2,
      MultiCameraSimple.update net = Ok n1
      /\ MultiCameraSimple.update net' = Ok n2
      /\ forall k, fs_mu (model n1) k == fs_mu (model n2) k)
  /\ (exists n1 n2,
        MultiCamera3D.update net = Ok n1
        /\ MultiCamera3D.update net' = Ok n2
        /\ forall k, fs_mu (model n1) k == fs_mu (model n2) k).
Proof.
  intros Hp Hv Hg net'.
  pose proof (inscene_valid_perm net cs' Hp Hv) as Hv'. fold net' in Hv'.
  split.
  - destruct (update_simple_mu net Hv) as (m1 & E1 & _ & H1).
    destruct (update_simple_mu net' Hv') as (m2 & E2 & _ & H2).
    eexists. eexists. split; [exact E1|]. split; [exact E2|].
    intros k. cbn [model]. rewrite H1, H2. subst net'. cbn [cameras].
    change (union_mu net (cameras net) k == union_mu net cs' k).
    apply (union_mu_perm net _ _ k Hp).
  - destruct (update_3d_mu net pts Hv Hg) as (m1 & E1 & _ & H1).
    destruct (update_3d_mu net' pts Hv' Hg) as (m2 & E2 & _ & H2).
    eexists. eexists. split; [exact E1|]. split; [exact E2|].
    intros k. cbn [model]. rewrite H1, H2. subst net'. cbn [cameras].
    change (pairwise_mu net (combinations2 (cameras net)) k
            == pairwise_mu net (combinations2 cs') k).
    apply Qle_antisym.
    + apply pairwise_mu_perm_le; [exact Hp | apply pairwise_mu_nonneg].
    + apply pairwise_mu_perm_le;
        [apply Permutation_sym, Hp | apply pairwise_mu_nonneg].
Qed.
End NetworkOrder.

(** ** Networks: errors and frame of add and _update_inscene *)

Section NetworkAdd.
Context {Pose : Type} {G : Geometry Pose} {M : MathLib}.

Lemma generate_points_Raise (sc : Scene) (e : exn) :
  generate_points sc = Raise e ->
  e = ZeroDivisionError /\ (pstep sc == 0 \/ dstep sc == 0).
Proof.
  rewrite generate_points_outcome.
  destruct (Qeq_bool (pstep sc) 0) eqn:Ep.
  - intros H. injection H as <-. split; [reflexivity|].
    left. apply Qeq_bool_iff, Ep.
  - destruct (Qeq_bool (dstep sc) 0) eqn:Ed; [|discriminate].
    destruct (forallb _ _); [discriminate|].
    intros H. injection H as <-. split; [reflexivity|].
    right. apply Qeq_bool_iff, Ed.
Qed.


Lemma mu_Raise (cam : Camera Pose) (t : Target) (e : exn) :
  mu cam t = Raise e -> e = ZeroDivisionError /\ zeta cam == 0.
Proof.
  intros H. destruct (Qeq_dec (zeta cam) 0) as [Ez | Hz].
  - split; [|exact Ez]. unfold mu in H.
    destruct (mu_v_range cam (position (campoint cam t))) as (v & Ev & _).
    rewrite Ev in H. simpl in H.
    destruct (is_directed (campoint cam t)) eqn:Ed.
    + rewrite (mu_d_zero_zeta cam _ Ed Ez) in H. simpl in H. congruence.
    + destruct (mu_d_range cam (campoint cam t)) as (dd & Edd & _);
        [congruence|].
      rewrite Edd in H. discriminate.
  - destruct (mu_total cam t Hz) as (v & Ev & _). congruence.
Qed.

Lemma occluded_Raise (sc : Scene) (p cam : Point) (e : exn) :
  occluded sc p cam = Raise e -> e = ZeroDivisionError /\ pstep sc == 0.
Proof.
  intros H. destruct (Qeq_dec (pstep sc) 0) as [E | Hs].
  - split; [|exact E]. unfold occluded, occluded_fuel in H.
    rewrite (proj2 (Qeq_bool_iff _ _) E) in H. congruence.
  - destruct (occluded_Ok sc p cam Hs) as [b Hb]. congruence.
Qed.

Lemma inscene_loop_Raise (net : MultiCamera Pose) (key : string)
    (cam : Camera Pose) (pts : list DirectionalPoint) :
  net_getitem net key = Ok cam ->
  forall acc e,
    inscene_loop net key pts acc = Raise e ->
    e = ZeroDivisionError /\ (pstep (scene net) == 0 \/ zeta cam == 0).
Proof.
  intros Hg. induction pts as [|dp pts IH]; intros acc e H; simpl in H.
  - discriminate.
  - rewrite Hg in H. simpl in H.
    destruct (mu cam (Directed dp)) as [v|e'] eqn:Emu; simpl in H.
    + destruct (Qlt_bool 0 v); [|exact (IH _ _ H)].
      destruct (occluded _ _ _) as [b|e'] eqn:Eo; simpl in H.
      * destruct b; simpl in H; exact (IH _ _ H).
      * injection H as <-. destruct (occluded_Raise _ _ _ _ Eo) as [-> E].
        auto.
    + injection H as <-. destruct (mu_Raise _ _ _ Emu) as [-> E]. auto.
Qed.

Lemma net_getitem_None (net : MultiCamera Pose) (key : string) :
  net_getitem net key = Raise KeyError
  <-> forall c, In c (cameras net) -> name c <> key.
Proof.
  unfold net_getitem. destruct (find _ _) as [c|] eqn:E.
  - split; [discriminate|]. intros H. apply find_some in E as [Hin Hn].
    apply String.eqb_eq in Hn. destruct (H c Hin Hn).
  - split; [|reflexivity]. intros _ c Hin Hn.
    pose proof (find_none _ _ E c Hin) as Hc. simpl in Hc.
    rewrite Hn, String.eqb_refl in Hc. discriminate.
Qed.

Lemma IndexedSet_add_fields (net : MultiCamera Pose) (item : Camera Pose) :
  scene (IndexedSet_add net item) = scene net
  /\ inscene (IndexedSet_add net item) = inscene net
  /\ model (IndexedSet_add net item) = model net.
Proof.
  unfold IndexedSet_add. destruct (existsb _ _); repeat split; reflexivity.
Qed.

Lemma update_inscene_KeyError (net : MultiCamera Pose) (key : string) :
  _update_inscene net key = Raise KeyError
  <-> (forall c, In c (cameras net) -> name c <> key)
      /\ exists dp pts, generate_points (scene net) = Ok (dp :: pts).
Proof.
  rewrite <- net_getitem_None. unfold _update_inscene. split.
  - intros H.
    destruct (generate_points (scene net)) as [[|dp pts]|e'] eqn:Egen;
      cbn [bind] in H.
    + discriminate.
    + destruct (inscene_loop net key (dp :: pts) []) as [l|e'] eqn:El;
        cbn [bind] in H; [discriminate|].
      injection H as ->.
      destruct (net_getitem net key) as [cam|e'] eqn:Hg.
      * destruct (inscene_loop_Raise net key cam (dp :: pts) Hg [] _ El)
          as [E _].
        discriminate E.
      * split; [|eauto]. unfold net_getitem in Hg |- *.
        destruct (find _ _); [discriminate | congruence].
    + injection H as H. destruct (generate_points_Raise _ _ Egen) as [E _].
      congruence.
  - intros (Hg & dp & pts & ->). simpl. rewrite Hg. reflexivity.
Qed.

(** X19: [add] raises a [KeyError] exactly for an item that is not a
    Camera, that has the name of no camera of the network, in a scene
    that generates at least one point: the item is not put into the set
    and [self[ key ]] fails at the first point.  The [add] of a Camera
    never raises a [KeyError].  With a zero grid step every [add]
    raises [ZeroDivisionError]. *)
Theorem add_raises (net : MultiCamera Pose) (item : Item) :
  (add_item net item = Raise KeyError
   <-> exists n, item = OtherItem n
                 /\ (forall c, In c (cameras net) -> name c <> n)
                 /\ exists dp pts,
                      generate_points (scene net) = Ok (dp :: pts))
  /\ (forall c, item = CameraItem c -> add_item net item <> Raise KeyError)
  /\ (pstep (scene net) == 0 ->
      add_item net item = Raise ZeroDivisionError).
Proof.
  assert (Hcam : forall c, add net c <> Raise KeyError).
  { intros c H.
    destruct (IndexedSet_add_fields net c) as (Esc & Ein & Emo).
    destruct (net_getitem_added net c) as (cam & Hg & _).
    unfold add, _update_inscene in H. rewrite Esc in H.
    destruct (generate_points (scene net)) as [pts|e'] eqn:Egen;
      cbn [bind] in H.
    - destruct (inscene_loop _ _ pts []) as [l|e'] eqn:El; cbn [bind] in H;
        [discriminate|].
      injection H as ->.
      destruct (inscene_loop_Raise _ _ cam pts Hg _ _ El) as [E _].
      discriminate E.
    - injection H as ->.
      destruct (generate_points_Raise _ _ Egen) as [E _]. discriminate E. }
  split; [|split].
  - destruct item as [c|n]; cbn [add_item].
    + split; [intros H; destruct (Hcam c H)|].
      intros (n & E & _). discriminate E.
    + rewrite update_inscene_KeyError. split.
      * intros H. exists n. split; [reflexivity | exact H].
      * intros (n' & E & H). injection E as <-. exact H.
  - intros c ->. cbn [add_item]. apply Hcam.
  - intros E. destruct item as [c|n]; cbn [add_item].
    + destruct (IndexedSet_add_fields net c) as (Esc & _).
      unfold add, _update_inscene. rewrite Esc.
      rewrite generate_points_outcome, (proj2 (Qeq_bool_iff _ _) E).
      reflexivity.
    + unfold _update_inscene.
      rewrite generate_points_outcome, (proj2 (Qeq_bool_iff _ _) E).
      reflexivity.
Qed.

(** X20: [_update_inscene] raises a [KeyError] exactly when no camera
    has the name and the scene generates at least one point: for a name
    that no camera has and a scene without points it stores an empty
    set. *)
Theorem update_inscene_unknown_key (net : MultiCamera Pose) (key : string) :
  (_update_inscene net key = Raise KeyError
   <-> (forall c, In c (cameras net) -> name c <> key)
       /\ exists dp pts, generate_points (scene net) = Ok (dp :: pts))
  /\ ((forall c, In c (cameras net) -> name c <> key) ->
      generate_points (scene net) = Ok [] ->
      _update_inscene net key
      = Ok (mkMultiCamera (cameras net) (scene net)
                          (<[key := []]> (inscene net)) (model net))).
Proof.
  split.
  - rewrite <- net_getitem_None. unfold _update_inscene. split.
    + intros H.
      destruct (generate_points (scene net)) as [[|dp pts]|e'] eqn:Egen;
        cbn [bind] in H.
      * discriminate.
      * destruct (inscene_loop net key (dp :: pts) []) as [l|e'] eqn:El;
          cbn [bind] in H; [discriminate|].
        injection H as ->.
        destruct (net_getitem net key) as [cam|e'] eqn:Hg.
        -- destruct (inscene_loop_Raise net key cam (dp :: pts) Hg [] _ El)
             as [E _].
           discriminate E.
        -- split; [|eauto]. unfold net_getitem in Hg |- *.
           destruct (find _ _); [discriminate | congruence].
      * injection H as H. destruct (generate_points_Raise _ _ Egen) as [E _].
        congruence.
    + intros (Hg & dp & pts & ->). simpl. rewrite Hg. reflexivity.
  - intros _ E. unfold _update_inscene. rewrite E. reflexivity.
Qed.
End NetworkAdd.

Section NetworkAddFrame.
Context {Pose : Type} {G : Geometry Pose} {M : MathLib}.

Lemma IndexedSet_add_incl (net : MultiCamera Pose) (item c : Camera Pose) :
  In c (cameras net) -> In c (cameras (IndexedSet_add net item)).
Proof.
  unfold IndexedSet_add. destruct (existsb _ _); simpl; [tauto|].
  rewrite in_app_iff. tauto.
Qed.

(** X21: what [add] leaves alone.  The scene and the model are
    unchanged (the model is stale until the next [update]), the cameras
    that were in the network stay, at most one camera is new, and the
    in-scene sets under the other names are untouched; the set stored
    under the name of the item has its degrees in [[0, 1]]. *)
Theorem add_frame (net net' : MultiCamera Pose) (item : Camera Pose) :
  add net item = Ok net' ->
  scene net' = scene net
  /\ model net' = model net
  /\ (forall c, In c (cameras net) -> In c (cameras net'))
  /\ (forall c, In c (cameras net') -> In c (cameras net) \/ c = item)
  /\ (exists c, In c (cameras net') /\ name c = name item)
  /\ (forall key, key <> name item ->
        inscene net' !! key = inscene net !! key)
  /\ exists fs, inscene net' !! name item = Some fs /\ fs_valid fs.
Proof.
  intros H. destruct (IndexedSet_add_fields net item) as (Esc & Ein & Emo).
  destruct (net_getitem_added net item) as (cam & Hg & Hn & _).
  unfold add, _update_inscene in H. rewrite Esc, Ein, Emo in H.
  destruct (generate_points (scene net)) as [pts|]; cbn [bind] in H;
    [|discriminate].
  destruct (inscene_loop _ _ pts []) as [l|] eqn:El; cbn [bind] in H;
    [|discriminate].
  injection H as <-. cbn [scene model cameras inscene].
  split; [reflexivity|]. split; [reflexivity|].
  split; [intros c; apply IndexedSet_add_incl|]. split; [|split; [|split]].
  - intros c. unfold IndexedSet_add. destruct (existsb _ _); simpl; [tauto|].
    rewrite in_app_iff. simpl. intros [Hc | [<- | []]]; tauto.
  - exists cam. split; [|exact Hn]. unfold net_getitem in Hg.
    destruct (find _ _) as [c|] eqn:Ef; [|discriminate].
    injection Hg as <-. apply find_some in Ef. tauto.
  - intros key Hk. apply lookup_insert_ne. congruence.
  - exists (FuzzySet_of l). split; [apply lookup_insert_eq|].
    apply fs_valid_of. apply (inscene_loop_range _ _ _ _ _ El). constructor.
Qed.


End NetworkAddFrame.

(** ** Networks: update recomputes the model *)

Section NetworkRecompute.
Context {Pose : Type}.

Lemma union_cameras_inscene (n1 n2 : MultiCamera Pose)
    (cs : list (Camera Pose)) :
  inscene n1 = inscene n2 ->
  forall m, MultiCameraSimple.union_cameras n1 cs m
            = MultiCameraSimple.union_cameras n2 cs m.
Proof.
  intros E. induction cs as [|c cs IH]; intros m; simpl; [reflexivity|].
  unfold inscene_getitem. rewrite E.
  destruct (inscene n2 !! name c); simpl; [apply IH | reflexivity].
Qed.

Lemma pair_intersections_inscene (n1 n2 : MultiCamera Pose)
    (ps : list (Camera Pose * Camera Pose)) :
  inscene n1 = inscene n2 ->
  MultiCamera3D.pair_intersections n1 ps
  = MultiCamera3D.pair_intersections n2 ps.
Proof.
  intros E. induction ps as [|[a b] ps IH]; simpl; [reflexivity|].
  unfold inscene_getitem. rewrite E, IH. reflexivity.
Qed.

(** X23: both [update] functions rebuild the model from the cameras, the
    scene and the in-scene sets alone: the model that the network had
    does not enter the result, and a second [update] returns the network
    of the first. *)
Theorem update_recomputes (net : MultiCamera Pose) (m0 : FuzzySet) :
  let net0 := mkMultiCamera (cameras net) (scene net) (inscene net) m0 in
  MultiCameraSimple.update net0 = MultiCameraSimple.update net
  /\ MultiCamera3D.update net0 = MultiCamera3D.update net
  /\ (forall n1, MultiCameraSimple.update net = Ok n1 ->
                 MultiCameraSimple.update n1 = Ok n1)
  /\ (forall n1, MultiCamera3D.update net = Ok n1 ->
                 MultiCamera3D.update n1 = Ok n1).
Proof.
  intros net0.
  assert (Hs : forall n1 n2 : MultiCamera Pose,
             cameras n1 = cameras n2 -> scene n1 = scene n2 ->
             inscene n1 = inscene n2 ->
             MultiCameraSimple.update n1 = MultiCameraSimple.update n2).
  { intros n1 n2 Ec Es Ei. unfold MultiCameraSimple.update.
    rewrite Ec, Es, Ei, (union_cameras_inscene n1 n2 _ Ei). reflexivity. }
  assert (H3 : forall n1 n2 : MultiCamera Pose,
             cameras n1 = cameras n2 -> scene n1 = scene n2 ->
             inscene n1 = inscene n2 ->
             MultiCamera3D.update n1 = MultiCamera3D.update n2).
  { intros n1 n2 Ec Es Ei. unfold MultiCamera3D.update.
    rewrite Ec, Es, Ei, (pair_intersections_inscene n1 n2 _ Ei).
    reflexivity. }
  split; [apply Hs; reflexivity|]. split; [apply H3; reflexivity|]. split.
  - intros n1 E. rewrite <- E. apply Hs;
      unfold MultiCameraSimple.update in E;
      destruct (MultiCameraSimple.union_cameras _ _ _); simpl in E;
      try discriminate; injection E as <-; reflexivity.
  - intros n1 E. rewrite <- E. apply H3;
      unfold MultiCamera3D.update in E;
      destruct (generate_points _); simpl in E; try discriminate;
      destruct (MultiCamera3D.pair_intersections _ _); simpl in E;
      try discriminate; injection E as <-; reflexivity.
Qed.
End NetworkRecompute.

(** ** Networks: the constructor against a sequence of add calls *)

Section NetworkConstructor.
Context {Pose : Type} {G : Geometry Pose} {M : MathLib}.

Lemma find_app_first {A : Type} (f : A -> bool) (l r : list A) (x : A) :
  existsb f l = false -> f x = true -> find f (l ++ x :: r) = Some x.
Proof.
  induction l as [|a l IH]; simpl; intros H Hx; [rewrite Hx; reflexivity|].
  destruct (f a); [discriminate|]. apply IH; assumption.
Qed.

Lemma name_fresh (pre post : list (Camera Pose)) (c : Camera Pose) :
  List.NoDup (map name (pre ++ c :: post)) ->
  existsb (fun x => String.eqb (name x) (name c)) pre = false.
Proof.
  intros Hn. rewrite map_app in Hn. simpl in Hn.
  apply NoDup_remove_2 in Hn.
  destruct (existsb _ pre) eqn:E; [|reflexivity].
  apply existsb_exists in E as (x & Hx & Hn').
  apply String.eqb_eq in Hn'. destruct Hn.
  apply in_app_iff. left. rewrite <- Hn'. apply in_map, Hx.
Qed.

Lemma fold_IndexedSet_add (cams : list (Camera Pose)) :
  forall pre sc ins m,
    List.NoDup (map name (pre ++ cams)) ->
    fold_left IndexedSet_add cams (mkMultiCamera pre sc ins m)
    = mkMultiCamera (pre ++ cams) sc ins m.
Proof.
  induction cams as [|c cams IH]; intros pre sc ins m Hn; simpl.
  - rewrite app_nil_r. reflexivity.
  - unfold IndexedSet_add at 2. cbn [cameras scene inscene model].
    rewrite (name_fresh pre cams c Hn).
    rewrite IH by (rewrite <- app_assoc; exact Hn).
    rewrite <- app_assoc. reflexivity.
Qed.

Lemma inscene_loop_cameras (n1 n2 : MultiCamera Pose) (key : string)
    (pts : list DirectionalPoint) :
  net_getitem n1 key = net_getitem n2 key -> scene n1 = scene n2 ->
  forall acc, inscene_loop n1 key pts acc = inscene_loop n2 key pts acc.
Proof.
  intros Hg Hs. induction pts as [|dp pts IH]; intros acc; simpl;
    [reflexivity|].
  rewrite Hg, Hs. destruct (net_getitem n2 key) as [cam|]; simpl;
    [|reflexivity].
  destruct (mu cam (Directed dp)) as [v|]; simpl; [|reflexivity].
  destruct (Qlt_bool 0 v); [|apply IH].
  destruct (occluded _ _ _) as [b|]; simpl; [|reflexivity].
  destruct b; simpl; apply IH.
Qed.

Lemma add_all_Raise (cams : list (Camera Pose)) (e : exn) :
  fold_left (fun r item => let! n := r in add n item) cams (Raise e)
  = Raise e.
Proof. induction cams as [|c cams IH]; simpl; [reflexivity | exact IH]. Qed.

Lemma update_all_adds (post : list (Camera Pose)) :
  forall pre sc ins m,
    List.NoDup (map name (pre ++ post)) ->
    update_all (mkMultiCamera (pre ++ post) sc ins m) (map name post)
    = add_all (mkMultiCamera pre sc ins m) post.
Proof.
  induction post as [|c post IH]; intros pre sc ins m Hn.
  - simpl. rewrite app_nil_r. reflexivity.
  - pose proof (name_fresh pre post c Hn) as Hf.
    unfold add_all. cbn [map update_all fold_left bind].
    unfold add at 2. unfold IndexedSet_add.
    cbn [cameras scene inscene model]. rewrite Hf.
    unfold _update_inscene. cbn [cameras scene inscene model].
    destruct (generate_points sc) as [pts|e]; cbn [bind];
      [|symmetry; apply add_all_Raise].
    rewrite (inscene_loop_cameras
               (mkMultiCamera (pre ++ c :: post) sc ins m)
               (mkMultiCamera (pre ++ [c]) sc ins m) (name c) pts).
    + destruct (inscene_loop _ _ pts []) as [l|e]; cbn [bind];
        [|symmetry; apply add_all_Raise].
      replace (pre ++ c :: post) with ((pre ++ [c]) ++ post)
        by (rewrite <- app_assoc; reflexivity).
      apply IH. rewrite <- app_assoc. exact Hn.
    + unfold net_getitem. cbn [cameras].
      rewrite (find_app_first _ pre post c Hf (String.eqb_refl _)).
      rewrite (find_app_last _ pre c Hf (String.eqb_refl _)). reflexivity.
    + reflexivity.
Qed.

Lemma add_all_built (cams : list (Camera Pose)) :
  forall net net', built net -> add_all net cams = Ok net' -> built net'.
Proof.
  unfold add_all. induction cams as [|c cams IH]; intros net net' Hb H;
    simpl in H.
  - injection H as <-. exact Hb.
  - destruct (add net c) as [n|e] eqn:Ea.
    + apply (IH n net'); [|exact H]. apply (built_add net c n Hb Ea).
    + rewrite add_all_Raise in H. discriminate.
Qed.

Lemma update_all_frame (keys : list string) :
  forall net net' : MultiCamera Pose,
    update_all net keys = Ok net' ->
    cameras net' = cameras net /\ scene net' = scene net
    /\ model net' = model net.
Proof.
  induction keys as [|k keys IH]; intros net net' H; simpl in H.
  - injection H as <-. auto.
  - unfold _update_inscene in H.
    destruct (generate_points _) as [pts|]; cbn [bind] in H; [|discriminate].
    destruct (inscene_loop _ _ pts []) as [l|]; cbn [bind] in H;
      [|discriminate].
    destruct (IH _ _ H) as (-> & -> & ->). auto.
Qed.

(** X24: the constructor on cameras with distinct names does what the
    constructor on no camera followed by one [add] for each camera does:
    the same network, or the same exception.  A network that it returns
    has the given cameras, the given scene and an empty model, and is one
    of the networks on which the invariants hold. *)
Theorem MultiCamera_init_adds (sc : Scene) (cams : list (Camera Pose)) :
  List.NoDup (map name cams) ->
  MultiCamera_init sc cams = add_all (mkMultiCamera [] sc ∅ []) cams
  /\ forall net, MultiCamera_init sc cams = Ok net ->
       built net /\ cameras net = cams /\ scene net = sc /\ model net = [].
Proof.
  intros Hn.
  assert (E : MultiCamera_init sc cams
              = add_all (mkMultiCamera [] sc ∅ []) cams).
  { unfold MultiCamera_init.
    rewrite (fold_IndexedSet_add cams [] sc ∅ [] Hn). cbn [cameras app].
    apply (update_all_adds cams [] sc ∅ [] Hn). }
  split; [exact E|]. intros net H. split.
  - rewrite E in H. apply (add_all_built cams _ net (built_init sc) H).
  - unfold MultiCamera_init in H.
    rewrite (fold_IndexedSet_add cams [] sc ∅ [] Hn) in H.
    cbn [cameras app] in H.
    destruct (update_all_frame _ _ _ H) as (-> & -> & ->). auto.
Qed.
End NetworkConstructor.

(** ** Range camera: the direction ramp *)

Section RangeCameraProperties.
Context {M : MathLib}.

Lemma clip_range (q : Q) : 0 <= Qmin (Qmax q 0) 1 <= 1.
Proof.
  split.
  - apply Q.min_glb; [apply Q.le_max_r | lra].
  - apply Q.le_min_r.
Qed.

(** X25: the direction ramp of the range camera.  Its values lie in
    [[0, 1]]; it raises exactly when the two angles differ and have the
    same cosine, and then a [ZeroDivisionError]; when the cosine of the
    ideal angle is the larger one, it is 0 up to the cosine of the
    acceptable angle, 1 from the cosine of the ideal angle on, and
    monotone in between. *)
Theorem cdval_ramp (ideal acceptable : Q) :
  (forall sigma v, cdval ideal acceptable sigma = Ok v -> 0 <= v <= 1)
  /\ (forall sigma e,
        cdval ideal acceptable sigma = Raise e
        <-> e = ZeroDivisionError /\ ~ ideal == acceptable
            /\ m_cos ideal == m_cos acceptable)
  /\ (m_cos acceptable < m_cos ideal ->
      forall s1 s2 v1 v2,
        cdval ideal acceptable s1 = Ok v1 ->
        cdval ideal acceptable s2 = Ok v2 ->
        (s1 <= m_cos acceptable -> v1 == 0)
        /\ (~ ideal == acceptable -> m_cos ideal <= s1 -> v1 == 1)
        /\ (s1 <= s2 -> v1 <= v2)).
Proof.
  unfold cdval, py_div. split; [|split].
  - intros sigma v.
    destruct (Qeq_bool ideal acceptable).
    + intros H. injection H as <-. destruct (Qlt_bool _ _); lra.
    + destruct (Qeq_bool (m_cos ideal - m_cos acceptable) 0); [discriminate|].
      cbn [bind]. intros H. injection H as <-. apply clip_range.
  - intros sigma e.
    destruct (Qeq_bool ideal acceptable) eqn:Ea.
    + apply Qeq_bool_iff in Ea. split; [discriminate | tauto].
    + assert (Hne : ~ ideal == acceptable)
        by (intros E; apply Qeq_bool_iff in E; congruence).
      destruct (Qeq_bool (m_cos ideal - m_cos acceptable) 0) eqn:Ec;
        cbn [bind].
      * apply Qeq_bool_iff in Ec. split.
        -- intros H. injection H as <-. repeat split; [exact Hne | lra].
        -- intros (-> & _). reflexivity.
      * split; [discriminate|]. intros (_ & _ & E).
        assert (E0 : m_cos ideal - m_cos acceptable == 0) by lra.
        apply Qeq_bool_iff in E0. congruence.
  - intros Hlt s1 s2 v1 v2.
    set (aa := m_cos acceptable) in *. set (ai := m_cos ideal) in *.
    assert (Hpos : 0 < ai - aa) by lra.
    destruct (Qeq_bool ideal acceptable) eqn:Ea.
    + intros H1 H2. injection H1 as <-. injection H2 as <-.
      apply Qeq_bool_iff in Ea. split; [|split].
      * intros H. rewrite (proj2 (Qlt_bool_false aa s1) H). reflexivity.
      * intros Hne. contradiction.
      * intros Hle. destruct (Qlt_bool aa s1) eqn:E1.
        -- apply Qlt_bool_iff in E1.
           rewrite (proj2 (Qlt_bool_iff aa s2)) by lra. lra.
        -- destruct (Qlt_bool aa s2); lra.
    + rewrite (Qeq_bool_false (ai - aa) 0) by lra. cbn [bind].
      intros H1 H2. injection H1 as <-. injection H2 as <-.
      assert (Hdiv : forall s t, s <= t ->
                (s - aa) / (ai - aa) <= (t - aa) / (ai - aa)).
      { intros s t Hst. unfold Qdiv. apply Qmult_le_compat_r; [lra|].
        apply Qlt_le_weak, Qinv_lt_0_compat, Hpos. }
      split; [|split].
      * intros H. pose proof (Hdiv s1 aa H) as Hq.
        assert (E0 : (aa - aa) / (ai - aa) == 0) by (field; lra).
        rewrite E0 in Hq. rewrite (Q.max_r _ 0 Hq).
        apply Q.min_l. lra.
      * intros _ H. pose proof (Hdiv ai s1 H) as Hq.
        assert (E1 : (ai - aa) / (ai - aa) == 1) by (field; lra).
        rewrite E1 in Hq. apply Q.min_r.
        apply (Qle_trans _ _ _ Hq). apply Q.le_max_l.
      * intros Hle. pose proof (Hdiv s1 s2 Hle) as Hq.
        apply Q.min_le_compat_r. apply Q.max_le_compat_r. exact Hq.
Qed.
End RangeCameraProperties.

(** * Examples: the further properties at concrete inputs *)


(** A second opaque cell keeps the point occluded. *)
Lemma occluded_monotone_witness :
  let sc := opaque_add ex_scene (mkPoint 1 0 0) in
  let sc' := opaque_add sc (mkPoint 0 0 0) in
  ~ pstep sc == 0 /\ pstep sc' = pstep sc
  /\ (forall q, is_opaque sc q = true -> is_opaque sc' q = true)
  /\ occluded sc (mkPoint 2 0 0) (mkPoint 0 0 0) = Ok true
  /\ occluded sc' (mkPoint 2 0 0) (mkPoint 0 0 0) = Ok true.
Proof.
  intros sc sc'.
  assert (Hs : ~ pstep sc == 0) by step_nonzero.
  assert (Hm : forall q, is_opaque sc q = true -> is_opaque sc' q = true).
  { intros q H. unfold sc'. rewrite is_opaque_add_or, H.
    apply orb_true_r. }
  assert (Ho : occluded sc (mkPoint 2 0 0) (mkPoint 0 0 0) = Ok true)
    by (vm_compute; reflexivity).
  split; [exact Hs|]. split; [reflexivity|]. split; [exact Hm|].
  split; [exact Ho|].
  apply (occluded_monotone sc sc' _ _ Hs eq_refl Hm Ho).
Defined.


(** The cell [(1, 0, 0)] made opaque. *)
Lemma generate_points_make_opaque_witness :
  let c := mkPoint 1 0 0 in
  ~ dstep ex_scene == 0
  /\ make_opaque ex_scene c = Ok (opaque_add ex_scene c)
  /\ exists l,
       generate_points ex_scene = Ok l
       /\ generate_points (opaque_add ex_scene c)
          = Ok (List.filter (fun dp => negb (Point_eqb (pos dp) c)) l).
Proof.
  intros c.
  assert (Hd : ~ dstep ex_scene == 0) by step_nonzero.
  assert (Hm : make_opaque ex_scene c = Ok (opaque_add ex_scene c))
    by (vm_compute; reflexivity).
  split; [exact Hd|]. split; [exact Hm|].
  exact (generate_points_make_opaque ex_scene _ c Hd Hm).
Defined.

(** Two cells, and the directions of one cell. *)
Lemma generate_points_length_witness :
  ~ pstep ex_scene == 0 /\ ~ dstep ex_scene == 0
  /\ exists l, generate_points ex_scene = Ok l
       /\ length l
          = (2 * length (spec_directions ex_scene (mkPoint 0 0 0)))%nat.
Proof.
  assert (Hp : ~ pstep ex_scene == 0) by step_nonzero.
  assert (Hd : ~ dstep ex_scene == 0) by step_nonzero.
  split; [exact Hp|]. split; [exact Hd|].
  destruct (generate_points_length ex_scene (mkPoint 0 0 0) Hp Hd)
    as (l & E & Hl).
  exists l. split; [exact E|]. rewrite Hl. reflexivity.
Defined.



(** A sensor without rows. *)
Lemma Camera_init_zero_witness :
  Camera_init (M := rational_math) "C" 2 1 1 1 1 1 2 0 2 0 1 1 1 1
              (mkPoint 0 0 0)
  = Raise ZeroDivisionError.
Proof.
  apply (Camera_init_zero (M := rational_math)).
  right. right. split; [step_nonzero|]. split; [step_nonzero | reflexivity].
Defined.

(** The empty network of the constructor. *)
Lemma built_update_witness :
  let net := mkMultiCamera (Pose := Point) [] ex_scene ∅ [] in
  built (G := translation_geometry) (M := rational_math) net
  /\ exists net', MultiCameraSimple.update net = Ok net'
                  /\ fs_valid (model net').
Proof.
  intros net.
  assert (Hb : built (G := translation_geometry) (M := rational_math) net)
    by apply built_init.
  split; [exact Hb|].
  exact (proj1 (proj2 (proj2 (built_update net Hb)))).
Defined.

(** The network of the examples under both policies. *)
Lemma update_3d_le_simple_witness :
  inscene_valid ex_net
  /\ exists n3 ns,
       MultiCamera3D.update ex_net = Ok n3
       /\ MultiCameraSimple.update ex_net = Ok ns
       /\ fs_mu (model n3) ex_dp <= fs_mu (model ns) ex_dp.
Proof.
  assert (Hv : inscene_valid ex_net) by ex_net_valid.
  split; [exact Hv|].
  assert (Hg : generate_points (scene ex_net) = Ok (spec_points ex_scene))
    by (apply generate_points_spec; step_nonzero).
  destruct (update_3d_mu ex_net _ Hv Hg) as (m3 & E3 & _).
  destruct (update_simple_mu ex_net Hv) as (ms & Es & _).
  eexists. eexists. split; [exact E3|]. split; [exact Es|].
  apply (update_3d_le_simple ex_net _ _ Hv E3 Es).
Defined.

(** A network with the single camera "A". *)
Lemma update_3d_few_cameras_witness :
  let net := mkMultiCamera [ex_A] ex_scene (<["A" := [mkFE ex_dp 1]]> ∅) [] in
  (length (cameras net) < 2)%nat
  /\ generate_points (scene net) = Ok (spec_points ex_scene)
  /\ exists net', MultiCamera3D.update net = Ok net'
                  /\ fs_mu (model net') ex_dp = 0.
Proof.
  intros net.
  assert (Hl : (length (cameras net) < 2)%nat) by (simpl; lia).
  assert (Hg : generate_points (scene net) = Ok (spec_points ex_scene))
    by (apply generate_points_spec; step_nonzero).
  split; [exact Hl|]. split; [exact Hg|].
  destruct (update_3d_few_cameras net _ Hl Hg) as (net' & E & H).
  exists net'. split; [exact E | apply H].
Defined.

(** The two cameras of the examples in the other order. *)
Lemma update_order_witness :
  let net' := mkMultiCamera [ex_B; ex_A] (scene ex_net) (inscene ex_net)
                            (model ex_net) in
  Permutation (cameras ex_net) [ex_B; ex_A]
  /\ inscene_valid ex_net
  /\ generate_points (scene ex_net) = Ok (spec_points ex_scene)
  /\ exists n1 n2,
       MultiCamera3D.update ex_net = Ok n1
       /\ MultiCamera3D.update net' = Ok n2
       /\ fs_mu (model n1) ex_dp == fs_mu (model n2) ex_dp.
Proof.
  intros net'.
  assert (Hp : Permutation (cameras ex_net) [ex_B; ex_A]) by apply perm_swap.
  assert (Hv : inscene_valid ex_net) by ex_net_valid.
  assert (Hg : generate_points (scene ex_net) = Ok (spec_points ex_scene))
    by (apply generate_points_spec; step_nonzero).
  split; [exact Hp|]. split; [exact Hv|]. split; [exact Hg|].
  destruct (update_order ex_net [ex_B; ex_A] _ Hp Hv Hg)
    as (_ & n1 & n2 & E1 & E2 & H).
  exists n1, n2. split; [exact E1|]. split; [exact E2 | apply H].
Defined.

(** Camera "B" added to the network that holds camera "A". *)
Lemma add_frame_witness :
  let net := mkMultiCamera [ex_A] ex_scene (<["A" := [mkFE ex_dp 1]]> ∅) [] in
  exists net',
    add (G := translation_geometry) (M := rational_math) net ex_B = Ok net'
    /\ scene net' = scene net /\ model net' = model net
    /\ inscene net' !! "A" = inscene net !! "A".
Proof.
  intros net.
  destruct (add (G := translation_geometry) (M := rational_math) net ex_B)
    as [net'|e] eqn:E; [|vm_compute in E; discriminate E].
  exists net'. split; [reflexivity|].
  destruct (add_frame (G := translation_geometry) (M := rational_math)
              net net' ex_B E) as (Hs & Hm & _ & _ & _ & Hk & _).
  split; [exact Hs|]. split; [exact Hm|]. apply Hk. discriminate.
Defined.


(** The constructor on the two cameras of the examples. *)
Lemma MultiCamera_init_adds_witness :
  List.NoDup (map name [ex_A; ex_B])
  /\ MultiCamera_init (G := translation_geometry) (M := rational_math)
       ex_scene [ex_A; ex_B]
     = add_all (G := translation_geometry) (M := rational_math)
         (mkMultiCamera [] ex_scene ∅ []) [ex_A; ex_B].
Proof.
  assert (Hn : List.NoDup (map name [ex_A; ex_B]))
    by (repeat constructor; simpl; intuition discriminate).
  split; [exact Hn|].
  exact (proj1 (MultiCamera_init_adds (G := translation_geometry)
                  (M := rational_math) ex_scene [ex_A; ex_B] Hn)).
Defined.

(** * The scene over the arithmetic of the machine: properties *)

(** ** occluded: the cells that are tested, whatever the arithmetic *)

Section NumOccluded.
Context {F : Type} {A : Num.Arith F}.

Lemma num_body_tests (sc : Num.Scene F) (su : Num.Setup F) (w : Num.Walk F) :
  Num.body sc su w
  = if existsb (Num.is_opaque sc) (Num.tests su w) then Num.Return true
    else Num.Continue (Num.next su w).
Proof.
  unfold Num.body, Num.tests, Num.next.
  destruct (Num.f_ltb Num.f_zero (Num.exy w));
    destruct (Num.f_ltb Num.f_zero (Num.exz w)); cbn [existsb].
  - destruct (Num.f_ltb _ _);
      repeat (match goal with
              | |- context [Num.is_opaque sc ?c] =>
                  destruct (Num.is_opaque sc c); cbn [orb]
              end; try reflexivity).
  - repeat (match goal with
            | |- context [Num.is_opaque sc ?c] =>
                destruct (Num.is_opaque sc c); cbn [orb]
            end; try reflexivity).
  - repeat (match goal with
            | |- context [Num.is_opaque sc ?c] =>
                destruct (Num.is_opaque sc c); cbn [orb]
            end; try reflexivity).
  - repeat (match goal with
            | |- context [Num.is_opaque sc ?c] =>
                destruct (Num.is_opaque sc c); cbn [orb]
            end; try reflexivity).
Qed.

(** The loop returns true at the first opaque cell of its trace, false
    when the loop leaves, and is still running otherwise. *)
Lemma num_traverse_trace (sc : Num.Scene F) (su : Num.Setup F) (n : nat) :
  forall w,
    Num.traverse n sc su w
    = (if existsb (Num.is_opaque sc) (fst (Num.trace n su w)) then Some true
       else match snd (Num.trace n su w) with
            | Num.Exits => Some false
            | _ => None
            end).
Proof.
  induction n as [|n IH]; intros w; cbn [Num.traverse Num.trace].
  - destruct (Num.loop_test su w); reflexivity.
  - destruct (Num.loop_test su w); [|reflexivity].
    rewrite num_body_tests.
    destruct (Num.trace n su (Num.next su w)) as [l e] eqn:Et.
    cbn [fst snd]. rewrite existsb_app.
    destruct (existsb (Num.is_opaque sc) (Num.tests su w)); [reflexivity|].
    rewrite IH, Et. reflexivity.
Qed.

Lemma num_trace_ending (su : Num.Setup F) (n : nat) :
  forall w e, snd (Num.trace n su w) <> Num.Fails e.
Proof.
  induction n as [|n IH]; intros w e; cbn [Num.trace].
  - destruct (Num.loop_test su w); discriminate.
  - destruct (Num.loop_test su w); [|discriminate].
    specialize (IH (Num.next su w) e).
    destruct (Num.trace n su (Num.next su w)) as [l e']. exact IH.
Qed.

(** X1: the cells that [occluded( p, cam )] tests are fixed by the grid
    step and the two points, in every arithmetic: the list [path] is
    computed without the opaque set, and in every scene with that step
    the function returns true when a cell of the list is opaque; when
    none is, it returns false if the loop has left, raises if the setup
    raised, and is still running otherwise. *)
Theorem occluded_path (sc : Num.Scene F) (p cam : Num.Point F) (n : nat) :
  Num.occluded_fuel n sc p cam
  = (if existsb (Num.is_opaque sc) (fst (Num.path n (Num.pstep sc) p cam))
     then Some (Ok true)
     else match snd (Num.path n (Num.pstep sc) p cam) with
          | Num.Exits => Some (Ok false)
          | Num.Running => None
          | Num.Fails e => Some (Raise e)
          end).
Proof.
  unfold Num.occluded_fuel, Num.path.
  destruct (Num.frame (Num.pstep sc) p cam) as [f|e]; [|reflexivity].
  destruct (Num.setup (Num.pstep sc) f p) as [[su w]|e].
  - cbv beta iota. rewrite num_traverse_trace.
    pose proof (num_trace_ending su n w) as Hne.
    destruct (Num.trace n su w) as [l e]. cbn [fst snd existsb] in *.
    destruct (Num.is_opaque sc (Num.P0 f)); cbn [orb]; [reflexivity|].
    destruct (existsb (Num.is_opaque sc) l); [reflexivity|].
    destruct e as [| |e]; [reflexivity | reflexivity|].
    destruct (Hne e eq_refl).
  - cbn [fst snd existsb].
    destruct (Num.is_opaque sc (Num.P0 f)); reflexivity.
Qed.

(** X3: in a scene without opaque cells [occluded] never returns true,
    in every arithmetic and after any number of passes: it returns
    false when its loop leaves, and otherwise it is still running or
    the setup has raised. *)
Theorem occluded_no_opaque (sc : Num.Scene F) (p cam : Num.Point F) (n : nat) :
  Num.opaque sc = [] ->
  Num.occluded_fuel n sc p cam <> Some (Ok true)
  /\ (snd (Num.path n (Num.pstep sc) p cam) = Num.Exits ->
      Num.occluded_fuel n sc p cam = Some (Ok false)).
Proof.
  intros He.
  assert (Hno : forall l, existsb (Num.is_opaque sc) l = false).
  { induction l as [|c l IH]; [reflexivity|].
    cbn [existsb]. unfold Num.is_opaque at 1. rewrite He. exact IH. }
  unfold Num.occluded_fuel, Num.path.
  destruct (Num.frame (Num.pstep sc) p cam) as [f|e];
    [|split; discriminate].
  assert (E0 : Num.is_opaque sc (Num.P0 f) = false)
    by (unfold Num.is_opaque; rewrite He; reflexivity).
  rewrite E0.
  destruct (Num.setup (Num.pstep sc) f p) as [[su w]|e];
    [|split; discriminate].
  cbv beta iota. rewrite num_traverse_trace, Hno.
  destruct (Num.trace n su w) as [l e]. cbn [fst snd].
  destruct e; split; try discriminate; reflexivity.
Qed.

Lemma num_snap_Raise (step a : F) (e : exn) :
  Num.snap step a = Raise e ->
  (e = ZeroDivisionError /\ Num.f_eqb step Num.f_zero = true)
  \/ (Num.f_eqb step Num.f_zero = false
      /\ (e = ValueError \/ e = OverflowError)).
Proof.
  unfold Num.snap, Num.py_div, Num.py_int.
  destruct (Num.f_eqb step Num.f_zero); cbn [bind].
  - intros H. injection H as <-. left. auto.
  - destruct (Num.f_nan _); cbn [bind].
    + intros H. injection H as <-. right. auto.
    + destruct (Num.f_inf _); cbn [bind]; [|discriminate].
      intros H. injection H as <-. right. auto.
Qed.

Lemma num_snap_zero (step a : F) :
  Num.f_eqb step Num.f_zero = true ->
  Num.snap step a = Raise ZeroDivisionError.
Proof. intros E. unfold Num.snap, Num.py_div. rewrite E. reflexivity. Qed.

Lemma num_frame_Raise (step : F) (p cam : Num.Point F) (e : exn) :
  Num.frame step p cam = Raise e ->
  (e = ZeroDivisionError /\ Num.f_eqb step Num.f_zero = true)
  \/ (Num.f_eqb step Num.f_zero = false
      /\ (e = ValueError \/ e = OverflowError)).
Proof.
  unfold Num.frame, Num.voxel.
  destruct (Num.snap step (Num.px cam)) as [x|e1] eqn:E1; cbn [bind].
  2:{ intros H. injection H as <-. exact (num_snap_Raise _ _ _ E1). }
  destruct (Num.snap step (Num.py cam)) as [y|e2] eqn:E2; cbn [bind].
  2:{ intros H. injection H as <-. exact (num_snap_Raise _ _ _ E2). }
  destruct (Num.snap step (Num.pz cam)) as [z|e3] eqn:E3; cbn [bind].
  2:{ intros H. injection H as <-. exact (num_snap_Raise _ _ _ E3). }
  destruct (Num.driving _) as [[x' y'] z']. discriminate.
Qed.

(** X10: in every arithmetic [occluded] and [make_opaque] raise
    [ZeroDivisionError] exactly when the grid step compares equal to
    zero, and then before anything else.  The only other exceptions of
    [occluded] are the [ValueError] and the [OverflowError] of [int( )]
    on a quotient that is a NaN or an infinity; the only other exception
    of [make_opaque] is the [ValueError] of a point off the grid. *)
Theorem scene_raises (sc : Num.Scene F) (p cam : Num.Point F) (n : nat) :
  (Num.occluded_fuel n sc p cam = Some (Raise ZeroDivisionError)
   <-> Num.f_eqb (Num.pstep sc) Num.f_zero = true)
  /\ (forall e, Num.occluded_fuel n sc p cam = Some (Raise e) ->
        e = ZeroDivisionError \/ e = ValueError \/ e = OverflowError)
  /\ (Num.make_opaque sc p = Raise ZeroDivisionError
      <-> Num.f_eqb (Num.pstep sc) Num.f_zero = true)
  /\ (forall e, Num.make_opaque sc p = Raise e ->
        e = ZeroDivisionError \/ e = ValueError).
Proof.
  assert (Hr : forall e, Num.occluded_fuel n sc p cam = Some (Raise e) ->
             (e = ZeroDivisionError
              /\ Num.f_eqb (Num.pstep sc) Num.f_zero = true)
             \/ (Num.f_eqb (Num.pstep sc) Num.f_zero = false
                 /\ (e = ValueError \/ e = OverflowError))).
  { intros e. unfold Num.occluded_fuel.
    destruct (Num.frame (Num.pstep sc) p cam) as [f|e1] eqn:Ef.
    - destruct (Num.is_opaque sc (Num.P0 f)); [discriminate|].
      unfold Num.setup.
      destruct (Num.snap (Num.pstep sc) _) as [v|e2] eqn:Es; cbn [bind].
      + destruct (Num.traverse n sc _ _); discriminate.
      + intros H. injection H as <-. exact (num_snap_Raise _ _ _ Es).
    - intros H. injection H as <-. exact (num_frame_Raise _ _ _ _ Ef). }
  assert (Hm : forall e, Num.make_opaque sc p = Raise e ->
             (e = ZeroDivisionError
              /\ Num.f_eqb (Num.pstep sc) Num.f_zero = true)
             \/ (Num.f_eqb (Num.pstep sc) Num.f_zero = false
                 /\ e = ValueError)).
  { intros e. unfold Num.make_opaque, Num.py_mod.
    destruct (Num.f_eqb (Num.pstep sc) Num.f_zero); cbn [bind].
    - intros H. injection H as <-. left. auto.
    - destruct (Num.truthy _); [intros H; injection H as <-; auto|].
      destruct (Num.truthy _); [intros H; injection H as <-; auto|].
      destruct (Num.truthy _); [intros H; injection H as <-; auto|].
      discriminate. }
  split; [|split; [|split]].
  - split.
    + intros H. destruct (Hr _ H) as [[_ E] | [_ [E | E]]];
        [exact E | discriminate E | discriminate E].
    + intros E. unfold Num.occluded_fuel, Num.frame, Num.voxel.
      rewrite (num_snap_zero _ _ E). reflexivity.
  - intros e H. destruct (Hr _ H) as [[-> _] | [_ [-> | ->]]]; auto.
  - split.
    + intros H. destruct (Hm _ H) as [[_ E] | [_ E]];
        [exact E | discriminate E].
    + intros E. unfold Num.make_opaque, Num.py_mod. rewrite E. reflexivity.
  - intros e H. destruct (Hm _ H) as [[-> _] | [_ ->]]; auto.
Qed.

(** A pass that changes nothing is repeated for ever. *)
Lemma num_traverse_stuck (sc : Num.Scene F) (su : Num.Setup F)
    (w : Num.Walk F) :
  Num.loop_test su w = true -> Num.body sc su w = Num.Continue w ->
  forall n, Num.traverse n sc su w = None.
Proof.
  intros Ht Hb n. induction n as [|n IH]; cbn [Num.traverse]; rewrite Ht;
    [reflexivity|].
  rewrite Hb. exact IH.
Qed.
End NumOccluded.

(** ** occluded: a loop that does not leave *)

(** C10: in binary64 the loop of [occluded] does not always leave.  With
    grid step 1.0, nothing opaque, the origin at [x = 2 ^ 53] and the
    target at [x = 2 ^ 53 + 2], the loop is entered, and a pass of its
    body leaves the loop variables as they were: [P[ x ] += s[ x ]] adds
    1.0 to [2 ^ 53], which rounds back to [2 ^ 53].  Whatever the number
    of passes, the function has not returned. *)
Theorem occluded_never_exits :
  let sc := ex_fscene in
  let cam := Num.mkPoint two53 0%float 0%float in
  let p := Num.mkPoint (two53 + 2)%float 0%float 0%float in
  (exists f su w,
      Num.frame (A := Binary64.arith) (Num.pstep sc) p cam = Ok f
      /\ Num.setup (A := Binary64.arith) (Num.pstep sc) f p = Ok (su, w)
      /\ Num.getitem (Num.s f) (Num.ax f) = 1%float
      /\ Num.loop_test (A := Binary64.arith) su w = true
      /\ Num.body (A := Binary64.arith) sc su w = Num.Continue w)
  /\ forall fuel,
       Num.occluded_fuel (A := Binary64.arith) fuel sc p cam = None.
Proof.
  intros sc cam p.
  destruct (Num.frame (A := Binary64.arith) (Num.pstep sc) p cam)
    as [f|e] eqn:Ef; [|vm_compute in Ef; discriminate Ef].
  destruct (Num.setup (A := Binary64.arith) (Num.pstep sc) f p)
    as [[su w]|e] eqn:Es;
    [|vm_compute in Ef; injection Ef as <-; vm_compute in Es;
      discriminate Es].
  assert (Hs : Num.getitem (Num.s f) (Num.ax f) = 1%float).
  { vm_compute in Ef. injection Ef as <-. reflexivity. }
  assert (Ht : Num.loop_test (A := Binary64.arith) su w = true).
  { vm_compute in Ef. injection Ef as <-. vm_compute in Es.
    injection Es as <- <-. vm_compute. reflexivity. }
  assert (Hb : Num.body (A := Binary64.arith) sc su w = Num.Continue w).
  { vm_compute in Ef. injection Ef as <-. vm_compute in Es.
    injection Es as <- <-. vm_compute. reflexivity. }
  split.
  - exists f, su, w. auto.
  - intros fuel. unfold Num.occluded_fuel. rewrite Ef.
    assert (Ho : Num.is_opaque (A := Binary64.arith) sc (Num.P0 f) = false)
      by reflexivity.
    rewrite Ho, Es. cbv beta iota.
    rewrite (num_traverse_stuck sc su w Ht Hb). reflexivity.
Qed.

(** ** generate_points, whatever the arithmetic *)

Section NumGenerate.
Context {F : Type} {A : Num.Arith F}.




End NumGenerate.

(** * Examples in binary64 *)



(** Grid step 0.1: [make_opaque] takes the cell 0.8, on the straight
    line from the origin to [(1, 0, 0)]; the loop adds 0.1 eight times
    and tests 0.7999999999999999, so that no tested cell is opaque, and
    after its 11 passes [occluded] returns false. *)
Lemma occluded_path_witness :
  let c := Num.mkPoint (8 / 10)%float 0%float 0%float in
  let sc := Num.opaque_add (A := Binary64.arith) ex_fscene_tenth c in
  let p := Num.mkPoint 1%float 0%float 0%float in
  let cam := Num.mkPoint 0%float 0%float 0%float in
  Num.make_opaque (A := Binary64.arith) ex_fscene_tenth c = Ok sc
  /\ snd (Num.path (A := Binary64.arith) 11 (Num.pstep sc) p cam) = Num.Exits
  /\ existsb (Num.is_opaque (A := Binary64.arith) sc)
             (fst (Num.path (A := Binary64.arith) 11 (Num.pstep sc) p cam))
     = false
  /\ Num.occluded_fuel (A := Binary64.arith) 11 sc p cam = Some (Ok false).
Proof.
  intros c sc p cam.
  split; [vm_compute; reflexivity|].
  split; [vm_compute; reflexivity|].
  split; [vm_compute; reflexivity|].
  rewrite (occluded_path (A := Binary64.arith) sc p cam 11).
  vm_compute. reflexivity.
Defined.

(** Nothing opaque: across two cells the loop leaves and the answer is
    false; from [2 ^ 53] it has not returned after 1000 passes, and so
    has not returned true. *)
Lemma occluded_no_opaque_witness :
  let cam := Num.mkPoint 0%float 0%float 0%float in
  let p := Num.mkPoint 2%float 0%float 0%float in
  let cam' := Num.mkPoint two53 0%float 0%float in
  let p' := Num.mkPoint (two53 + 2)%float 0%float 0%float in
  Num.opaque ex_fscene = []
  /\ Num.occluded_fuel (A := Binary64.arith) 2 ex_fscene p cam
     = Some (Ok false)
  /\ Num.occluded_fuel (A := Binary64.arith) 1000 ex_fscene p' cam'
     <> Some (Ok true).
Proof.
  intros cam p cam' p'.
  assert (He : Num.opaque ex_fscene = []) by reflexivity.
  split; [exact He|]. split.
  - apply (occluded_no_opaque (A := Binary64.arith) ex_fscene p cam 2 He).
    vm_compute. reflexivity.
  - apply (occluded_no_opaque (A := Binary64.arith) ex_fscene p' cam' 1000 He).
Defined.

(** * The exact model is the parametric model at the exact arithmetic *)

Section ExactInstance.

Lemma num_is_opaque (sc : Scene) (q : Point) :
  Num.is_opaque (A := exact_arith) (num_scene sc) (num_point q)
  = is_opaque sc q.
Proof.
  unfold Num.is_opaque, is_opaque, num_scene. cbn [Num.opaque].
  induction (opaque sc) as [|c l IH]; [reflexivity|].
  cbn [map existsb]. rewrite IH. reflexivity.
Qed.

Lemma num_beside (sc : Scene) (cam : Point) (su : Setup) (q : Point) (a : axis) :
  Num.beside (A := exact_arith) (num_setup sc cam su) (num_point q) a
  = num_point (beside su q a).
Proof. reflexivity. Qed.

Lemma num_corner (sc : Scene) (cam : Point) (su : Setup) (q : Point)
    (a b : axis) :
  Num.corner (A := exact_arith) (num_setup sc cam su) (num_point q) a b
  = num_point (corner su q a b).
Proof. reflexivity. Qed.

Lemma num_advance_all (sc : Scene) (cam : Point) (su : Setup) (q : Point) :
  Num.advance_all (A := exact_arith) (num_setup sc cam su) (num_point q)
  = num_point (advance_all su q).
Proof. reflexivity. Qed.

Lemma num_advance (sc : Scene) (cam : Point) (su : Setup) (q : Point) (a : axis) :
  Num.advance (A := exact_arith) (num_setup sc cam su) (num_point q) a
  = num_point (advance su q a).
Proof. destruct a; reflexivity. Qed.

Lemma num_getitem (q : Point) (a : axis) :
  Num.getitem (num_point q) a = getitem q a.
Proof. destruct a; reflexivity. Qed.

Lemma num_body (sc : Scene) (cam : Point) (su : Setup) (w : Walk) :
  Num.body (A := exact_arith) (num_scene sc) (num_setup sc cam su) (num_walk w)
  = match body sc su w with
    | Return b => Num.Return b
    | Continue w' => Num.Continue (num_walk w')
    end.
Proof.
  unfold Num.body, body.
  cbn [num_walk Num.P Num.exy Num.exz num_setup Num.fr Num.ax Num.ay Num.az
       Num.d Num.dxy Num.d1xy Num.dxz Num.d1xz].
  rewrite !num_getitem.
  change (Num.mkSetup _ _ _ _ _ _) with (num_setup sc cam su).
  rewrite ?num_beside, ?num_corner, ?num_advance_all, ?num_advance,
    ?num_is_opaque.
  change (@Num.f_ltb Q exact_arith) with Qlt_bool.
  change (@Num.f_zero Q exact_arith) with 0.
  change (@Num.f_mul Q exact_arith) with Qmult.
  change (@Num.f_add Q exact_arith) with Qplus.
  destruct (Qlt_bool 0 (exy w)), (Qlt_bool 0 (exz w)).
  - destruct (Qlt_bool _ _);
      repeat (match goal with
              | |- context [is_opaque sc ?c] => destruct (is_opaque sc c)
              end; try reflexivity).
  - repeat (match goal with
            | |- context [is_opaque sc ?c] => destruct (is_opaque sc c)
            end; try reflexivity).
  - repeat (match goal with
            | |- context [is_opaque sc ?c] => destruct (is_opaque sc c)
            end; try reflexivity).
  - repeat (match goal with
            | |- context [is_opaque sc ?c] => destruct (is_opaque sc c)
            end; try reflexivity).
Qed.

Lemma num_loop_test (sc : Scene) (cam : Point) (su : Setup) (w : Walk) :
  Num.loop_test (A := exact_arith) (num_setup sc cam su) (num_walk w)
  = loop_test su w.
Proof.
  unfold Num.loop_test, loop_test.
  cbn [num_walk Num.P num_setup Num.fr Num.ax Num.s Num.P2].
  rewrite !num_getitem. reflexivity.
Qed.

Lemma num_traverse (sc : Scene) (cam : Point) (su : Setup) (n : nat) :
  forall w,
    Num.traverse (A := exact_arith) n (num_scene sc) (num_setup sc cam su)
                 (num_walk w)
    = traverse n sc su w.
Proof.
  induction n as [|n IH]; intros w; cbn [Num.traverse traverse];
    rewrite num_loop_test; [reflexivity|].
  destruct (loop_test su w); [|reflexivity].
  rewrite num_body. destruct (body sc su w) as [b|w']; [reflexivity|].
  apply IH.
Qed.

Lemma num_snap (st a : Q) :
  ~ st == 0 -> Num.snap (A := exact_arith) st a = Ok (snap st a).
Proof.
  intros Hs. unfold Num.snap, Num.py_div, Num.py_int, snap.
  cbn [Num.f_eqb Num.f_zero Num.f_nan Num.f_inf Num.f_trunc Num.f_div
       Num.f_mul exact_arith].
  rewrite (Qeq_bool_false _ _ Hs). reflexivity.
Qed.

(** The exact [occluded] is the parametric one at the exact
    arithmetic, for every bound on the passes. *)
Lemma num_occluded_fuel (sc : Scene) (p cam : Point) (n : nat) :
  Num.occluded_fuel (A := exact_arith) n (num_scene sc) (num_point p)
                    (num_point cam)
  = occluded_fuel n sc p cam.
Proof.
  unfold Num.occluded_fuel, occluded_fuel. cbn [num_scene Num.pstep].
  destruct (Qeq_bool (pstep sc) 0) eqn:E.
  - unfold Num.frame, Num.voxel, Num.snap, Num.py_div.
    cbn [Num.f_eqb Num.f_zero exact_arith]. rewrite E. reflexivity.
  - assert (Hs : ~ pstep sc == 0)
      by (intros H; apply Qeq_bool_iff in H; congruence).
    assert (Ef : Num.frame (A := exact_arith) (pstep sc) (num_point p)
                   (num_point cam)
                 = Ok (Num.fr (num_setup sc cam (fst (setup sc p cam))))).
    { unfold Num.frame, Num.voxel. cbn [num_point Num.px Num.py Num.pz].
      rewrite !(num_snap _ _ Hs). cbn [bind]. unfold setup.
      change (Num.driving (A := exact_arith) ?q)
        with (driving (mkPoint (Num.px q) (Num.py q) (Num.pz q))).
      cbn [Num.px Num.py Num.pz].
      destruct (driving _) as [[x y] z]. reflexivity. }
    rewrite Ef.
    assert (Es : Num.setup (A := exact_arith) (pstep sc)
                   (Num.fr (num_setup sc cam (fst (setup sc p cam))))
                   (num_point p)
                 = Ok (num_setup sc cam (fst (setup sc p cam)),
                       num_walk (snd (setup sc p cam)))).
    { unfold Num.setup. rewrite num_getitem, (num_snap _ _ Hs). cbn [bind].
      unfold setup. destruct (driving _) as [[x y] z].
      cbn [fst snd num_setup num_walk Num.fr Num.ax Num.ay Num.az Num.u
           Num.d Num.P0 d s ax ay az P2 dxy d1xy dxz d1xz P exy exz].
      rewrite !num_getitem.
      destruct x, y, z; reflexivity. }
    rewrite Es. cbv beta iota.
    destruct (setup sc p cam) as [su w] eqn:Esu. cbn [fst snd].
    unfold num_setup at 1. cbn [Num.fr Num.P0].
    assert (EP : voxel (pstep sc) cam = P w).
    { unfold setup in Esu. destruct (driving _) as [[x y] z].
      injection Esu as _ <-. reflexivity. }
    rewrite num_is_opaque, EP.
    destruct (is_opaque sc (P w)); [reflexivity|].
    rewrite num_traverse. reflexivity.
Qed.

Lemma for_yield_map {A B C : Type} (h : B -> C) (l : list A)
    (f : A -> res (list B)) (g : A -> res (list C)) :
  (forall a, g a = map_res h (f a)) ->
  for_yield l g = map_res h (for_yield l f).
Proof.
  intros H. induction l as [|a l IH]; [reflexivity|].
  cbn [for_yield]. rewrite H, IH.
  destruct (f a) as [ys|e]; [|reflexivity]. cbn [map_res bind].
  destruct (for_yield l f) as [rest|e]; [|reflexivity].
  cbn [map_res bind]. rewrite map_app. reflexivity.
Qed.

(** The exact [generate_points] is the parametric one at the exact
    arithmetic. *)
Lemma num_generate_points (sc : Scene) :
  Num.generate_points (A := exact_arith) (num_scene sc)
  = map_res num_dp (generate_points sc).
Proof.
  unfold Num.generate_points, generate_points.
  cbn [num_scene Num.xr Num.yr Num.zr Num.pstep Num.f_arange exact_arith].
  destruct (arange (fst (xr sc)) _ _) as [xs|e]; [|reflexivity].
  cbn [bind]. apply for_yield_map. intros x.
  destruct (arange (fst (yr sc)) _ _) as [ys|e]; [|reflexivity].
  cbn [bind]. apply for_yield_map. intros y.
  destruct (arange (fst (zr sc)) _ _) as [zs|e]; [|reflexivity].
  cbn [bind]. apply for_yield_map. intros z.
  change (Num.mkPoint x y z) with (num_point (mkPoint x y z)).
  rewrite num_is_opaque.
  destruct (is_opaque sc (mkPoint x y z)); [reflexivity|].
  unfold Num.directions_at, directions_at.
  cbn [num_scene Num.dstep Num.f_arange Num.f_zero Num.f_pi Num.f_add
       Num.f_mul Num.f_two exact_arith].
  destruct (arange 0 (pi + dstep sc) (dstep sc)) as [rhos|e]; [|reflexivity].
  cbn [bind]. apply for_yield_map. intros r.
  change (Num.is_pole (A := exact_arith) r) with (is_pole r).
  destruct (is_pole r); [reflexivity|].
  destruct (arange 0 (2 * pi) (dstep sc)) as [etas|e]; [|reflexivity].
  cbn [bind]. apply for_yield_map. intros e. reflexivity.
Qed.

(** The exact [make_opaque] is the parametric one at the exact
    arithmetic. *)
Lemma num_make_opaque (sc : Scene) (p : Point) :
  Num.make_opaque (A := exact_arith) (num_scene sc) (num_point p)
  = match make_opaque sc p with
    | Ok sc' => Ok (num_scene sc')
    | Raise e => Raise e
    end.
Proof.
  assert (Ea : Num.opaque_add (A := exact_arith) (num_scene sc) (num_point p)
               = num_scene (opaque_add sc p)).
  { unfold Num.opaque_add, opaque_add. rewrite num_is_opaque.
    destruct (is_opaque sc p); reflexivity. }
  unfold Num.make_opaque, make_opaque, Num.py_mod, py_mod, Num.truthy, truthy.
  cbn [num_scene Num.pstep num_point Num.px Num.py Num.pz Num.f_eqb
       Num.f_zero Num.f_mod exact_arith].
  destruct (Qeq_bool (pstep sc) 0); [reflexivity|]. cbn [bind].
  destruct (negb (Qeq_bool _ 0)); [reflexivity|].
  destruct (negb (Qeq_bool _ 0)); [reflexivity|].
  destruct (negb (Qeq_bool _ 0)); [reflexivity|].
  rewrite <- Ea. reflexivity.
Qed.
End ExactInstance.

(** ** numpy.arange in binary64 *)

(** When [arange] returns values, the first is [start]: the polar
    angles of [generate_points] begin with the pole 0. *)
Lemma arange_head (start stop step r : float) (l : list float) :
  Binary64.arange start stop step = Ok (r :: l) -> r = start.
Proof.
  unfold Binary64.arange.
  destruct (PrimFloat.eqb step PrimFloat.zero); [discriminate|].
  destruct (PrimFloat.is_nan _ || _); [discriminate|].
  destruct (Z.to_nat _) as [|n]; cbn [firstn]; [discriminate|].
  intros H. injection H as <- _. reflexivity.
Qed.

(** ** Exceptions of occluded in binary64 *)

(** A zero grid step raises [ZeroDivisionError]; with the grid step
    [2 ^ -100] and the origin at [x = 2 ^ 1000] the quotient is an
    infinity and [int( )] raises [OverflowError]. *)
Lemma scene_raises_witness :
  let p := Num.mkPoint 1%float 0%float 0%float in
  let sc0 :=
    Num.Scene_init (0, 1)%float (0, 1)%float (0, 1)%float 0%float 1%float in
  let sc :=
    Num.Scene_init (0, 1)%float (0, 1)%float (0, 1)%float
                   (Binary64.of_scaled 1 (-100)) 1%float in
  let cam := Num.mkPoint (Binary64.of_scaled 1 1000) 0%float 0%float in
  Num.occluded_fuel (A := Binary64.arith) 0 sc0 p p
  = Some (Raise ZeroDivisionError)
  /\ Num.occluded_fuel (A := Binary64.arith) 0 sc p cam
     = Some (Raise OverflowError)
  /\ Num.occluded_fuel (A := Binary64.arith) 0 sc p cam
     <> Some (Raise ZeroDivisionError).
Proof.
  intros p sc0 sc cam.
  destruct (scene_raises (A := Binary64.arith) sc0 p p 0) as ([_ H0] & _).
  destruct (scene_raises (A := Binary64.arith) sc p cam 0) as ([H1 _] & _).
  split; [apply H0; reflexivity|].
  split; [vm_compute; reflexivity|].
  intros H. apply H1 in H. vm_compute in H. discriminate H.
Defined.

(** ** The two readings side by side *)

(** The quotient [0.5 / 0.1] is 5 in binary64 and its voxel is at 0.5;
    the exact quotient of the two floats is below 5 and its voxel is at
    four grid steps. *)
Example snap_rounds_quotient :
  Num.snap (A := Binary64.arith) (1 / 10)%float (1 / 2)%float
  = Ok (1 / 2)%float
  /\ Num.snap (A := exact_arith) (3602879701896397 # 36028797018963968)
              (1 # 2)
     = Ok (4 * (3602879701896397 # 36028797018963968)).
Proof. split; vm_compute; reflexivity. Qed.

(** On the integer inputs of the tie of the two largest deltas the two
    readings agree: the loop is not entered and the opaque cell
    [(1, 1, 0)] on the diagonal is not seen. *)
Example occluded_tie_binary64 :
  let c := Num.mkPoint 1%float 1%float 0%float in
  let sc := Num.opaque_add (A := Binary64.arith) ex_fscene c in
  let p := Num.mkPoint 2%float 2%float 0%float in
  let cam := Num.mkPoint 0%float 0%float 0%float in
  Num.make_opaque (A := Binary64.arith) ex_fscene c = Ok sc
  /\ forall n, Num.occluded_fuel (A := Binary64.arith) n sc p cam
               = Some (Ok false).
Proof.
  intros c sc p cam. split; [vm_compute; reflexivity|].
  intros n. destruct n; vm_compute; reflexivity.
Qed.
